(** * Verification of the ALS recommender pipeline (Project2)

    Shallow embedding of [Project2/src/als.py] and [Project2/stack.py].

    Modelling conventions.
    - numpy floats are idealised as the elements of an ordered field [R];
      [np.sqrt] is a parameter of the development.
    - a scipy sparse matrix of shape (m, n) is a matrix ['M[R]_(m, n)] in
      which the entry [0] stands for "not stored": ratings are non-zero,
      and [nonzero()] filters stored zeros out anyway.
    - Python exceptions are the values of [exn]; a function that can raise
      returns a [result].
    - numpy's global random generator is an abstract state [rng] threaded
      through the code that draws from it. *)

From HB Require Import structures.
From Stdlib Require Import String Ascii.
From mathcomp Require Import boot order algebra.

Set Implicit Arguments.
Unset Strict Implicit.
Unset Printing Implicit Defensive.

Import Order.Theory GRing.Theory Num.Theory.
Local Open Scope ring_scope.

(** Column and model names are strings. *)
Lemma string_eqP : Equality.axiom String.eqb.
Proof. by move=> x y; apply: (iffP idP) => /String.eqb_eq. Qed.

HB.instance Definition _ := hasDecEq.Build string string_eqP.

(** ** Exceptions and the error monad *)

Inductive exn : Type :=
  | ZeroDivisionError
  | LinAlgError
  | IndexError
  | ValueError
  | KeyError
  | UnboundLocalError.

Inductive result (A : Type) : Type :=
  | Ok (a : A)
  | Raise (e : exn).

Arguments Ok {A} a.
Arguments Raise {A} e.

Definition rbind (A B : Type) (c : result A) (k : A -> result B) : result B :=
  match c with
  | Ok a => k a
  | Raise e => Raise e
  end.

Notation "x <- c ;; k" := (rbind c (fun x => k))
  (at level 100, c at next level, right associativity).

(** A Python [for] loop whose body may raise. *)
Fixpoint foldM (A B : Type) (f : B -> A -> result B) (acc : B) (s : seq A)
  : result B :=
  match s with
  | [::] => Ok acc
  | x :: s' => acc' <- f acc x ;; foldM f acc' s'
  end.

Definition is_ok (A : Type) (c : result A) : bool :=
  if c is Ok _ then true else false.

(** ** itertools.groupby and group_by *)

Section GroupBy.

Variables (T : Type) (k : nat) (key : T -> 'I_k).

(** [itertools.groupby]: the maximal runs of consecutive elements that
    share a key, each with its key. *)
Fixpoint groupby (s : seq T) : seq ('I_k * seq T) :=
  match s with
  | [::] => [::]
  | x :: s' =>
      match groupby s' with
      | (k0, g) :: gs =>
          if key x == k0 then (k0, x :: g) :: gs
          else (key x, [:: x]) :: (k0, g) :: gs
      | [::] => [:: (key x, [:: x])]
      end
  end.

Definition key_le : rel T := fun x y => (key x <= key y)%N.

(** [group_by(data, index)]: [sorted] is stable, as is [sort]. *)
Definition group_by (data : seq T) : seq ('I_k * seq T) :=
  groupby (sort key_le data).

End GroupBy.

Section GroupInvariants.

Variables (T : eqType) (k : nat) (key : T -> 'I_k).

(** A group of [groupby] is not empty and its elements carry its key. *)
Definition group_ok (g : 'I_k * seq T) : bool :=
  (g.2 != [::]) && all (fun x => key x == g.1) g.2.

(** The keys of the groups of a sorted list increase. *)
Definition ord_lt : rel 'I_k := fun a b => (a < b)%N.

End GroupInvariants.

Arguments ord_lt {k}.

(** ** The ALS solver *)

Section ALS.

Variable R : realFieldType.

(** [np.sqrt] *)
Variable np_sqrt : R -> R.

(** [np.linalg.solve(A, V)]: the solution of [A z = V]; raises
    [LinAlgError] when [A] is singular. *)
Definition linalg_solve (n : nat) (A : 'M[R]_n) (V : 'cV[R]_n)
  : result 'cV[R]_n :=
  if A \in unitmx then Ok (invmx A *m V) else Raise LinAlgError.

Section Sparse.

Variables m n : nat.

(** [A.nonzero()], zipped: the coordinates of the non-zero entries, in
    row-major order. *)
Definition nonzero (A : 'M[R]_(m, n)) : seq ('I_m * 'I_n) :=
  [seq p <- allpairs pair (enum 'I_m) (enum 'I_n) | A p.1 p.2 != 0].

(** [A.getnnz(axis=0)] and [A.getnnz(axis=1)] *)
Definition getnnz_axis0 (A : 'M[R]_(m, n)) (j : 'I_n) : nat :=
  count (fun i => A i j != 0) (enum 'I_m).

Definition getnnz_axis1 (A : 'M[R]_(m, n)) (i : 'I_m) : nat :=
  count (fun j => A i j != 0) (enum 'I_n).

(** [A[:, j].nonzero()[0]]: the rows of the non-zero entries of column
    [j]; [set(A.nonzero()[1])]: the columns that have one. *)
Definition column_nonzero (A : 'M[R]_(m, n)) (j : 'I_n) : seq 'I_m :=
  [seq i <- enum 'I_m | A i j != 0].

Definition nonzero_columns (A : 'M[R]_(m, n)) : seq 'I_n :=
  undup [seq p.2 | p <- nonzero A].

(** [dst[rows, j] = src[rows, j]] *)
Definition assign_col (dst src : 'M[R]_(m, n)) (rows : seq 'I_m) (j0 : 'I_n)
  : 'M[R]_(m, n) :=
  \matrix_(i, j) if (j == j0) && (i \in rows) then src i j else dst i j.

(** [A.nnz] *)
Definition nnz (A : 'M[R]_(m, n)) : nat := size (nonzero A).

(** [build_index_groups]: the observed pairs, for each row with an
    observation its columns, for each column with one its rows. *)
Definition nz_row_colindices (A : 'M[R]_(m, n)) : seq ('I_m * seq 'I_n) :=
  [seq (g.1, [seq v.2 | v <- g.2])
  | g <- group_by (fun p : 'I_m * 'I_n => p.1) (nonzero A)].

Definition nz_col_rowindices (A : 'M[R]_(m, n)) : seq ('I_n * seq 'I_m) :=
  [seq (g.1, [seq v.1 | v <- g.2])
  | g <- group_by (fun p : 'I_m * 'I_n => p.2) (nonzero A)].

Definition build_index_groups (A : 'M[R]_(m, n)) :=
  (nonzero A, nz_row_colindices A, nz_col_rowindices A).

End Sparse.

(** [A[:, idx]] for an index array [idx]. *)
Definition take_cols (F k : nat) (A : 'M[R]_(F, k)) (idx : seq 'I_k)
  : 'M[R]_(F, size idx) :=
  \matrix_(i, j) A i (tnth (in_tuple idx) j).

(** [A[:, j] = z] *)
Definition set_col (F k : nat) (A : 'M[R]_(F, k)) (j0 : 'I_k) (z : 'cV[R]_F)
  : 'M[R]_(F, k) :=
  \matrix_(i, j) if j == j0 then z i ord0 else A i j.

Section Updates.

(** [train] has one row per user and one column per movie. *)
Variables num_users num_movies num_features : nat.

Notation ratings := 'M[R]_(num_users, num_movies).
Notation user_mx := 'M[R]_(num_features, num_users).
Notation movie_mx := 'M[R]_(num_features, num_movies).

Variable train : ratings.

(** The body of the loop of [update_movie_feature] up to the solve. *)
Definition movie_system (user_features : user_mx) (lambda_movie : R)
    (nnz_users_per_movie : 'I_num_movies -> nat)
    (movie : 'I_num_movies) (user : seq 'I_num_users)
  : 'M[R]_num_features * 'cV[R]_num_features :=
  let lambda_I := lambda_movie *: (1%:M : 'M[R]_num_features) in
  let M := take_cols user_features user in
  let V := M *m (\col_j train (tnth (in_tuple user) j) movie) in
  let A := M *m M^T + (nnz_users_per_movie movie)%:R *: lambda_I in
  (A, V).

Definition update_movie_feature (user_features : user_mx) (lambda_movie : R)
    (nnz_users_per_movie : 'I_num_movies -> nat)
    (nz_movie_userindices : seq ('I_num_movies * seq 'I_num_users))
  : result movie_mx :=
  foldM (fun updated_movie_features (g : 'I_num_movies * seq 'I_num_users) =>
           let: (movie, user) := g in
           let: (A, V) :=
             movie_system user_features lambda_movie nnz_users_per_movie
                          movie user in
           Z_star <- linalg_solve A V ;;
           Ok (set_col updated_movie_features movie Z_star))
        (0 : movie_mx) nz_movie_userindices.

(** The body of the loop of [update_user_feature] up to the solve. *)
Definition user_system (movie_features : movie_mx) (lambda_user : R)
    (nnz_movies_per_user : 'I_num_users -> nat)
    (user : 'I_num_users) (movie : seq 'I_num_movies)
  : 'M[R]_num_features * 'cV[R]_num_features :=
  let lambda_I := lambda_user *: (1%:M : 'M[R]_num_features) in
  let M := take_cols movie_features movie in
  let V := M *m (\row_j train user (tnth (in_tuple movie) j))^T in
  let A := M *m M^T + (nnz_movies_per_user user)%:R *: lambda_I in
  (A, V).

Definition update_user_feature (movie_features : movie_mx) (lambda_user : R)
    (nnz_movies_per_user : 'I_num_users -> nat)
    (nz_user_movieindices : seq ('I_num_users * seq 'I_num_movies))
  : result user_mx :=
  foldM (fun updated_user_features (g : 'I_num_users * seq 'I_num_movies) =>
           let: (user, movie) := g in
           let: (A, V) :=
             user_system movie_features lambda_user nnz_movies_per_user
                         user movie in
           W_star <- linalg_solve A V ;;
           Ok (set_col updated_user_features user W_star))
        (0 : user_mx) nz_user_movieindices.

(** [compute_error] *)
Definition compute_error (data : ratings) (movie_features : movie_mx)
    (user_features : user_mx) (nz : seq ('I_num_users * 'I_num_movies))
  : result R :=
  let mse :=
    foldl (fun mse (p : 'I_num_users * 'I_num_movies) =>
             let: (row, col') := p in
             let movie := col col' movie_features in
             let user := col row user_features in
             mse + (data row col' - (movie^T *m user) ord0 ord0) ^+ 2)
          0 nz in
  if size nz == 0%N then Raise ZeroDivisionError
  else Ok (np_sqrt (1 * mse / (size nz)%:R)).

(** [init_MF]: two draws of [np.random.rand], scaled by [weight]. *)
Variable rng : Type.
Variable np_random_rand : forall m n : nat, rng -> 'M[R]_(m, n) * rng.

Definition init_MF (weight : R) (s : rng) : (movie_mx * user_mx) * rng :=
  let: (r1, s1) := np_random_rand num_features num_movies s in
  let: (r2, s2) := np_random_rand num_features num_users s1 in
  ((weight *: r1, weight *: r2), s2).

(** The variables of [ALS] that change in its loop. *)
Record als_state : Type := AlsState {
  movie_features : movie_mx;
  user_features : user_mx;
  error_list : seq R;
  it : nat;
  train_rmse : R
}.

Definition stop_criterion : R := 100000%:R^-1.

(** [l[-k]] for a list of floats that is long enough. *)
Definition py_last (l : seq R) (k : nat) : R := nth 0 l (size l - k).

Definition change (st : als_state) : R :=
  `|py_last (error_list st) 1 - py_last (error_list st) 2|.

Section Loop.

Variables lambda_movie lambda_user : R.

(** One pass through the body of the [while] loop, up to the test of
    [change]. The pairs, counts and groups of [train] are those that [ALS]
    computes once before the loop; they depend on [train] only. *)
Definition ALS_body (st : als_state) : result als_state :=
  let nz_train := nonzero train in
  let nnz_users_per_movie := getnnz_axis0 train in
  let nnz_movies_per_user := getnnz_axis1 train in
  let: (_, nz_user_movieindices, nz_movie_userindices) :=
    build_index_groups train in
  movie_features' <-
    update_movie_feature (user_features st) lambda_movie
      nnz_users_per_movie nz_movie_userindices ;;
  user_features' <-
    update_user_feature movie_features' lambda_user
      nnz_movies_per_user nz_user_movieindices ;;
  train_rmse' <- compute_error train movie_features' user_features' nz_train ;;
  Ok (AlsState movie_features' user_features'
        (rcons (error_list st) train_rmse') (it st) train_rmse').

(** [it += 1] *)
Definition next_it (st : als_state) : als_state :=
  AlsState (movie_features st) (user_features st) (error_list st)
    (it st).+1 (train_rmse st).

(** [while (it < iterations)], with [fuel = iterations - it]. *)
Fixpoint ALS_while (fuel : nat) (st : als_state) : result als_state :=
  match fuel with
  | 0%N => Ok st
  | fuel'.+1 =>
      st1 <- ALS_body st ;;
      if change st1 < stop_criterion then Ok st1
      else ALS_while fuel' (next_it st1)
  end.

Definition ALS_init (max_weight : R) (s : rng) : als_state * rng :=
  let: ((movie_features0, user_features0), s') := init_MF max_weight s in
  (AlsState movie_features0 user_features0 [:: 0; 0] 0 0, s').

Definition ALS (max_weight : R) (iterations : nat) (s : rng)
  : result ((user_mx * movie_mx) * rng) :=
  let: (st0, s') := ALS_init max_weight s in
  st <- ALS_while iterations st0 ;;
  Ok ((user_features st, movie_features st), s').

(** The state after [r] full passes through the loop body, none of them
    leaving the loop: the reference against which [ALS] is compared. *)
Fixpoint ALS_rounds (r : nat) (st : als_state) : result als_state :=
  match r with
  | 0%N => Ok st
  | r'.+1 => st1 <- ALS_body st ;; ALS_rounds r' (next_it st1)
  end.

End Loop.

(** The users who rated a movie, the movies a user rated. *)
Definition raters (movie : 'I_num_movies) : seq 'I_num_users :=
  [seq u <- enum 'I_num_users | train u movie != 0].

Definition rated_by (user : 'I_num_users) : seq 'I_num_movies :=
  [seq j <- enum 'I_num_movies | train user j != 0].

End Updates.

(** [z] is the solution of the regularised normal equation
    [(U U^T + reg I) z = U r]. *)
Definition normal_equation (F k : nat) (U : 'M[R]_(F, k)) (r : 'cV[R]_k)
    (reg : R) (z : 'cV[R]_F) : Prop :=
  (U *m U^T + reg *: 1%:M) *m z = U *m r /\
  forall z' : 'cV[R]_F, (U *m U^T + reg *: 1%:M) *m z' = U *m r -> z' = z.

End ALS.

Arguments stop_criterion {R}.

Section SplitInvariant.

Variable R : realFieldType.
Variables nr nc : nat.

(** What the split loops maintain: the two parts are disjoint, they hold
    entries of [A] only, and the columns still to come are empty. *)
Definition split_inv (A : 'M[R]_(nr, nc))
    (tt : 'M[R]_(nr, nc) * 'M[R]_(nr, nc)) (remaining : seq 'I_nc) : Prop :=
  uniq remaining /\
  forall i j,
    [/\ tt.1 i j != 0 -> A i j != 0,
        tt.2 i j != 0 -> A i j != 0,
        ~~ ((tt.1 i j != 0) && (tt.2 i j != 0))
      & j \in remaining -> tt.1 i j = 0 /\ tt.2 i j = 0].

End SplitInvariant.

(** ** Random draws *)

Section Random.

Variable rng : Type.

(** A computation that draws from the generator and may raise. *)
Definition rand (A : Type) : Type := rng -> result (A * rng).

Definition rret (A : Type) (a : A) : rand A := fun s => Ok (a, s).

Definition rand_bind (A B : Type) (c : rand A) (k : A -> rand B) : rand B :=
  fun s => match c s with
           | Ok (a, s') => k a s'
           | Raise e => Raise e
           end.

Definition rlift (A : Type) (c : result A) : rand A :=
  fun s => match c with
           | Ok a => Ok (a, s)
           | Raise e => Raise e
           end.

Fixpoint foldR (A B : Type) (f : B -> A -> rand B) (acc : B) (l : seq A)
  : rand B :=
  match l with
  | [::] => rret acc
  | x :: l' => rand_bind (f acc x) (fun acc' => foldR f acc' l')
  end.

(** One draw of an index below [n.+1]. *)
Variable randint : forall n : nat, rng -> 'I_n.+1 * rng.

(** [k] draws with replacement from the non-empty array [x :: a]. *)
Fixpoint draws (T : Type) (x : T) (a : seq T) (k : nat) (s : rng)
  : seq T * rng :=
  match k with
  | 0%N => ([::], s)
  | k'.+1 =>
      let: (i, s1) := randint (size a) s in
      let: (r, s2) := draws x a k' s1 in
      (nth x (x :: a) i :: r, s2)
  end.

(** [np.random.choice(a, size)]: a negative size is refused, and so is a
    draw from an empty array. *)
Definition np_random_choice (T : Type) (a : seq T) (size : int)
  : rand (seq T) :=
  fun s =>
    match size with
    | Negz _ => Raise ValueError
    | Posz k =>
        match a with
        | [::] => if k == 0%N then Ok ([::], s) else Raise ValueError
        | x :: a' => Ok (draws x a' k s)
        end
    end.

End Random.

Notation "x <~ c ;; k" := (rand_bind c (fun x => k))
  (at level 100, c at next level, right associativity).

(** ** Splitting the ratings *)

Section Split.

Variable R : archiRealFieldType.
Variable rng : Type.
Variable randint : forall n : nat, rng -> 'I_n.+1 * rng.

(** [int(x)] truncates towards zero. *)
Definition py_int (x : R) : int :=
  if 0 <= x then Num.floor x else Num.ceil x.

Section SplitData.

Variables num_rows0 num_cols0 : nat.
Variable ratings : 'M[R]_(num_rows0, num_cols0).
Variable num_users_per_movie : 'I_num_cols0 -> nat.
Variable num_movies_per_user : 'I_num_rows0 -> nat.
Variable min_num_ratings : nat.

(** [np.where(counts >= min_num_ratings)[0]] *)
Definition valid_movies : seq 'I_num_cols0 :=
  [seq j <- enum 'I_num_cols0 | (min_num_ratings <= num_users_per_movie j)%N].

Definition valid_users : seq 'I_num_rows0 :=
  [seq i <- enum 'I_num_rows0 | (min_num_ratings <= num_movies_per_user i)%N].

(** [ratings[valid_users, :][:, valid_movies]] *)
Definition valid_ratings : 'M[R]_(size valid_users, size valid_movies) :=
  \matrix_(i, j) ratings (tnth (in_tuple valid_users) i)
                         (tnth (in_tuple valid_movies) j).

Definition split_data (p_test : R)
  : rand rng ('M[R]_(size valid_users, size valid_movies) *
              'M[R]_(size valid_users, size valid_movies) *
              'M[R]_(size valid_users, size valid_movies)) :=
  tt <~ foldR
          (fun (tt : 'M[R]_(size valid_users, size valid_movies) *
                     'M[R]_(size valid_users, size valid_movies)) movie =>
             let: (train, test) := tt in
             let row := column_nonzero valid_ratings movie in
             selects <~ np_random_choice randint row
                          (py_int ((size row)%:R * p_test)) ;;
             let residual := [seq i <- row | i \notin selects] in
             let train' := assign_col train valid_ratings residual movie in
             let test' :=
               if 0 < p_test then assign_col test valid_ratings selects movie
               else test in
             rret (train', test'))
          (0, 0) (nonzero_columns valid_ratings) ;;
  rret (valid_ratings, tt.1, tt.2).

End SplitData.

(** [split_for_cv] *)
Definition split_for_cv (num_rows num_cols : nat)
    (train : 'M[R]_(num_rows, num_cols)) (p_test : R) (k_fold : nat)
  : rand rng (seq 'M[R]_(num_rows, num_cols) * seq 'M[R]_(num_rows, num_cols)) :=
  foldR
    (fun (lists : seq 'M[R]_(num_rows, num_cols) *
                  seq 'M[R]_(num_rows, num_cols)) (k : nat) =>
       let: (train_tr_list, test_tr_list) := lists in
       tt <~ foldR
               (fun (tt : 'M[R]_(num_rows, num_cols) *
                          'M[R]_(num_rows, num_cols)) movie =>
                  let: (train_tr, test_tr) := tt in
                  let row := column_nonzero train movie in
                  selects <~ np_random_choice randint row
                               (py_int ((size row)%:R * p_test)) ;;
                  let residual := [seq i <- row | i \notin selects] in
                  rret (assign_col train_tr train residual movie,
                        assign_col test_tr train selects movie))
               (0, 0) (nonzero_columns train) ;;
       rret (rcons train_tr_list tt.1, rcons test_tr_list tt.2))
    ([::], [::]) (iota 0 k_fold).

End Split.

(** ** Random-search cross-validation *)

Section CrossValidation.

Variable R : archiRealFieldType.
Variable np_sqrt : R -> R.
Variable rng : Type.
Variable randint : forall n : nat, rng -> 'I_n.+1 * rng.
Variable np_random_rand : forall m n : nat, rng -> 'M[R]_(m, n) * rng.

(** [np.linspace(start, stop, num)] *)
Definition linspace (start stop : R) (num : nat) : seq R :=
  [seq start + i%:R * ((stop - start) / (num.-1)%:R) | i <- iota 0 num].

Definition movies_range : seq R := linspace 100%:R^-1 1 100.
Definition user_range : seq R := linspace 100%:R^-1 1 100.
Definition features_num_range : seq nat :=
  [seq absz (py_int x) | x <- linspace 1 60%:R 60].
Definition weight_range : seq R := linspace 1 3%:R 60.

(** [np.mean] of a list *)
Definition np_mean (l : seq R) : R := (\sum_(x <- l) x) / (size l)%:R.

(** The [best_*] variables of [cv_ALS_random_search], with the variable
    [bset_lambda_user] that the loop assigns and the function returns;
    it is unbound until the first assignment. *)
Record cv_state : Type := CvState {
  best_weight : R;
  best_lambda_user : R;
  best_lambda_movie : R;
  best_num_feature : int;
  best_rmse : R;
  bset_lambda_user : option R
}.

Definition cv_init : cv_state :=
  CvState (-1) (-1) (-1) (-1) 100%:R None.

(** One sampled candidate: (num_features, weight, lambda_movie,
    lambda_user). *)
Definition candidate : Type := (nat * R * R * R)%type.

(** The state that a candidate leaves when it improves on the best RMSE. *)
Definition improved (best : cv_state) (c : candidate) (test_rmse : R)
  : cv_state :=
  CvState c.1.1.2 (best_lambda_user best) c.1.2 (Posz c.1.1.1) test_rmse
    (Some c.2).

(** What the loop over the candidates maintains. *)
Definition cv_inv (cs : seq candidate) (best : cv_state) : Prop :=
  best_lambda_user best = -1 /\
  (best_rmse best <= 100%:R) /\
  match bset_lambda_user best with
  | None => best = cv_init
  | Some bset =>
      best_rmse best < 100%:R /\
      exists2 c, c \in cs &
        [/\ best_num_feature best = Posz c.1.1.1, best_weight best = c.1.1.2,
            best_lambda_movie best = c.1.2 & bset = c.2]
  end.

(** A candidate is usable when both its regularisers are positive. *)
Definition usable (c : candidate) : Prop := 0 < c.1.2 /\ 0 < c.2.

Section Search.

Variables num_rows num_cols : nat.
Notation ratings := 'M[R]_(num_rows, num_cols).

(** The body of the loop over the folds: train on [train_tr], score on
    [test_tr]. *)
Definition cv_fold (c : candidate) (fold : ratings * ratings) : rand rng R :=
  let: (num_features, weight, lambda_movie, lambda_user) := c in
  let: (train_tr, test_tr) := fold in
  fs <~ ALS np_sqrt num_features train_tr np_random_rand
          lambda_movie lambda_user weight 50 ;;
  let: (user_features, movie_features) := fs in
  let nz_test := nonzero test_tr in
  rlift (compute_error np_sqrt test_tr movie_features user_features nz_test).

(** The loop over the folds. *)
Definition cv_rmse_list (c : candidate) (folds : seq (ratings * ratings))
  : rand rng (seq R) :=
  foldR (fun rmse_list fold =>
           test_tr_rmse <~ cv_fold c fold ;;
           rret (rcons rmse_list test_tr_rmse))
        [::] folds.

(** The body of the loop over the candidates. *)
Definition cv_candidate (train_tr_list test_tr_list : seq ratings)
    (best : cv_state) (c : candidate) : rand rng cv_state :=
  let: (num_features, weight, lambda_movie, lambda_user) := c in
  rmse_list <~ cv_rmse_list c (zip train_tr_list test_tr_list) ;;
  let test_rmse := np_mean rmse_list in
  if test_rmse < best_rmse best then
    rret (CvState weight (best_lambda_user best) lambda_movie
            (Posz num_features) test_rmse (Some lambda_user))
  else rret best.

(** The loop over the candidates. *)
Definition cv_loop (train_tr_list test_tr_list : seq ratings)
    (best : cv_state) (cs : seq candidate) : rand rng cv_state :=
  foldR (cv_candidate train_tr_list test_tr_list) best cs.

(** The final [print] and the [return] read [bset_lambda_user]. *)
Definition cv_return (best : cv_state) : rand rng (int * R * R * R) :=
  match bset_lambda_user best with
  | None => fun _ => Raise UnboundLocalError
  | Some bset => rret (best_num_feature best, best_weight best,
                       best_lambda_movie best, bset)
  end.

Definition zip4 (A B C D : Type) (a : seq A) (b : seq B) (c : seq C)
    (d : seq D) : seq (A * B * C * D) :=
  zip (zip (zip a b) c) d.

Definition cv_ALS_random_search (train : ratings)
  : rand rng (int * R * R * R) :=
  lambda_movies <~ np_random_choice randint movies_range 60 ;;
  lambda_users <~ np_random_choice randint user_range 60 ;;
  nb_features <~ np_random_choice randint features_num_range 60 ;;
  weights <~ np_random_choice randint weight_range 60 ;;
  lists <~ split_for_cv randint train 5%:R^-1 5 ;;
  let: (train_tr_list, test_tr_list) := lists in
  best <~ cv_loop train_tr_list test_tr_list cv_init
            (zip4 nb_features weights lambda_movies lambda_users) ;;
  cv_return best.

(** A fold is usable when both its parts hold a rating. *)
Definition fold_ok (fold : ratings * ratings) : bool :=
  (nonzero fold.1 != [::]) && (nonzero fold.2 != [::]).

End Search.

(** The draws of the four hyper-parameter arrays and the candidates zipped
    from them. *)
Definition sampled (s : rng) (cs : seq candidate) (s4 : rng) : Prop :=
  exists lambda_movies lambda_users nb_features weights s1 s2 s3,
    [/\ np_random_choice randint movies_range 60 s = Ok (lambda_movies, s1),
        np_random_choice randint user_range 60 s1 = Ok (lambda_users, s2),
        np_random_choice randint features_num_range 60 s2
          = Ok (nb_features, s3),
        np_random_choice randint weight_range 60 s3 = Ok (weights, s4)
      & cs = zip4 nb_features weights lambda_movies lambda_users].

End CrossValidation.

Arguments movies_range {R}.
Arguments user_range {R}.
Arguments weight_range {R}.
Arguments cv_init {R}.

(** ** Loading the ratings *)

(** An index is accepted by an axis of length [len] when it lies in
    [-len, len). *)
Definition index_ok (len : nat) (i : int) : bool :=
  (- (Posz len) <= i) && (i < Posz len).

Section Preprocess.

Variable R : realFieldType.

(** A [lil_matrix]: its shape and its entries. *)
Record lil_matrix : Type := LilMatrix {
  shape : nat * nat;
  lil_get : nat -> nat -> R
}.

(** [sp.lil_matrix((M, N))] refuses negative dimensions. *)
Definition lil_new (M N : int) : result lil_matrix :=
  match M, N with
  | Posz m, Posz n => Ok (LilMatrix (m, n) (fun _ _ => 0))
  | _, _ => Raise ValueError
  end.

(** An integer index into an axis of length [len]: a negative index counts
    from the end, an index outside [-len, len) is refused. *)
Definition py_index (len : nat) (i : int) : result nat :=
  if (- (Posz len) <= i) && (i < Posz len) then
    Ok (absz (if i < 0 then i + Posz len else i))
  else Raise IndexError.

(** [A[i, j] = x] *)
Definition lil_setitem (A : lil_matrix) (i j : int) (x : R)
  : result lil_matrix :=
  i' <- py_index (shape A).1 i ;;
  j' <- py_index (shape A).2 j ;;
  Ok (LilMatrix (shape A)
        (fun r c => if (r == i') && (c == j') then x else lil_get A r c)).

(** A parsed line: (row, col, rating), as [deal_line] returns it. *)
Definition record : Type := (int * int * R)%type.

(** [min] and [max] of a collection; both refuse an empty one. *)
Definition py_min (l : seq int) : result int :=
  if l is x :: l' then Ok (foldl Order.min x l') else Raise ValueError.

Definition py_max (l : seq int) : result int :=
  if l is x :: l' then Ok (foldl Order.max x l') else Raise ValueError.

Definition statistics (data : seq record) : result (int * int * int * int) :=
  let row := [seq line.1.1 | line <- data] in
  let col := [seq line.1.2 | line <- data] in
  min_row <- py_min row ;;
  max_row <- py_max row ;;
  min_col <- py_min col ;;
  max_col <- py_max col ;;
  Ok (min_row, max_row, min_col, max_col).

(** [preprocess_data], from the parsed lines on. *)
Definition preprocess_data (data : seq record) : result lil_matrix :=
  st <- statistics data ;;
  let: (min_row, max_row, min_col, max_col) := st in
  ratings <- lil_new max_row max_col ;;
  foldM (fun ratings (line : record) =>
           let: (row, col, rating) := line in
           lil_setitem ratings (row - 1) (col - 1) rating)
        ratings data.

End Preprocess.

(** ** Blending *)

Section Stack.

Variable R : realFieldType.

(** A [DataFrame] with [n] rows: its columns, in order, by name. *)
Definition DataFrame (n : nat) : Type := seq (string * 'cV[R]_n).

Section Frame.

Variable n : nat.

(** [df[name]] *)
Fixpoint df_get (df : DataFrame n) (name : string) : result 'cV[R]_n :=
  match df with
  | [::] => Raise KeyError
  | (k, c) :: df' => if k == name then Ok c else df_get df' name
  end.

(** The column of a name, the zero column when there is none. *)
Definition df_col (df : DataFrame n) (name : string) : 'cV[R]_n :=
  if df_get df name is Ok c then c else 0.

(** [df[[name1; ...]]] *)
Fixpoint df_select (df : DataFrame n) (names : seq string)
  : result (DataFrame n) :=
  match names with
  | [::] => Ok [::]
  | name :: names' =>
      c <- df_get df name ;;
      rest <- df_select df names' ;;
      Ok ((name, c) :: rest)
  end.

(** [df[name] = c] *)
Fixpoint df_set (df : DataFrame n) (name : string) (c : 'cV[R]_n)
  : DataFrame n :=
  match df with
  | [::] => [:: (name, c)]
  | (k, c') :: df' =>
      if k == name then (k, c) :: df' else (k, c') :: df_set df' name c
  end.

(** [weights[idx]] *)
Definition py_getitem (weights : seq R) (idx : nat) : result R :=
  if (idx < size weights)%N then Ok (nth 0 weights idx) else Raise IndexError.

(** The catalogue of models: families by name, each a dictionary of models
    by name; both keep insertion order. *)
Variable model : Type.
Definition catalogue : Type := seq (string * seq (string * model)).

(** The names of the catalogue, in the order in which [stack] meets them. *)
Definition catalogue_names (models : catalogue) : seq string :=
  flatten [seq [seq m.1 | m <- fam.2] | fam <- models].

Definition stack (weights : seq R) (predictions : DataFrame n)
    (models : catalogue) : result (DataFrame n) :=
  st <- foldM (fun st (fam : string * seq (string * model)) =>
                 foldM (fun (st : 'cV[R]_n * nat) (m : string * model) =>
                          let: (stacked, idx) := st in
                          let name := m.1 in
                          weight <- py_getitem weights idx ;;
                          c <- df_get predictions name ;;
                          Ok (stacked + weight *: c, idx.+1))
                       st fam.2)
              (0, 0%N) models ;;
  pred <- df_select predictions [:: "User"; "Movie"]%string ;;
  Ok (df_set pred "Rating"%string st.1).

(** [compute_rmse] of the helpers module and [pd.merge] are parameters. *)
Variables ground_truth_t truth_t : Type.
Variable pd_merge_inner : DataFrame n -> ground_truth_t -> truth_t.
Variable compute_rmse : DataFrame n -> truth_t -> R.

Definition evaluate_stacking (weights : seq R) (models : catalogue)
    (predictions : DataFrame n) (ground_truth : ground_truth_t) : result R :=
  user_movie <- df_select predictions [:: "User"; "Movie"]%string ;;
  let truth := pd_merge_inner user_movie ground_truth in
  pred <- stack weights predictions models ;;
  Ok (compute_rmse pred truth).

(** The call of [scipy.optimize.minimize]: what [optimize] passes. *)
Inductive minimize_method : Type := SLSQP | BFGS | NelderMead.

Record minimize_call : Type := MinimizeCall {
  objective : seq R -> result R;
  x0 : seq R;
  method : minimize_method;
  bounds : option (seq (R * R));
  constraints : seq (seq R -> R);
  maxiter : nat;
  disp : bool
}.

Variable OptimizeResult : Type.
Variable sco_minimize : minimize_call -> OptimizeResult.



End Frame.

End Stack.

(** ** Counting the ratings *)

Section Counts.

Variable R : realFieldType.
Variables m n : nat.

(** [get_number_per]: [(ratings != 0).sum(axis=0)] counts the non-zero
    entries of each column, [(ratings != 0).sum(axis=1)] those of each
    row. *)
Definition get_number_per (ratings : 'M[R]_(m, n))
  : ('I_n -> nat) * ('I_m -> nat) :=
  let num_users_per_movie := fun j => (\sum_(i < m) (ratings i j != 0%R))%N in
  let num_movies_per_user := fun i => (\sum_(j < n) (ratings i j != 0%R))%N in
  (num_users_per_movie, num_movies_per_user).

End Counts.

Section SplitExact.

Variable R : realFieldType.
Variables nr nc : nat.

(** What the split loops achieve column by column: a column still to come
    is empty in both parts; in a column that is done every entry of [A] is
    in exactly one part, and the test part holds at most [quota] of them,
    at least one when the quota is positive. *)
Definition split_exact (A : 'M[R]_(nr, nc)) (quota : 'I_nc -> nat)
    (tt : 'M[R]_(nr, nc) * 'M[R]_(nr, nc)) (remaining : seq 'I_nc) : Prop :=
  uniq remaining /\
  forall j,
    if j \in remaining then forall i, tt.1 i j = 0 /\ tt.2 i j = 0
    else [/\ forall i, tt.1 i j = A i j /\ tt.2 i j = 0 \/
                       tt.1 i j = 0 /\ tt.2 i j = A i j,
             (getnnz_axis0 tt.2 j <= quota j)%N
           & (0 < quota j)%N -> (0 < getnnz_axis0 tt.2 j)%N].

End SplitExact.

Section Quota.

Variable R : archiRealFieldType.
Variables nr nc : nat.

(** The number of draws for a column: [int(len(row) * p_test)]. *)
Definition test_quota (A : 'M[R]_(nr, nc)) (p_test : R) (j : 'I_nc) : nat :=
  absz (py_int ((size (column_nonzero A j))%:R * p_test)).

End Quota.

Section Ridge.

Variable R : realFieldType.

(** The loss that one column update minimises: the squared error of the
    factor column [z] on the ratings [r], predicted from the factor
    columns [U] of the other side, plus [reg] times the squared norm of
    [z]. *)
Definition ridge_loss (F k : nat) (U : 'M[R]_(F, k)) (r : 'cV[R]_k)
    (reg : R) (z : 'cV[R]_F) : R :=
  ((r - U^T *m z)^T *m (r - U^T *m z)) ord0 ord0
  + reg * (z^T *m z) ord0 ord0.

End Ridge.

Section Scores.

Variable R : archiRealFieldType.
Variable np_sqrt : R -> R.
Variable rng : Type.
Variable np_random_rand : forall m n : nat, rng -> 'M[R]_(m, n) * rng.
Variables num_rows num_cols : nat.
Notation ratings := 'M[R]_(num_rows, num_cols).

(** The values that [test_rmse] takes in the loop over the candidates of
    [cv_ALS_random_search], in the order of the loop: the mean over the
    folds of the RMSE of each candidate. *)
Definition cv_scores (train_tr_list test_tr_list : seq ratings)
    (cs : seq (candidate R)) : rand rng (seq R) :=
  foldR (fun scores c =>
           rmse_list <~ cv_rmse_list np_sqrt np_random_rand c
                          (zip train_tr_list test_tr_list) ;;
           rret (rcons scores (np_mean rmse_list)))
        [::] cs.

End Scores.

(** ** Reading the ratings *)

(** The position that an index accepted by an axis of length [len]
    denotes: a negative index counts from the end. *)
Definition py_position (len : nat) (i : int) : nat :=
  absz (if i < 0 then i + Posz len else i).

(** [s.split(sep)] for a separator of one character: the pieces between
    the occurrences of [sep], at least one piece. *)
Fixpoint str_split (sep : ascii) (s : string) : seq string :=
  match s with
  | EmptyString => [:: EmptyString]
  | String c s' =>
      if Ascii.eqb c sep then EmptyString :: str_split sep s'
      else match str_split sep s' with
           | h :: t => String c h :: t
           | [::] => [:: String c EmptyString]
           end
  end.

(** [s.replace(ch, "")] for one character [ch] *)
Fixpoint str_remove (ch : ascii) (s : string) : string :=
  match s with
  | EmptyString => EmptyString
  | String c s' =>
      if Ascii.eqb c ch then str_remove ch s' else String c (str_remove ch s')
  end.

(** [ch in s] *)
Fixpoint str_has (ch : ascii) (s : string) : bool :=
  match s with
  | EmptyString => false
  | String c s' => Ascii.eqb c ch || str_has ch s'
  end.

(** A list comprehension whose expression may raise. *)
Fixpoint mapM (A B : Type) (f : A -> result B) (s : seq A) : result (seq B) :=
  match s with
  | [::] => Ok [::]
  | x :: s' => y <- f x ;; ys <- mapM f s' ;; Ok (y :: ys)
  end.

Section Load.

Variable R : realFieldType.

(** [int(s)] and [float(s)] of a string: the number that the string
    denotes; both raise [ValueError] on a string that denotes none. *)
Variable py_int_of_str : string -> option int.
Variable py_float_of_str : string -> option R.

Definition py_parse (A : Type) (parse : string -> option A) (s : string)
  : result A :=
  if parse s is Some x then Ok x else Raise ValueError.

(** [deal_line]: unpacking a list into two names needs two elements. *)
Definition deal_line (line : string) : result (record R) :=
  match str_split "," line with
  | [:: pos; rating] =>
      match str_split "_" pos with
      | [:: row; col] =>
          let row := str_remove "r" row in
          let col := str_remove "c" col in
          row' <- py_parse py_int_of_str row ;;
          col' <- py_parse py_int_of_str col ;;
          rating' <- py_parse py_float_of_str rating ;;
          Ok (row', col', rating')
      | _ => Raise ValueError
      end
  | _ => Raise ValueError
  end.

(** [preprocess_data] on the lines of text: every line is parsed, then the
    matrix is built. *)
Definition preprocess_text (data : seq string) : result (lil_matrix R) :=
  data' <- mapM deal_line data ;;
  preprocess_data data'.

(** [load_data], from the lines that [read_txt] returns: the first line is
    dropped. *)
Definition load_data (lines : seq string) : result (lil_matrix R) :=
  let data := behead lines in
  preprocess_text data.

(** The start of [als_algo]: the training matrix built from the rows
    (User, Movie, Rating) of [train_df]. Its shape is given by the numbers
    of distinct users and movies; the rating stored for a row is that of
    the first row with the same user and movie. *)
Definition als_algo_train (train_df : seq (record R)) : result (lil_matrix R) :=
  let train_users := [seq l.1.1 | l <- train_df] in
  let train_movies := [seq l.1.2 | l <- train_df] in
  let num_rows := size (undup train_users) in
  let num_cols := size (undup train_movies) in
  train <- lil_new R (Posz num_rows) (Posz num_cols) ;;
  foldM (fun train (p : int * int) =>
           let: (row, col) := p in
           let values :=
             [seq l.2 | l <- train_df & (l.1.1 == row) && (l.1.2 == col)] in
           rating <- (if values is v :: _ then Ok v else Raise IndexError) ;;
           lil_setitem train (row - 1) (col - 1) rating)
        train (zip train_users train_movies).

End Load.

(** ** The best weights *)

Section Dict.

(** A Python [dict] with string keys: its items in insertion order, every
    key once. *)
Variable V : Type.

Definition dict : Type := seq (string * V).

(** [d[key]] *)
Fixpoint dict_get (d : dict) (key : string) : result V :=
  match d with
  | [::] => Raise KeyError
  | (k, v) :: d' => if k == key then Ok v else dict_get d' key
  end.

(** [d[key] = v]: a key that is there keeps its place. *)
Fixpoint dict_set (d : dict) (key : string) (v : V) : dict :=
  match d with
  | [::] => [:: (key, v)]
  | (k, v') :: d' =>
      if k == key then (k, v) :: d' else (k, v') :: dict_set d' key v
  end.

End Dict.

Section BestWeights.

Variable R : realFieldType.
Variable n : nat.
Variable model : Type.
Variables ground_truth_t truth_t : Type.
Variable pd_merge_inner : DataFrame R n -> ground_truth_t -> truth_t.
Variable compute_rmse : DataFrame R n -> truth_t -> R.

(** [get_best_weights], with [x] for [res.x]: the weights are filed under
    the family and the name of their model, in the order of the
    catalogue. *)
Definition get_best_weights (x : seq R) (models : catalogue model)
    (predictions : DataFrame R n) (ground_truth : ground_truth_t)
  : result (dict (dict R) * R) :=
  st <- foldM (fun (st : dict (dict R) * nat)
                   (fam : string * seq (string * model)) =>
                 let: (best_dict, idx) := st in
                 let key := fam.1 in
                 let best_dict := dict_set best_dict key [::] in
                 foldM (fun (st : dict (dict R) * nat) (m : string * model) =>
                          let: (best_dict, idx) := st in
                          let name := m.1 in
                          w <- py_getitem x idx ;;
                          family <- dict_get best_dict key ;;
                          Ok (dict_set best_dict key (dict_set family name w),
                              idx.+1))
                       (best_dict, idx) fam.2)
              ([::], 0%N) models ;;
  rmse <- evaluate_stacking pd_merge_inner compute_rmse x models predictions
            ground_truth ;;
  Ok (st.1, rmse).

(** [predict], from the loaded predictions on, with the catalogue that the
    script keeps in the global [models]. *)
Definition predict (models : catalogue model)
    (weight_dict : dict (dict R)) (predictions : DataFrame R n)
  : result (DataFrame R n) :=
  stacked <- foldM (fun (stacked : 'cV[R]_n)
                        (fam : string * seq (string * model)) =>
                      weights <- dict_get weight_dict fam.1 ;;
                      foldM (fun (stacked : 'cV[R]_n) (m : string * model) =>
                               let name := m.1 in
                               weight <- dict_get weights name ;;
                               c <- df_get predictions name ;;
                               Ok (stacked + weight *: c))
                            stacked fam.2)
                   0 models ;;
  pred <- df_select predictions [:: "User"; "Movie"]%string ;;
  Ok (df_set pred "Rating"%string stacked).

End BestWeights.

Section Filed.

Variable R : realFieldType.
Variable model : Type.

(** What [get_best_weights] leaves in [best_dict] for the families
    [families], the first of which starts at the weight of index [idx]:
    under the key of each family a dictionary that gives, for the [j]-th
    model name of the family, the weight of index [idx + j]. *)
Fixpoint weights_filed (x : seq R) (best_dict : dict (dict R)) (idx : nat)
    (families : catalogue model) : Prop :=
  match families with
  | [::] => True
  | fam :: families' =>
      (exists2 weights, dict_get best_dict fam.1 = Ok weights &
         forall j, (j < size fam.2)%N ->
           dict_get weights (nth ""%string [seq m.1 | m <- fam.2] j)
           = Ok (nth 0 x (idx + j))) /\
      weights_filed x best_dict (idx + size fam.2) families'
  end.

End Filed.

(** ** Running the cross-validation *)

Section Run.

Variable R : archiRealFieldType.
Variable np_sqrt : R -> R.
Variable rng : Type.
Variable randint : forall n : nat, rng -> 'I_n.+1 * rng.
Variable np_random_rand : forall m n : nat, rng -> 'M[R]_(m, n) * rng.

(** [np.random.seed(seed)]: the state in which the generator is put. *)
Variable np_random_seed : nat -> rng.

Variables num_rows0 num_cols0 : nat.

(** [run_cross_validation], from the loaded ratings on; its value is the
    test RMSE that the function prints. A negative number of features is
    refused by [np.random.rand]. *)
Definition run_cross_validation (intest : int) (seed : nat)
    (ratings : 'M[R]_(num_rows0, num_cols0)) : result (R * rng) :=
  let counts := get_number_per ratings in
  (parts <~ split_data randint ratings counts.1 counts.2 0 5%:R^-1 ;;
   let: (valid_ratings, train, test) := parts in
   params <~ (if intest == 1 then rret (20%:Z, 1, 5%:R^-1, 50%:R^-1)
              else cv_ALS_random_search np_sqrt randint np_random_rand train) ;;
   let: (num_features, weight, lambda_movie, lambda_user) := params in
   match num_features with
   | Posz k =>
       fs <~ ALS np_sqrt k train np_random_rand lambda_movie lambda_user
               weight 50 ;;
       let: (user_features, movie_features) := fs in
       let nz_test := nonzero test in
       rlift (compute_error np_sqrt test movie_features user_features nz_test)
   | Negz _ => fun _ => Raise ValueError
   end) (np_random_seed seed).

End Run.

Section Objective.

Variable R : realFieldType.
Variables num_users num_movies num_features : nat.
Variable train : 'M[R]_(num_users, num_movies).

(** The quantity that the two updates of [ALS] work on: the squared error
    of the predictions on the observed ratings, plus for each movie
    [lambda_movie] times the number of its ratings times the squared norm
    of its factor column, plus the same for each user with
    [lambda_user]. *)
Definition als_objective (lambda_movie lambda_user : R)
    (user_features : 'M[R]_(num_features, num_users))
    (movie_features : 'M[R]_(num_features, num_movies)) : R :=
  \sum_(p <- nonzero train)
     (train p.1 p.2 - \sum_f movie_features f p.2 * user_features f p.1) ^+ 2
  + lambda_movie * (\sum_j (getnnz_axis0 train j)%:R
                           * \sum_f movie_features f j ^+ 2)
  + lambda_user * (\sum_i (getnnz_axis1 train i)%:R
                          * \sum_f user_features f i ^+ 2).

End Objective.

(** ** Concrete inputs

    The rationals stand for the floats; they have no square root, and a
    bounded function stands for [np.sqrt]. Every draw returns index 0 and
    [np.random.rand] returns ones. *)

Definition ex_randint (n : nat) (s : unit) : 'I_n.+1 * unit := (ord0, s).

Definition ex_rand (m n : nat) (s : unit) : 'M[rat]_(m, n) * unit :=
  (const_mx 1, s).

Definition ex_sqrt (x : rat) : rat := Order.min x 1.

(** One user who rated the first of two movies, with the state of [ALS]
    before a pass of its loop. *)
Definition ex_train : 'M[rat]_(1, 2) :=
  \matrix_(i, j) if j == ord0 then 5%:R else 0.

Definition ex_unrated : 'I_2 := lift ord0 ord0.

Definition ex_state : als_state rat 1 2 1 :=
  AlsState (const_mx 1) (const_mx 1) [:: 0; 0] 0 0.

(** Two users who rated both movies; five users who rated the one movie;
    one user who did. *)
Definition ex_ratings : 'M[rat]_(2, 2) := const_mx 1.

Definition ex_train5 : 'M[rat]_(5, 1) := const_mx 1.




(** Two parsed lines, the second with row index 0. *)
Definition ex_records : seq (record rat) :=
  [:: (2%:Z, 2%:Z, 3%:R); (0%:Z, 1%:Z, 5%:R)].

(** The predictions of two models for one (user, movie) pair, and their
    catalogue. *)
Definition ex_predictions : DataFrame rat 1 :=
  [:: ("User"%string, const_mx 1); ("Movie"%string, const_mx 1);
      ("als"%string, const_mx 4%:R); ("mfrr"%string, const_mx 3%:R)].

Definition ex_models : catalogue unit :=
  [:: ("als"%string, [:: ("als"%string, tt)]);
      ("mfrr"%string, [:: ("mfrr"%string, tt)])].

(** Three rows (User, Movie, Rating) of a training frame: two users, one
    movie, the first user twice. *)
Definition ex_train_df : seq (record rat) :=
  [:: (1%:Z, 1%:Z, 3%:R); (2%:Z, 1%:Z, 5%:R); (1%:Z, 1%:Z, 4%:R)].

(** * Properties *)

Section GroupByTheory.

Variables (T : eqType) (k : nat) (key : T -> 'I_k).

Notation groupby := (groupby key).
Notation group_by := (group_by key).
Notation key_le := (key_le key).
Notation group_ok := (group_ok key).

Lemma key_le_total : total key_le.
Proof. by move=> x y; rewrite /key_le leq_total. Qed.

Lemma key_le_trans : transitive key_le.
Proof. by move=> y x z; rewrite /key_le; apply: leq_trans. Qed.

Lemma groupby_cons x s :
  groupby (x :: s) =
  if groupby s is (k0, g) :: gs then
    if key x == k0 then (k0, x :: g) :: gs
    else (key x, [:: x]) :: (k0, g) :: gs
  else [:: (key x, [:: x])].
Proof. by []. Qed.

Lemma groupby_flatten s : flatten [seq g.2 | g <- groupby s] = s.
Proof.
elim: s => [|x s IH] //; rewrite groupby_cons.
case: (groupby s) IH => [|[k0 g] gs] /= IH; first by rewrite -IH.
by case: ifP => _ /=; rewrite IH.
Qed.

Lemma groupby_ok s : all group_ok (groupby s).
Proof.
elim: s => [|x s IH] //; rewrite groupby_cons.
case: (groupby s) IH => [|[k0 g] gs] /=; first by rewrite /group_ok /= eqxx.
rewrite {1}/group_ok /= => /andP[/andP[Hn Hg] Hgs].
case: ifP => Hx /=; rewrite /group_ok /=.
  by rewrite Hx Hg Hgs.
by rewrite eqxx /= Hn Hg Hgs.
Qed.

Lemma groupby_head x s :
  [seq g.1 | g <- groupby (x :: s)] = key x :: behead [seq g.1 | g <- groupby (x :: s)].
Proof.
rewrite groupby_cons; case: (groupby s) => [|[k0 g] gs] //=.
by case: ifP => [/eqP ->|_].
Qed.

Lemma groupby_key_mem s g : g \in groupby s -> g.1 \in [seq key x | x <- s].
Proof.
move=> Hg; have /allP/(_ _ Hg)/andP[] := groupby_ok s.
case: g Hg => k0 [|y g] //= Hg _ /andP[/eqP <- _].
apply: map_f; rewrite -(groupby_flatten s).
by apply/flattenP; exists (y :: g); [apply/mapP; exists (k0, y :: g)|rewrite mem_head].
Qed.

Lemma groupby_sorted s :
  sorted key_le s -> sorted ord_lt [seq g.1 | g <- groupby s].
Proof.
elim: s => [|x s IH] //=; rewrite (path_sortedE key_le_trans).
case/andP=> Hx /IH {IH}.
have := @groupby_key_mem s.
case: (groupby s) => [|[k0 g] gs] //= Hmem Hs.
case: ifP => [//|Hk] /=; rewrite Hs andbT /ord_lt ltn_neqAle.
rewrite (inj_eq val_inj) Hk /=.
have /= /mapP[y Hy Hk0] := Hmem (k0, g) (mem_head _ _).
by rewrite Hk0; move/allP: Hx => /(_ _ Hy).
Qed.

Lemma groupby_uniq s : sorted key_le s -> uniq [seq g.1 | g <- groupby s].
Proof.
move/groupby_sorted; apply: sorted_uniq.
  by move=> b a c; rewrite /ord_lt; apply: ltn_trans.
by move=> a; rewrite /ord_lt ltnn.
Qed.

Lemma group_filter (gs : seq ('I_k * seq T)) k0 g :
  uniq [seq g.1 | g <- gs] -> all group_ok gs -> (k0, g) \in gs ->
  [seq x <- flatten [seq g.2 | g <- gs] | key x == k0] = g.
Proof.
elim: gs => [|[k1 g1] gs IH] //= /andP[Hk1 Hu] /andP[/andP[_ /= Hg1] Hok].
rewrite inE filter_cat => /orP[/eqP[-> ->]|Hin].
  have -> : [seq x <- g1 | key x == k1] = g1.
    by apply/all_filterP.
  rewrite [X in _ ++ X](_ : _ = [::]) ?cats0 //.
  apply/eqP; rewrite -[_ == _]negbK -has_filter; apply/hasPn => x /flattenP[g2 /mapP[[k2 g2'] Hin2 ->] /= Hx].
  have /andP[_ /allP/(_ _ Hx)/eqP /= ->] := allP Hok _ Hin2.
  by apply: contraNneq Hk1 => <-; apply/mapP; exists (k2, g2').
rewrite IH // [X in X ++ _](_ : _ = [::]) //.
apply/eqP; rewrite -[_ == _]negbK -has_filter; apply/hasPn => x Hx.
move/allP: Hg1 => /(_ _ Hx) /eqP /= ->.
by apply: contraNneq Hk1 => ->; apply/mapP; exists (k0, g).
Qed.

Lemma sorted_same_key k0 s : all (fun x => key x == k0) s -> sorted key_le s.
Proof.
elim: s => [|x s IH] //= /andP[/eqP Hx Hs]; rewrite (path_sortedE key_le_trans) IH // andbT.
by apply/allP => y Hy; move/allP: Hs => /(_ _ Hy) /eqP; rewrite /key_le Hx => ->.
Qed.

Lemma group_by_lookup data k0 g :
  (k0, g) \in group_by data -> g = [seq x <- data | key x == k0].
Proof.
move=> Hin.
have Hs : sorted key_le (sort key_le data) by apply: sort_sorted; apply: key_le_total.
rewrite -(group_filter (groupby_uniq Hs) (groupby_ok _) Hin) groupby_flatten.
rewrite (filter_sort key_le_total key_le_trans).
rewrite sorted_sort //; first exact: key_le_trans.
by apply: (@sorted_same_key k0); apply: filter_all.
Qed.

Lemma group_by_uniq data : uniq [seq g.1 | g <- group_by data].
Proof. by apply: groupby_uniq; apply: sort_sorted; apply: key_le_total. Qed.

Lemma group_by_keys data k0 :
  (k0 \in [seq g.1 | g <- group_by data]) = has (fun x => key x == k0) data.
Proof.
apply/mapP/hasP => [[g Hg ->]|[x Hx /eqP <-]].
  have /mapP[x] := groupby_key_mem Hg; rewrite mem_sort => Hx ->.
  by exists x.
have: x \in flatten [seq g.2 | g <- group_by data] by rewrite groupby_flatten mem_sort.
case/flattenP => g2 /mapP[g Hg ->] Hxg; exists g => //.
by have /allP/(_ _ Hg)/andP[_ /allP/(_ _ Hxg)/eqP] := groupby_ok (sort key_le data).
Qed.

End GroupByTheory.

Section MonadTheory.
Variables (A B : Type).

Lemma eq_foldM (f f' : B -> A -> result B) :
  f =2 f' -> foldM f =2 foldM f'.
Proof.
move=> Hf acc s; elim: s acc => [|x s IH] acc //=.
by rewrite Hf; case: (f' acc x) => //= a.
Qed.

End MonadTheory.

Section LinAlg.
Variable R : realFieldType.

Lemma sqnorm_ge0 k (v : 'rV[R]_k) : 0 <= (v *m v^T) ord0 ord0.
Proof.
rewrite mxE; apply: sumr_ge0 => j _.
by rewrite mxE -expr2 sqr_ge0.
Qed.

Lemma sqnorm_eq0 k (v : 'rV[R]_k) : (v *m v^T) ord0 ord0 = 0 -> v = 0.
Proof.
rewrite mxE => /psumr_eq0P H.
apply/rowP => j; rewrite mxE.
have Hpos : forall i : 'I_k, true -> 0 <= v ord0 i * v^T i ord0.
  by move=> i _; rewrite mxE -expr2 sqr_ge0.
have /eqP := H Hpos j isT.
by rewrite mxE -expr2 sqrf_eq0 => /eqP.
Qed.

Lemma normal_mx_unit F k (Mx : 'M[R]_(F, k)) (c : R) :
  0 < c -> Mx *m Mx^T + c *: 1%:M \in unitmx.
Proof.
move=> Hc; rewrite -row_free_unit -kermx_eq0.
apply/eqP/row_matrixP => i; rewrite row0.
set A := _ + _; set x := row i _.
have Hx : x *m A = 0 by rewrite -row_mul mulmx_ker row0.
have E : x *m A *m x^T = (x *m Mx) *m (x *m Mx)^T + c *: (x *m x^T).
  rewrite /A mulmxDr mulmxDl mulmxA -mulmxA -trmx_mul.
  by rewrite -scalemxAr mulmx1 -scalemxAl.
have : (x *m A *m x^T) ord0 ord0 = 0 by rewrite Hx mul0mx mxE.
rewrite E mxE [X in _ + X]mxE.
move=> H0; apply: sqnorm_eq0.
have H1 := sqnorm_ge0 (x *m Mx); have H2 := sqnorm_ge0 x.
move: H0 H1 H2; set a := (_ *m _) ord0 ord0; set b := (_ *m _) ord0 ord0.
move=> H0 H1 H2; apply/eqP; rewrite eq_le H2 andbT.
have : c * b <= 0 by lra.
by rewrite pmulr_rle0.
Qed.

Lemma linalg_solveP n (A : 'M[R]_n) (V z : 'cV[R]_n) :
  linalg_solve A V = Ok z -> A \in unitmx /\ A *m z = V.
Proof.
rewrite /linalg_solve; case: ifP => // HA [<-]; split=> //.
by rewrite mulmxA mulmxV // mul1mx.
Qed.

Lemma linalg_solve_unit n (A : 'M[R]_n) (V : 'cV[R]_n) :
  A \in unitmx -> linalg_solve A V = Ok (invmx A *m V).
Proof. by rewrite /linalg_solve => ->. Qed.

Lemma unitmx_solution_uniq n (A : 'M[R]_n) (V z z' : 'cV[R]_n) :
  A \in unitmx -> A *m z = V -> A *m z' = V -> z = z'.
Proof.
move=> HA Hz Hz'; rewrite -[z](mulKmx HA) -[z'](mulKmx HA).
by rewrite Hz Hz'.
Qed.

End LinAlg.

Section SparseTheory.
Variable R : realFieldType.
Variables m n : nat.
Implicit Types A : 'M[R]_(m, n).

Lemma mem_nonzero A p : (p \in nonzero A) = (A p.1 p.2 != 0).
Proof.
rewrite mem_filter andbC; case: p => i j /=.
by rewrite allpairs_f ?mem_enum.
Qed.

Lemma nonzero_uniq A : uniq (nonzero A).
Proof.
apply: filter_uniq; apply: allpairs_uniq; rewrite ?enum_uniq //.
by move=> [a b] [c d] _ _.
Qed.

Lemma allpairs_col A (s1 : seq 'I_m) (s2 : seq 'I_n) j :
  uniq s2 -> j \in s2 ->
  [seq p.1 | p <- [seq p <- allpairs pair s1 s2 | A p.1 p.2 != 0] & p.2 == j]
  = [seq i <- s1 | A i j != 0].
Proof.
move=> Hu Hj; elim: s1 => [|x s1 IH] //=.
rewrite !filter_cat map_cat IH.
rewrite -filter_predI filter_map -map_comp /=.
have -> : [seq j' <- s2 | (j' == j) && (A x j' != 0)]
          = [seq j' <- s2 | (A x j != 0) && (pred1 j j')].
  apply: eq_filter => j' /=.
  by case: eqP => [->|]; rewrite ?andbT ?andbF.
case: ifP => HA /=; first by rewrite filter_pred1_uniq.
by rewrite filter_pred0.
Qed.

Lemma allpairs_row A (s1 : seq 'I_m) (s2 : seq 'I_n) i :
  uniq s1 ->
  [seq p.2 | p <- [seq p <- allpairs pair s1 s2 | A p.1 p.2 != 0] & p.1 == i]
  = if i \in s1 then [seq j <- s2 | A i j != 0] else [::].
Proof.
elim: s1 => [|x s1 IH] //= /andP[Hx Hu].
rewrite !filter_cat map_cat IH // inE -filter_predI filter_map -map_comp /=.
case: (eqVneq i x) => [->|Hix] /=.
  rewrite (negbTE Hx) cats0.
  have -> : [seq j <- s2 | (x == x) && (A x j != 0)] = [seq j <- s2 | A x j != 0].
    by apply: eq_filter => j /=; rewrite eqxx.
  by rewrite map_id.
have -> : [seq j <- s2 | (x == i) && (A x j != 0)] = [::].
  by rewrite -(filter_pred0 s2); apply: eq_filter => j /=; rewrite eq_sym (negbTE Hix).
by [].
Qed.

Lemma nonzero_col A j :
  [seq p.1 | p <- nonzero A & p.2 == j] = [seq i <- enum 'I_m | A i j != 0].
Proof. by rewrite /nonzero allpairs_col ?enum_uniq ?mem_enum. Qed.

Lemma nonzero_row A i :
  [seq p.2 | p <- nonzero A & p.1 == i] = [seq j <- enum 'I_n | A i j != 0].
Proof. by rewrite /nonzero allpairs_row ?enum_uniq ?mem_enum. Qed.

(** The groups built by [build_index_groups]. *)
Lemma nz_col_rowindices_uniq A : uniq [seq g.1 | g <- nz_col_rowindices A].
Proof. by rewrite /nz_col_rowindices -map_comp; apply: group_by_uniq. Qed.

Lemma nz_row_colindices_uniq A : uniq [seq g.1 | g <- nz_row_colindices A].
Proof. by rewrite /nz_row_colindices -map_comp; apply: group_by_uniq. Qed.

Lemma nz_col_rowindicesP A g :
  g \in nz_col_rowindices A ->
  g.2 = [seq i <- enum 'I_m | A i g.1 != 0] /\ has (fun i => A i g.1 != 0) (enum 'I_m).
Proof.
case/mapP => [[j ps]] Hin -> /=; have /= Hps := group_by_lookup Hin.
rewrite Hps nonzero_col; split=> //.
have : j \in [seq g.1 | g <- group_by (fun p : 'I_m * 'I_n => p.2) (nonzero A)].
  by apply/mapP; exists (j, ps).
rewrite group_by_keys => /hasP[[i j'] /=]; rewrite mem_nonzero /= => HA /eqP <-.
by apply/hasP; exists i; rewrite ?mem_enum.
Qed.

Lemma nz_row_colindicesP A g :
  g \in nz_row_colindices A ->
  g.2 = [seq j <- enum 'I_n | A g.1 j != 0] /\ has (fun j => A g.1 j != 0) (enum 'I_n).
Proof.
case/mapP => [[i ps]] Hin -> /=; have /= Hps := group_by_lookup Hin.
rewrite Hps nonzero_row; split=> //.
have : i \in [seq g.1 | g <- group_by (fun p : 'I_m * 'I_n => p.1) (nonzero A)].
  by apply/mapP; exists (i, ps).
rewrite group_by_keys => /hasP[[i' j] /=]; rewrite mem_nonzero /= => HA /eqP <-.
by apply/hasP; exists j; rewrite ?mem_enum.
Qed.

Lemma nz_col_rowindices_mem A j :
  has (fun i => A i j != 0) (enum 'I_m) ->
  (j, [seq i <- enum 'I_m | A i j != 0]) \in nz_col_rowindices A.
Proof.
case/hasP => i _ HA.
have : j \in [seq g.1 | g <- group_by (fun p : 'I_m * 'I_n => p.2) (nonzero A)].
  by rewrite group_by_keys; apply/hasP; exists (i, j); rewrite ?mem_nonzero /=.
case/mapP => [[j' ps]] Hin /= Hj; apply/mapP; exists (j', ps) => //=.
by rewrite -Hj (group_by_lookup Hin) nonzero_col Hj.
Qed.

Lemma nz_row_colindices_mem A i :
  has (fun j => A i j != 0) (enum 'I_n) ->
  (i, [seq j <- enum 'I_n | A i j != 0]) \in nz_row_colindices A.
Proof.
case/hasP => j _ HA.
have : i \in [seq g.1 | g <- group_by (fun p : 'I_m * 'I_n => p.1) (nonzero A)].
  by rewrite group_by_keys; apply/hasP; exists (i, j); rewrite ?mem_nonzero /=.
case/mapP => [[i' ps]] Hin /= Hi; apply/mapP; exists (i', ps) => //=.
by rewrite -Hi (group_by_lookup Hin) nonzero_row Hi.
Qed.

End SparseTheory.

Section ColFold.
Variable R : realFieldType.
Variables (F k : nat) (J : eqType) (sys : 'I_k -> J -> result 'cV[R]_F).

Let step (acc : 'M[R]_(F, k)) (g : 'I_k * J) : result 'M[R]_(F, k) :=
  Z <- sys g.1 g.2 ;; Ok (set_col acc g.1 Z).

Lemma col_set_col (A : 'M[R]_(F, k)) j0 z j :
  col j (set_col A j0 z) = if j == j0 then z else col j A.
Proof.
apply/colP => i; rewrite !mxE; case: ifP => _ //.
by rewrite mxE.
Qed.

Lemma foldM_set_col gs acc res :
  uniq [seq g.1 | g <- gs] -> foldM step acc gs = Ok res ->
  (forall j, j \notin [seq g.1 | g <- gs] -> col j res = col j acc) /\
  (forall g, g \in gs -> sys g.1 g.2 = Ok (col g.1 res)).
Proof.
elim: gs acc => [|[j0 x0] gs IH] acc /=; first by move=> _ [->]; split.
case/andP=> Hj0 Hu; rewrite {1}/step /=.
case Hs: (sys j0 x0) => [z|] //= /(IH _ Hu) [Hout Hin]; split.
  move=> j; rewrite inE negb_or => /andP[Hj Hjs].
  by rewrite Hout // col_set_col (negbTE Hj).
move=> g; rewrite inE => /orP[/eqP -> /=|]; last exact: Hin.
by rewrite Hout // col_set_col eqxx.
Qed.

Lemma foldM_set_col_ok gs acc :
  (forall g, g \in gs -> is_ok (sys g.1 g.2)) -> is_ok (foldM step acc gs).
Proof.
elim: gs acc => [|g gs IH] acc //= H; rewrite {1}/step.
have := H g (mem_head _ _); case: (sys g.1 g.2) => //= z _.
by apply: IH => g' Hg'; apply: H; rewrite inE Hg' orbT.
Qed.

Lemma foldM_set_col_raise gs acc e :
  foldM step acc gs = Raise e -> exists2 g, g \in gs & sys g.1 g.2 = Raise e.
Proof.
elim: gs acc => [|g gs IH] acc //=; rewrite {1}/step.
case Hs: (sys g.1 g.2) => [z|e'] /=.
  by case/IH => g' Hg' He; exists g' => //; rewrite inE Hg' orbT.
by case=> <-; exists g => //; rewrite mem_head.
Qed.

End ColFold.

Section UpdateTheory.
Variable R : realFieldType.
Variables num_users num_movies num_features : nat.
Variable train : 'M[R]_(num_users, num_movies).

Lemma update_movie_featureE (uf : 'M[R]_(num_features, num_users)) lam nnzs gs :
  update_movie_feature train uf lam nnzs gs =
  foldM (fun acc (g : 'I_num_movies * seq 'I_num_users) =>
           Z <- (let: (A, V) := movie_system train uf lam nnzs g.1 g.2 in linalg_solve A V) ;;
           Ok (set_col acc g.1 Z)) 0 gs.
Proof. by apply: eq_foldM => acc [movie user]. Qed.

Lemma update_user_featureE (mf : 'M[R]_(num_features, num_movies)) lam nnzs gs :
  update_user_feature train mf lam nnzs gs =
  foldM (fun acc (g : 'I_num_users * seq 'I_num_movies) =>
           Z <- (let: (A, V) := user_system train mf lam nnzs g.1 g.2 in linalg_solve A V) ;;
           Ok (set_col acc g.1 Z)) 0 gs.
Proof. by apply: eq_foldM => acc [user movie]. Qed.

End UpdateTheory.

Section UpdateTheory.
Variable R : realFieldType.
Variables num_users num_movies num_features : nat.
Variable train : 'M[R]_(num_users, num_movies).

Notation movie_step uf lam :=
  (update_movie_feature train uf lam (getnnz_axis0 train)
     (nz_col_rowindices train)).
Notation user_step mf lam :=
  (update_user_feature train mf lam (getnnz_axis1 train)
     (nz_row_colindices train)).

Notation movie_solve uf lam :=
  (fun movie user =>
     let: (A, V) := movie_system train uf lam (getnnz_axis0 train) movie user in
     linalg_solve A V).
Notation user_solve mf lam :=
  (fun user movie =>
     let: (A, V) := user_system train mf lam (getnnz_axis1 train) user movie in
     linalg_solve A V).

Lemma has_raterP (movie : 'I_num_movies) :
  reflect (exists u, train u movie != 0)
          (has (fun u => train u movie != 0) (enum 'I_num_users)).
Proof.
apply: (iffP hasP) => [[u _ Hu]|[u Hu]]; exists u => //.
by rewrite mem_enum.
Qed.

Lemma has_ratedP (user : 'I_num_users) :
  reflect (exists j, train user j != 0)
          (has (fun j => train user j != 0) (enum 'I_num_movies)).
Proof.
apply: (iffP hasP) => [[j _ Hj]|[j Hj]]; exists j => //.
by rewrite mem_enum.
Qed.

Lemma size_raters movie : size (raters train movie) = getnnz_axis0 train movie.
Proof. by rewrite /raters size_filter. Qed.

Lemma size_rated_by user : size (rated_by train user) = getnnz_axis1 train user.
Proof. by rewrite /rated_by size_filter. Qed.

Lemma movie_update_col (uf : 'M[R]_(num_features, num_users)) lam mf' :
  movie_step uf lam = Ok mf' ->
  forall movie, (exists u, train u movie != 0) ->
  let us := raters train movie in
  normal_equation (take_cols uf us)
    (\col_j train (tnth (in_tuple us) j) movie)
    ((size us)%:R * lam) (col movie mf').
Proof.
rewrite update_movie_featureE.
case/(foldM_set_col (sys := movie_solve uf lam) (nz_col_rowindices_uniq train)) => _ Hin movie.
move/has_raterP/nz_col_rowindices_mem/Hin => /=.
rewrite -/(raters train movie) /movie_system.
case/linalg_solveP; rewrite scalerA -size_raters => Hu Hz.
by split=> // z' Hz'; apply: unitmx_solution_uniq Hu Hz' Hz.
Qed.

Lemma movie_update_unrated (uf : 'M[R]_(num_features, num_users)) lam mf' :
  movie_step uf lam = Ok mf' ->
  forall movie, ~ (exists u, train u movie != 0) -> col movie mf' = 0.
Proof.
rewrite update_movie_featureE.
case/(foldM_set_col (sys := movie_solve uf lam) (nz_col_rowindices_uniq train)) => Hout _ movie Hm.
rewrite Hout ?col0 //; apply/negP => /mapP[g /nz_col_rowindicesP[_ Hg] Hmg].
by apply: Hm; apply/has_raterP; rewrite Hmg.
Qed.

Lemma movie_update_ok (uf : 'M[R]_(num_features, num_users)) lam :
  0 < lam -> is_ok (movie_step uf lam).
Proof.
move=> Hlam; rewrite update_movie_featureE.
apply: (foldM_set_col_ok (sys := movie_solve uf lam)) => g /nz_col_rowindicesP[_ Hg].
rewrite /movie_system linalg_solve_unit // scalerA.
apply: normal_mx_unit; rewrite mulr_gt0 // ltr0n -size_raters /raters size_filter.
by rewrite -has_count.
Qed.

Lemma movie_update_raise (uf : 'M[R]_(num_features, num_users)) lam e :
  movie_step uf lam = Raise e -> e = LinAlgError.
Proof.
rewrite update_movie_featureE => /(foldM_set_col_raise (sys := movie_solve uf lam))[g _].
by rewrite /movie_system /linalg_solve; case: ifP => // _ [].
Qed.

Lemma user_update_col (mf : 'M[R]_(num_features, num_movies)) lam uf' :
  user_step mf lam = Ok uf' ->
  forall user, (exists j, train user j != 0) ->
  let ms := rated_by train user in
  normal_equation (take_cols mf ms)
    (\col_j train user (tnth (in_tuple ms) j))
    ((size ms)%:R * lam) (col user uf').
Proof.
rewrite update_user_featureE.
case/(foldM_set_col (sys := user_solve mf lam) (nz_row_colindices_uniq train)) => _ Hin user.
move/has_ratedP/nz_row_colindices_mem/Hin => /=.
rewrite -/(rated_by train user) /user_system.
have -> : (\row_j train user (tnth (in_tuple (rated_by train user)) j))^T
          = \col_j train user (tnth (in_tuple (rated_by train user)) j).
  by apply/colP => j; rewrite !mxE.
case/linalg_solveP; rewrite scalerA -size_rated_by => Hu Hz.
by split=> // z' Hz'; apply: unitmx_solution_uniq Hu Hz' Hz.
Qed.

Lemma user_update_unrated (mf : 'M[R]_(num_features, num_movies)) lam uf' :
  user_step mf lam = Ok uf' ->
  forall user, ~ (exists j, train user j != 0) -> col user uf' = 0.
Proof.
rewrite update_user_featureE.
case/(foldM_set_col (sys := user_solve mf lam) (nz_row_colindices_uniq train)) => Hout _ user Hm.
rewrite Hout ?col0 //; apply/negP => /mapP[g /nz_row_colindicesP[_ Hg] Hmg].
by apply: Hm; apply/has_ratedP; rewrite Hmg.
Qed.

Lemma user_update_ok (mf : 'M[R]_(num_features, num_movies)) lam :
  0 < lam -> is_ok (user_step mf lam).
Proof.
move=> Hlam; rewrite update_user_featureE.
apply: (foldM_set_col_ok (sys := user_solve mf lam)) => g /nz_row_colindicesP[_ Hg].
rewrite /user_system linalg_solve_unit // scalerA.
apply: normal_mx_unit; rewrite mulr_gt0 // ltr0n -size_rated_by /rated_by size_filter.
by rewrite -has_count.
Qed.

Lemma user_update_raise (mf : 'M[R]_(num_features, num_movies)) lam e :
  user_step mf lam = Raise e -> e = LinAlgError.
Proof.
rewrite update_user_featureE => /(foldM_set_col_raise (sys := user_solve mf lam))[g _].
by rewrite /user_system /linalg_solve; case: ifP => // _ [].
Qed.

End UpdateTheory.

Section ErrorTheory.
Variable R : realFieldType.
Variable np_sqrt : R -> R.
Variables num_users num_movies num_features : nat.
Implicit Types (data : 'M[R]_(num_users, num_movies))
  (mf : 'M[R]_(num_features, num_movies)) (uf : 'M[R]_(num_features, num_users)).

Lemma foldl_sum (T : Type) (f : T -> R) (g : R -> T -> R) z s :
  (forall a x, g a x = a + f x) ->
  foldl g z s = z + \sum_(x <- s) f x.
Proof.
move=> Hg; elim: s z => [|x s IH] z /=; first by rewrite big_nil addr0.
by rewrite IH Hg big_cons addrA.
Qed.

(** The squared error of one prediction. *)
Lemma dot_cols mf uf (row : 'I_num_users) (c : 'I_num_movies) :
  ((col c mf)^T *m col row uf) ord0 ord0 = \sum_f mf f c * uf f row.
Proof. by rewrite mxE; apply: eq_bigr => f _; rewrite !mxE. Qed.

Lemma compute_error_sum data mf uf nz :
  nz != [::] ->
  compute_error np_sqrt data mf uf nz =
  Ok (np_sqrt ((\sum_(p <- nz)
                  (data p.1 p.2 - \sum_f mf f p.2 * uf f p.1) ^+ 2)
               / (size nz)%:R)).
Proof.
move=> Hnz; rewrite /compute_error size_eq0 (negbTE Hnz) mul1r.
rewrite (@foldl_sum _ (fun p => (data p.1 p.2 - \sum_f mf f p.2 * uf f p.1) ^+ 2)) ?add0r //.
by move=> a [row c] /=; rewrite dot_cols.
Qed.

Lemma compute_error_ok data mf uf nz :
  is_ok (compute_error np_sqrt data mf uf nz) = (nz != [::]).
Proof. by rewrite /compute_error size_eq0; case: eqP. Qed.

End ErrorTheory.

Section LoopTheory.
Variable R : realFieldType.
Variable np_sqrt : R -> R.
Variables num_users num_movies num_features : nat.
Variable train : 'M[R]_(num_users, num_movies).
Variables lambda_movie lambda_user : R.

Notation state := (als_state R num_users num_movies num_features).
Notation body := (@ALS_body R np_sqrt num_users num_movies num_features train lambda_movie lambda_user).
Notation while := (@ALS_while R np_sqrt num_users num_movies num_features train lambda_movie lambda_user).
Notation rounds := (@ALS_rounds R np_sqrt num_users num_movies num_features train lambda_movie lambda_user).

Lemma nonzero_nilP : reflect (forall u m, train u m = 0) (nonzero train == [::]).
Proof.
apply: (iffP idP) => [/eqP H u m|H].
  by apply/eqP; rewrite -[_ == _]negbK -(mem_nonzero train (u, m)) H.
rewrite -[_ == _]negbK -has_filter; apply/hasPn => -[u m] _ /=.
by rewrite H eqxx.
Qed.

Lemma ALS_body_ok (st : state) :
  0 < lambda_movie -> 0 < lambda_user -> nonzero train != [::] ->
  is_ok (body st).
Proof.
move=> Hm Hu Hnz; rewrite /ALS_body /=.
have := movie_update_ok train (user_features st) Hm.
case: (update_movie_feature _ _ _ _ _) => //= mf' _.
have := user_update_ok train mf' Hu.
case: (update_user_feature _ _ _ _ _) => //= uf' _.
have := compute_error_ok np_sqrt train mf' uf' (nonzero train).
by rewrite Hnz; case: (compute_error _ _ _ _ _).
Qed.

Lemma ALS_body_raise (st : state) e :
  body st = Raise e ->
  e = LinAlgError \/ e = ZeroDivisionError /\ nonzero train = [::].
Proof.
rewrite /ALS_body /=.
case Em: (update_movie_feature _ _ _ _ _) => [mf'|e1] /=; last first.
  by case=> <-; left; apply: movie_update_raise Em.
case Eu: (update_user_feature _ _ _ _ _) => [uf'|e1] /=; last first.
  by case=> <-; left; apply: user_update_raise Eu.
rewrite /compute_error size_eq0; case: eqP => //= Hnz [<-].
by right.
Qed.

Lemma ALS_body_nil (st : state) :
  nonzero train = [::] -> body st = Raise ZeroDivisionError.
Proof.
move=> Hnz; rewrite /ALS_body /= /nz_col_rowindices /nz_row_colindices.
by rewrite /compute_error Hnz.
Qed.

Lemma change_next_it (st : state) : change (next_it st) = change st.
Proof. by []. Qed.

Lemma ALS_while_rounds n (st0 st : state) :
  while n st0 = Ok st ->
  exists r st',
    [/\ (r <= n)%N, rounds r st0 = Ok st',
        user_features st' = user_features st,
        movie_features st' = movie_features st
      & error_list st' = error_list st] /\
    (forall j stj, (0 < j < r)%N -> rounds j st0 = Ok stj ->
                   ~~ (change stj < stop_criterion)) /\
    ((r < n)%N -> (0 < r)%N /\ change st < stop_criterion).
Proof.
elim: n st0 => [|n IH] st0 /=.
  case=> <-; exists 0%N, st0; split; first by split.
  by split=> // j stj; rewrite ltn0 andbF.
case Eb: (body st0) => [st1|] //=; case: ifP => Hc.
  case=> <-; exists 1%N, (next_it st1); split; first by rewrite /= Eb.
  by split=> [[|j] //|_].
case/IH => r [st' [[Hr Hst' Hu Hm He] [Hj Hlt]]].
exists r.+1, st'; split; first by rewrite /= Eb.
split=> [[|[|j]] stj //=|]; rewrite ?Eb /=.
- by move=> _ [<-]; rewrite change_next_it Hc.
- by move=> Hjr; apply: (Hj j.+1).
by rewrite ltnS => /Hlt[].
Qed.

Lemma ALS_while_ok n (st : state) :
  0 < lambda_movie -> 0 < lambda_user -> nonzero train != [::] ->
  is_ok (while n st).
Proof.
move=> Hm Hu Hnz; elim: n st => [|n IH] st //=.
have := ALS_body_ok st Hm Hu Hnz; case: (body st) => //= st1 _.
by case: ifP.
Qed.

Lemma ALS_while_raise n (st : state) e :
  while n st = Raise e ->
  e = LinAlgError \/ e = ZeroDivisionError /\ nonzero train = [::].
Proof.
elim: n st => [|n IH] st //=.
case Eb: (body st) => [st1|e1] /=; last by case=> <-; apply: ALS_body_raise Eb.
by case: ifP => // _; apply: IH.
Qed.

End LoopTheory.

Section RandTheory.
Variable rng : Type.

Lemma rand_bind_ok (A B : Type) (c : rand rng A) (k : A -> rand rng B) s b s' :
  rand_bind c k s = Ok (b, s') ->
  exists a s1, c s = Ok (a, s1) /\ k a s1 = Ok (b, s').
Proof.
rewrite /rand_bind; case: (c s) => [[a s1]|] // H.
by exists a, s1.
Qed.

Lemma foldR_cons (A B : Type) (f : B -> A -> rand rng B) acc x l :
  foldR f acc (x :: l) = rand_bind (f acc x) (fun acc' => foldR f acc' l).
Proof. by []. Qed.

Lemma foldR_cat (A B : Type) (f : B -> A -> rand rng B) acc l1 l2 s :
  foldR f acc (l1 ++ l2) s =
  rand_bind (foldR f acc l1) (fun acc' => foldR f acc' l2) s.
Proof.
elim: l1 acc s => [|x l1 IH] acc s //=.
by rewrite /rand_bind; case: (f acc x s) => [[a s1]|].
Qed.

(** An invariant of a loop that returns holds of its result. *)
Lemma foldR_inv (A B : Type) (f : B -> A -> rand rng B)
    (I : B -> seq A -> Prop) acc l s res s' :
  (forall acc x l' s1 acc' s2, I acc (x :: l') -> f acc x s1 = Ok (acc', s2) ->
                               I acc' l') ->
  I acc l -> foldR f acc l s = Ok (res, s') -> I res [::].
Proof.
move=> Hstep; elim: l acc s => [|x l IH] acc s; first by move=> H [<- _].
rewrite foldR_cons => HI Hb; have [acc' [s1 [Hf Hrest]]] := rand_bind_ok Hb.
by apply: IH Hrest; apply: (Hstep acc x l s acc' s1 HI Hf).
Qed.

Lemma foldR_ok (A : eqType) (B : Type) (f : B -> A -> rand rng B) acc l s :
  (forall acc x s1, x \in l -> is_ok (f acc x s1)) -> is_ok (foldR f acc l s).
Proof.
elim: l acc s => [|x l IH] acc s //= H; rewrite /rand_bind.
have := H acc x s (mem_head _ _); case: (f acc x s) => [[a s1]|] //= _.
by apply: IH => acc' y s2 Hy; apply: H; rewrite inE Hy orbT.
Qed.

End RandTheory.

Section ChoiceTheory.
Variable rng : Type.
Variable randint : forall n : nat, rng -> 'I_n.+1 * rng.

Lemma size_draws (T : Type) (x : T) a k s : size (draws randint x a k s).1 = k.
Proof.
elim: k s => [|k IH] s //=.
case: (randint _ s) => i s1; have := IH s1.
by case: (draws _ _ _ _ _) => r s2 /= ->.
Qed.

Lemma mem_draws (T : eqType) (x : T) a k s :
  {subset (draws randint x a k s).1 <= x :: a}.
Proof.
elim: k s => [|k IH] s y //=.
case: (randint _ s) => i s1; have := IH s1.
case: (draws _ _ _ _ _) => r s2 /= Hr; rewrite inE => /orP[/eqP ->|/Hr //].
by apply: mem_nth; rewrite /= ltn_ord.
Qed.

Lemma np_random_choice_ok (T : Type) (x : T) (a : seq T) (k : int) s :
  0 <= k -> is_ok (np_random_choice randint (x :: a) k s).
Proof. by case: k. Qed.

Lemma np_random_choice_size (T : Type) (a : seq T) (k : nat) s r s' :
  np_random_choice randint a (Posz k) s = Ok (r, s') -> size r = k.
Proof.
rewrite /np_random_choice; case: a => [|x a].
  by case: eqP => // -> [<-].
by move=> [Hd]; rewrite -(size_draws x a k s) Hd.
Qed.

Lemma np_random_choice_mem (T : eqType) (a : seq T) (k : int) s r s' :
  np_random_choice randint a k s = Ok (r, s') -> {subset r <= a}.
Proof.
rewrite /np_random_choice; case: k => // k; case: a => [|x a].
  by case: eqP => // _ [<-].
by move=> [Hd]; have := @mem_draws _ x a k s; rewrite Hd.
Qed.
End ChoiceTheory.

Section AssignTheory.
Variable R : realFieldType.
Variables nr nc : nat.
Implicit Types A tr te : 'M[R]_(nr, nc).

Lemma split_inv0 A : split_inv A (0, 0) (nonzero_columns A).
Proof.
split; first exact: undup_uniq.
by move=> i j; split; rewrite /= ?mxE ?eqxx.
Qed.

Lemma split_inv_step A tr te movie rest residual selects te' :
  split_inv A (tr, te) (movie :: rest) ->
  (forall i, i \in residual -> i \notin selects) ->
  te' = te \/ te' = assign_col te A selects movie ->
  split_inv A (assign_col tr A residual movie, te') rest.
Proof.
case=> /= /andP[Hm Hu] H Hdisj Hte; split=> // i j.
have [H1 H2 H3 H4] := H i j.
case: (eqVneq j movie) => [Hj|Hj]; last first.
  have Htr : assign_col tr A residual movie i j = tr i j.
    by rewrite mxE (negbTE Hj).
  have Hte' : te' i j = te i j.
    by case: Hte => -> //; rewrite mxE (negbTE Hj).
  rewrite /= Htr Hte'; split=> // Hin; apply: H4.
  by rewrite inE Hin orbT.
have [Htr0 Hte0] : tr i j = 0 /\ te i j = 0 by apply: H4; rewrite Hj mem_head.
have Htr : assign_col tr A residual movie i j = if i \in residual then A i j else 0.
  by rewrite mxE Hj eqxx /= -Hj Htr0.
have Hte' : te' i j = 0 \/ (i \in selects /\ te' i j = A i j).
  case: Hte => ->; first by left.
  by rewrite mxE Hj eqxx /= -Hj Hte0; case: ifP => _; [right|left].
rewrite /= Htr; split.
- by case: ifP => //; rewrite eqxx.
- by case: Hte' => [->|[_ ->]] //; rewrite eqxx.
- case: ifP => Hi; last by rewrite eqxx.
  case: Hte' => [->|[Hs _]]; first by rewrite eqxx andbF.
  by rewrite (negbTE (Hdisj _ Hi)) in Hs.
- by rewrite Hj (negbTE Hm).
Qed.

Lemma nnz_count A :
  nnz A = count (fun p => A p.1 p.2 != 0) (allpairs pair (enum 'I_nr) (enum 'I_nc)).
Proof. by rewrite /nnz /nonzero size_filter. Qed.

Lemma split_inv_nnz A tr te l :
  split_inv A (tr, te) l -> (nnz tr + nnz te <= nnz A)%N.
Proof.
case=> _ H; rewrite !nnz_count.
set P := fun p => tr _ _ != 0; set Q := fun p => te _ _ != 0.
have HI : predI P Q =1 pred0.
  move=> [i j] /=; rewrite /P /Q /=.
  by have [_ _ /negbTE] := H i j.
rewrite -(count_predUI P Q) (eq_count HI) count_pred0 addn0.
apply: sub_count => -[i j] /=; rewrite /P /Q /=.
by have [H1 H2 _ _] := H i j; case/orP.
Qed.

End AssignTheory.

Section SplitDataTheory.
Variable R : archiRealFieldType.
Variable rng : Type.
Variable randint : forall n : nat, rng -> 'I_n.+1 * rng.

Lemma py_int_ge0 (x : R) : 0 <= x -> 0 <= py_int x.
Proof. by rewrite /py_int => Hx; rewrite Hx floor_ge0. Qed.

Lemma choice_fraction_ok (T : Type) (row : seq T) (p : R) s :
  0 <= p ->
  is_ok (np_random_choice randint row (py_int ((size row)%:R * p)) s).
Proof.
move=> Hp; case: row => [|x a]; last first.
  by apply: np_random_choice_ok; apply: py_int_ge0; rewrite mulr_ge0 ?ler0n.
by rewrite /= mul0r /py_int lexx floor0.
Qed.

Variables num_rows0 num_cols0 : nat.
Variable ratings : 'M[R]_(num_rows0, num_cols0).
Variable num_users_per_movie : 'I_num_cols0 -> nat.
Variable num_movies_per_user : 'I_num_rows0 -> nat.
Variable min_num_ratings : nat.

Notation vu := (valid_users num_movies_per_user min_num_ratings).
Notation vm := (valid_movies num_users_per_movie min_num_ratings).
Notation V := (valid_ratings ratings num_users_per_movie num_movies_per_user
                 min_num_ratings).
Notation split p :=
  (split_data randint ratings num_users_per_movie num_movies_per_user
     min_num_ratings p).

Lemma split_data_inv p s valid train test s' :
  split p s = Ok ((valid, train, test), s') ->
  valid = V /\ split_inv V (train, test) [::].
Proof.
rewrite /split_data => Hb; have [[tr te] [s1 [Hloop]]] := rand_bind_ok Hb.
case=> <- <- <- _ {Hb}; split=> //.
apply: foldR_inv Hloop; last exact: split_inv0.
move=> [tr0 te0] movie rest s2 acc' s3 Hinv Hb.
have [selects [s4 [Hsel]]] := rand_bind_ok Hb.
case=> <- _; apply: (split_inv_step (selects := selects) Hinv).
  by move=> i; rewrite mem_filter => /andP[].
by case: ifP => _; [right|left].
Qed.

Lemma split_data_ok p s : 0 <= p -> is_ok (split p s).
Proof.
move=> Hp; rewrite /split_data /rand_bind.
set f := fun tt movie => _.
have : is_ok (foldR f (0, 0) (nonzero_columns V) s).
  apply: foldR_ok => -[tr te] movie s1 _; rewrite /f /rand_bind.
  have := choice_fraction_ok (column_nonzero V movie) s1 Hp.
  by case: (np_random_choice _ _ _ _) => [[sel s2]|].
by case: (foldR _ _ _ _) => [[[tr te] s1]|].
Qed.

Lemma tnth_uniq_inj (T : eqType) (l : seq T) :
  uniq l -> injective (tnth (in_tuple l)).
Proof.
move=> Hu i j; case: l Hu i j => [|x l] Hu i j; first by case: i.
rewrite !(tnth_nth x) /= => /eqP.
by rewrite nth_uniq // => /eqP /val_inj.
Qed.

Lemma valid_ratings_nnz : (nnz V <= nnz ratings)%N.
Proof.
pose f (p : 'I_(size vu) * 'I_(size vm)) :=
  (tnth (in_tuple vu) p.1, tnth (in_tuple vm) p.2).
have Hinj : injective f.
  move=> [i j] [i' j'] [] /tnth_uniq_inj Hi /tnth_uniq_inj Hj.
  by rewrite Hi ?Hj // filter_uniq // enum_uniq.
rewrite /nnz -(size_map f); apply: uniq_leq_size.
  by rewrite (map_inj_uniq Hinj) nonzero_uniq.
move=> q /mapP[[i j]]; rewrite mem_nonzero /= mxE => HV ->.
by rewrite mem_nonzero.
Qed.

End SplitDataTheory.

Section PreprocessTheory.
Variable R : realFieldType.
Implicit Types (data : seq (record R)) (A : lil_matrix R).

Lemma foldl_max_ge (x : int) (l : seq int) :
  x <= foldl Order.max x l /\ all (fun y => y <= foldl Order.max x l) l.
Proof.
elim: l x => [|y l IH] x /=; first by rewrite lexx.
have [H1 H2] := IH (Order.max x y); split.
  by apply: le_trans H1; rewrite le_max lexx.
by rewrite H2 andbT; apply: le_trans H1; rewrite le_max lexx orbT.
Qed.

Lemma py_index_ok len i : is_ok (py_index len i) = index_ok len i.
Proof. by rewrite /py_index /index_ok; case: ifP. Qed.

Lemma lil_setitem_shape A i j x A' :
  lil_setitem A i j x = Ok A' -> shape A' = shape A.
Proof.
rewrite /lil_setitem; case: (py_index _ i) => //= i'.
by case: (py_index _ j) => //= j' [<-].
Qed.

Lemma lil_setitem_ok A i j x :
  is_ok (lil_setitem A i j x) = index_ok (shape A).1 i && index_ok (shape A).2 j.
Proof.
rewrite /lil_setitem -!py_index_ok; case: (py_index _ i) => //= i'.
by case: (py_index _ j).
Qed.

Lemma foldM_setitem_ok A data :
  is_ok (foldM (fun ratings (line : record R) =>
                  let: (row, col, rating) := line in
                  lil_setitem ratings (row - 1) (col - 1) rating) A data)
  = all (fun line : record R =>
           index_ok (shape A).1 (line.1.1 - 1) &&
           index_ok (shape A).2 (line.1.2 - 1)) data.
Proof.
elim: data A => [|[[row c] rating] data IH] A //=.
rewrite -(lil_setitem_ok A _ _ rating).
case E: (lil_setitem _ _ _ _) => [A'|] //=.
by rewrite IH (lil_setitem_shape E).
Qed.

Lemma foldM_setitem_shape A data A' :
  foldM (fun ratings (line : record R) =>
           let: (row, col, rating) := line in
           lil_setitem ratings (row - 1) (col - 1) rating) A data = Ok A' ->
  shape A' = shape A.
Proof.
elim: data A => [|[[row c] rating] data IH] A /=; first by case=> <-.
case E: (lil_setitem _ _ _ _) => [A1|] //= /IH ->.
exact: lil_setitem_shape E.
Qed.

Lemma index_ok_below (len : nat) (row m : int) :
  m = Posz len -> row <= m -> index_ok len (row - 1) = (1 - m <= row).
Proof.
move=> Hm Hle; rewrite /index_ok -Hm.
have -> : row - 1 < m by lra.
by rewrite andbT; apply/idP/idP => H; lra.
Qed.

Lemma preprocess_data_nil : preprocess_data (R := R) [::] = Raise ValueError.
Proof. by []. Qed.

Lemma preprocess_data_ok (line0 : record R) data :
  let max_row := foldl Order.max line0.1.1 [seq l.1.1 | l <- data] in
  let max_col := foldl Order.max line0.1.2 [seq l.1.2 | l <- data] in
  is_ok (preprocess_data (line0 :: data)) =
  all (fun l : record R => (1 - max_row <= l.1.1) && (1 - max_col <= l.1.2))
      (line0 :: data).
Proof.
move=> max_row max_col; rewrite /preprocess_data /statistics /=.
rewrite -/max_row -/max_col.
have [Hr0 /allP Hr] := foldl_max_ge line0.1.1 [seq l.1.1 | l <- data].
have [Hc0 /allP Hc] := foldl_max_ge line0.1.2 [seq l.1.2 | l <- data].
rewrite -/max_row in Hr0 Hr; rewrite -/max_col in Hc0 Hc.
have Hrow : forall l, l \in line0 :: data -> l.1.1 <= max_row.
  move=> l; rewrite inE => /orP[/eqP -> //|Hl].
  by apply: Hr; apply: map_f.
have Hcol : forall l, l \in line0 :: data -> l.1.2 <= max_col.
  move=> l; rewrite inE => /orP[/eqP -> //|Hl].
  by apply: Hc; apply: map_f.
case Er: max_row => [m|m]; last first.
  rewrite /= [1 - _ <= _](_ : _ = false) //.
  apply/negbTE; rewrite -ltNge; have : Negz m < 0 by [].
  by move: Hr0; rewrite Er; move: (Negz m) (line0.1.1) => k r; lra.
case Ec: max_col => [n|n]; last first.
  rewrite /= [1 - Negz n <= _](_ : _ = false) ?andbF //.
  apply/negbTE; rewrite -ltNge; have : Negz n < 0 by [].
  by move: Hc0; rewrite Ec; move: (Negz n) (line0.1.2) => k r; lra.
rewrite -[LHS]/(is_ok (foldM _ (LilMatrix (m, n) (fun _ _ => 0)) (line0 :: data))).
rewrite foldM_setitem_ok.
rewrite -[RHS]/(all (fun l : record R => (1 - Posz m <= l.1.1) && (1 - Posz n <= l.1.2)) (line0 :: data)).
apply: eq_in_all => l Hl; rewrite [shape _]/=.
rewrite (@index_ok_below m _ max_row) ?Hrow //.
by rewrite (@index_ok_below n _ max_col) ?Hcol // Er Ec.
Qed.

Lemma preprocess_data_shape (line0 : record R) data A :
  preprocess_data (line0 :: data) = Ok A ->
  Posz (shape A).1 = foldl Order.max line0.1.1 [seq l.1.1 | l <- data] /\
  Posz (shape A).2 = foldl Order.max line0.1.2 [seq l.1.2 | l <- data].
Proof.
rewrite /preprocess_data /statistics /=.
case: (foldl _ _ _) => [m|] //; case: (foldl _ _ _) => [n|] //.
rewrite -[X in X = _ -> _]/(foldM _ (LilMatrix (m, n) (fun _ _ => 0)) (line0 :: data)).
by move/foldM_setitem_shape => ->.
Qed.

End PreprocessTheory.


Section MonadTheory2.
Lemma foldM_cat (A B : Type) (f : B -> A -> result B) acc l1 l2 :
  foldM f acc (l1 ++ l2) = (acc' <- foldM f acc l1 ;; foldM f acc' l2).
Proof.
elim: l1 acc => [|x l1 IH] acc //=.
by case: (f acc x) => //= acc'.
Qed.

Lemma foldM_flatten (A B C : Type) (f : B -> A -> result B) (g : C -> seq A)
    acc (l : seq C) :
  foldM (fun st c => foldM f st (g c)) acc l = foldM f acc (flatten (map g l)).
Proof.
elim: l acc => [|c l IH] acc //=.
by rewrite foldM_cat; case: (foldM f acc (g c)) => //= acc'.
Qed.
End MonadTheory2.

Section StackTheory.
Variable R : realFieldType.
Variable n : nat.
Variable model : Type.
Implicit Types (df predictions : DataFrame R n) (models : catalogue model).

Lemma df_get_mem df name :
  name \in [seq c.1 | c <- df] -> df_get df name = Ok (df_col df name).
Proof.
rewrite /df_col; elim: df => [|[k c] df IH] //=.
by rewrite inE eq_sym; case: eqP => //= _ /IH.
Qed.

Lemma df_get_set df name c : df_get (df_set df name c) name = Ok c.
Proof.
elim: df => [|[k c'] df IH] /=; first by rewrite eqxx.
by case: ifP => Hk /=; rewrite Hk.
Qed.

Lemma df_select_ok df names :
  all (fun nm => nm \in [seq c.1 | c <- df]) names ->
  df_select df names = Ok [seq (nm, df_col df nm) | nm <- names].
Proof.
elim: names => [|nm names IH] //= /andP[Hnm /IH ->].
by rewrite df_get_mem.
Qed.


Lemma catalogue_namesE models :
  catalogue_names models = [seq m.1 | m <- flatten [seq fam.2 | fam <- models]].
Proof. by rewrite map_flatten -map_comp. Qed.



End StackTheory.

Section RandTheory2.
Variable rng : Type.

Lemma rand_bind_raise (A B : Type) (c : rand rng A) (k : A -> rand rng B) s e :
  c s = Raise e -> rand_bind c k s = Raise e.
Proof. by rewrite /rand_bind => ->. Qed.

Lemma rand_bind_step (A B : Type) (c : rand rng A) (k : A -> rand rng B) s a s1 :
  c s = Ok (a, s1) -> rand_bind c k s = k a s1.
Proof. by rewrite /rand_bind => ->. Qed.

Lemma foldR_raise (A B : Type) (f : B -> A -> rand rng B) acc l1 x l2 s acc1 s1 e :
  foldR f acc l1 s = Ok (acc1, s1) -> f acc1 x s1 = Raise e ->
  foldR f acc (l1 ++ x :: l2) s = Raise e.
Proof.
move=> H1 Hx; rewrite foldR_cat (rand_bind_step _ H1) foldR_cons.
exact: rand_bind_raise.
Qed.

End RandTheory2.

Section ZipTheory.
Lemma mem_zip_r (S T : eqType) (s : seq S) (t : seq T) p :
  p \in zip s t -> p.2 \in t.
Proof.
elim: s t => [|x s IH] [|y t] //=.
by rewrite !inE => /orP[/eqP -> /=|/IH ->]; rewrite ?eqxx ?orbT.
Qed.

Lemma size_zip4 (A B C D : Type) (a : seq A) (b : seq B) (c : seq C)
    (d : seq D) k :
  size a = k -> size b = k -> size c = k -> size d = k ->
  size (zip4 a b c d) = k.
Proof.
by move=> Ha Hb Hc Hd; rewrite /zip4 !size_zip Ha Hb Hc Hd !minnn.
Qed.
End ZipTheory.

Section RangeTheory.
Variable R : archiRealFieldType.

Lemma linspace_mem (start stop : R) num x :
  x \in linspace start stop num ->
  exists2 i, (i < num)%N & x = start + i%:R * ((stop - start) / (num.-1)%:R).
Proof.
case/mapP => i; rewrite mem_iota add0n => /andP[_ Hi] ->.
by exists i.
Qed.

Lemma user_range_gt0 (x : R) : x \in user_range -> 0 < x.
Proof.
case/linspace_mem => i _ ->.
have H1 : (0 : R) <= i%:R by rewrite ler0n.
have H2 : (0 : R) <= (1 - 100%:R^-1) / (100.-1)%:R.
  by rewrite divr_ge0 ?ler0n // subr_ge0 invf_le1 ?ltr0n // ler1n.
have H3 := mulr_ge0 H1 H2.
have H4 : (0 : R) < 100%:R^-1 by rewrite invr_gt0 ltr0n.
by rewrite ltr_wpDr.
Qed.

Lemma movies_range_gt0 (x : R) : x \in movies_range -> 0 < x.
Proof. exact: user_range_gt0. Qed.


End RangeTheory.

Section CvTheory.
Variable R : archiRealFieldType.
Variable np_sqrt : R -> R.
Variable rng : Type.
Variable randint : forall n : nat, rng -> 'I_n.+1 * rng.
Variable np_random_rand : forall m n : nat, rng -> 'M[R]_(m, n) * rng.
Variables num_rows num_cols : nat.
Notation ratings := 'M[R]_(num_rows, num_cols).
Implicit Types (trl tel : seq ratings) (best : cv_state R) (c : candidate R).

Notation candidate_step := (cv_candidate np_sqrt np_random_rand).
Notation loop := (cv_loop np_sqrt np_random_rand).
Notation search := (cv_ALS_random_search np_sqrt randint np_random_rand).
Notation sampled := (sampled (R := R) randint).

Lemma cv_candidate_cases trl tel best c s best' s' :
  candidate_step trl tel best c s = Ok (best', s') ->
  best' = best \/
  exists2 test_rmse, test_rmse < best_rmse best & best' = improved best c test_rmse.
Proof.
rewrite /cv_candidate; case: c => [[[nf w] lm] lu] Hb.
have [rmse_list [s1 [_]]] := rand_bind_ok Hb.
case: ifP => Hlt [<- _]; [right|by left].
by exists (np_mean rmse_list).
Qed.

Lemma cv_inv_init (cs : seq (candidate R)) : cv_inv cs cv_init.
Proof. by split. Qed.

Lemma cv_loop_inv trl tel cs best s best' s' :
  cv_inv cs best -> loop trl tel best cs s = Ok (best', s') -> cv_inv cs best'.
Proof.
move=> Hinv Hloop.
pose I (b : cv_state R) (l : seq (candidate R)) :=
  {subset l <= cs} /\ cv_inv cs b.
suff [] : I best' [::] by [].
apply: (foldR_inv (I := I) _ _ Hloop); last by split.
move=> b c l s1 b' s2 [Hsub [Hlu [Hle Hb]]] /cv_candidate_cases[->|].
  by split=> // x Hx; apply: Hsub; rewrite inE Hx orbT.
case=> rmse Hlt ->; split; first by move=> x Hx; apply: Hsub; rewrite inE Hx orbT.
split=> //=; split; first by apply: ltW; apply: lt_le_trans Hlt Hle.
split; first exact: lt_le_trans Hlt Hle.
by exists c => //; apply: Hsub; rewrite mem_head.
Qed.

Lemma np_random_choice_total (T : Type) (a : seq T) (k : nat) s :
  (0 < size a)%N ->
  exists r s', [/\ np_random_choice randint a (Posz k) s = Ok (r, s')
                 & size r = k].
Proof.
case: a => [|x a] // _; exists (draws randint x a k s).1, (draws randint x a k s).2.
by split; rewrite ?size_draws //=; case: (draws _ _ _ _ _).
Qed.

Lemma size_linspace (start stop : R) num : size (linspace start stop num) = num.
Proof. by rewrite /linspace size_map size_iota. Qed.

Lemma split_for_cv_size (train : ratings) p k s trl tel s' :
  split_for_cv randint train p k s = Ok ((trl, tel), s') ->
  size trl = k /\ size tel = k.
Proof.
rewrite /split_for_cv => Hloop.
pose I (lists : seq ratings * seq ratings) (l : seq nat) :=
  (size lists.1 + size l = k)%N /\ (size lists.2 + size l = k)%N.
suff [] : I (trl, tel) [::] by rewrite /= !addn0.
apply: (foldR_inv (I := I) _ _ Hloop); last by rewrite /I /= size_iota.
move=> [l1 l2] x l s1 acc' s2 [/= H1 H2] Hb.
have [tt [s3 [_ [<- _]]]] := rand_bind_ok Hb.
by rewrite /I /= !size_rcons !addSnnS.
Qed.

Lemma sampled_exists s : exists cs s4, sampled s cs s4.
Proof.
have Hm : (0 < size (@movies_range R))%N by rewrite size_linspace.
have Hu : (0 < size (@user_range R))%N by rewrite size_linspace.
have Hw : (0 < size (@weight_range R))%N by rewrite size_linspace.
have Hf : (0 < size (features_num_range R))%N.
  by rewrite /features_num_range size_map size_linspace.
have [lms [s1 [H1 _]]] := np_random_choice_total 60 s Hm.
have [lus [s2 [H2 _]]] := np_random_choice_total 60 s1 Hu.
have [nfs [s3 [H3 _]]] := np_random_choice_total 60 s2 Hf.
have [ws [s4 [H4 _]]] := np_random_choice_total 60 s3 Hw.
by exists (zip4 nfs ws lms lus), s4, lms, lus, nfs, ws, s1, s2, s3.
Qed.

Lemma sampled_size s cs s4 : sampled s cs s4 -> size cs = 60%N.
Proof.
case=> lms [lus [nfs [ws [s1 [s2 [s3 [H1 H2 H3 H4 ->]]]]]]].
apply: size_zip4.
- exact: np_random_choice_size H3.
- exact: np_random_choice_size H4.
- exact: np_random_choice_size H1.
- exact: np_random_choice_size H2.
Qed.

Lemma sampled_user_range s cs s4 c :
  sampled s cs s4 -> c \in cs -> c.2 \in user_range.
Proof.
case=> lms [lus [nfs [ws [s1 [s2 [s3 [H1 H2 H3 H4 ->]]]]]]] /mem_zip_r.
exact: np_random_choice_mem H2 _.
Qed.

Lemma search_sampled (train : ratings) s cs s4 :
  sampled s cs s4 ->
  search train s =
  (lists <~ split_for_cv randint train 5%:R^-1 5 ;;
   best <~ loop lists.1 lists.2 cv_init cs ;;
   cv_return best) s4.
Proof.
case=> lms [lus [nfs [ws [s1 [s2 [s3 [H1 H2 H3 H4 ->]]]]]]].
rewrite /cv_ALS_random_search.
rewrite (rand_bind_step _ H1) (rand_bind_step _ H2) (rand_bind_step _ H3).
rewrite (rand_bind_step _ H4) /rand_bind.
by case: (split_for_cv _ _ _ _ _) => [[[trl tel] s5]|].
Qed.

End CvTheory.

Section SingularTheory.
Variable R : realFieldType.



Variables num_users num_movies num_features : nat.
Variable train : 'M[R]_(num_users, num_movies).


End SingularTheory.

Section AlsRaise.
Variable R : realFieldType.
Variable np_sqrt : R -> R.
Variable rng : Type.
Variable np_random_rand : forall m n : nat, rng -> 'M[R]_(m, n) * rng.
Variables num_users num_movies num_features : nat.
Variable train : 'M[R]_(num_users, num_movies).

Notation als lm lu w it :=
  (ALS np_sqrt num_features train np_random_rand lm lu w it).

Lemma ALS_ok lm lu w iterations s :
  0 < lm -> 0 < lu -> nonzero train != [::] -> is_ok (als lm lu w iterations s).
Proof.
move=> Hm Hu Hnz; rewrite /ALS; case: (ALS_init _ _ _ _ _ _) => st0 s'.
have := ALS_while_ok np_sqrt iterations st0 Hm Hu Hnz.
by case: (ALS_while _ _ _ _ _ _).
Qed.

Lemma ALS_raise_body lm lu w iterations s e :
  (forall st : als_state R num_users num_movies num_features,
     ALS_body np_sqrt train lm lu st = Raise e) ->
  als lm lu w iterations.+1 s = Raise e.
Proof.
move=> Hb; rewrite /ALS; case: (ALS_init _ _ _ _ _ _) => st0 s' /=.
by rewrite Hb.
Qed.

Lemma ALS_empty lm lu w iterations s :
  nonzero train = [::] -> als lm lu w iterations.+1 s = Raise ZeroDivisionError.
Proof. by move=> Hnz; apply: ALS_raise_body => st; apply: ALS_body_nil. Qed.


Lemma ALS_raise lm lu w iterations s e :
  als lm lu w iterations s = Raise e ->
  e = LinAlgError \/ e = ZeroDivisionError /\ nonzero train = [::].
Proof.
rewrite /ALS; case: (ALS_init _ _ _ _ _ _) => st0 s'.
case E: (ALS_while _ _ _ _ _ _) => [st|e'] //= [<-].
exact: ALS_while_raise E.
Qed.

End AlsRaise.

Section SearchTheory.
Variable R : archiRealFieldType.
Variable np_sqrt : R -> R.
Variable rng : Type.
Variable randint : forall n : nat, rng -> 'I_n.+1 * rng.
Variable np_random_rand : forall m n : nat, rng -> 'M[R]_(m, n) * rng.
Variables num_rows num_cols : nat.
Notation ratings := 'M[R]_(num_rows, num_cols).
Implicit Types (trl tel : seq ratings) (best : cv_state R) (c : candidate R).

Notation candidate_step := (cv_candidate np_sqrt np_random_rand).
Notation loop := (cv_loop np_sqrt np_random_rand).
Notation search := (cv_ALS_random_search np_sqrt randint np_random_rand).
Notation fold_step := (cv_fold np_sqrt np_random_rand).
Notation rmse_list := (cv_rmse_list np_sqrt np_random_rand).

Lemma nonzero0 (m n : nat) : nonzero (0 : 'M[R]_(m, n)) = [::].
Proof. by apply/eqP/nonzero_nilP => u j; rewrite mxE. Qed.

Lemma cv_fold_raise c (tr te : ratings) s e :
  ALS np_sqrt c.1.1.1 tr np_random_rand c.1.2 c.2 c.1.1.2 50 s = Raise e ->
  fold_step c (tr, te) s = Raise e.
Proof.
case: c => [[[nf w] lm] lu] /= H; rewrite /cv_fold.
exact: rand_bind_raise.
Qed.

Lemma cv_rmse_list_raise c (fs1 : seq (ratings * ratings)) fold fs2 s acc s1 e :
  rmse_list c fs1 s = Ok (acc, s1) -> fold_step c fold s1 = Raise e ->
  rmse_list c (fs1 ++ fold :: fs2) s = Raise e.
Proof.
move=> H1 H2; apply: foldR_raise H1 _.
exact: rand_bind_raise.
Qed.

Lemma cv_candidate_raise trl tel best c s e :
  rmse_list c (zip trl tel) s = Raise e ->
  candidate_step trl tel best c s = Raise e.
Proof.
case: c => [[[nf w] lm] lu] H; rewrite /cv_candidate.
exact: rand_bind_raise.
Qed.

Lemma cv_loop_raise trl tel best cs1 c cs2 s best1 s1 e :
  loop trl tel best cs1 s = Ok (best1, s1) ->
  candidate_step trl tel best1 c s1 = Raise e ->
  loop trl tel best (cs1 ++ c :: cs2) s = Raise e.
Proof. exact: foldR_raise. Qed.

Lemma search_raise (train : ratings) s cs s4 trl tel s5 e :
  sampled randint s cs s4 ->
  split_for_cv randint train 5%:R^-1 5 s4 = Ok ((trl, tel), s5) ->
  loop trl tel cv_init cs s5 = Raise e ->
  search train s = Raise e.
Proof.
move=> Hs Hsplit Hloop; rewrite (search_sampled _ _ _ Hs).
rewrite (rand_bind_step _ Hsplit) /=.
exact: rand_bind_raise.
Qed.


Lemma split_for_cv_empty (train : ratings) p s :
  nonzero train = [::] ->
  split_for_cv randint train p 5 s = Ok ((nseq 5 0, nseq 5 0), s).
Proof. by move=> Hnz; rewrite /split_for_cv /nonzero_columns Hnz. Qed.

Lemma search_empty (train : ratings) s :
  nonzero train = [::] -> search train s = Raise ZeroDivisionError.
Proof.
move=> Hnz; have [cs [s4 Hs]] := sampled_exists R randint s.
apply: (search_raise Hs (split_for_cv_empty _ _ Hnz)).
have := sampled_size Hs; case: cs {Hs} => [|c cs] // _.
apply: (@cv_loop_raise _ _ _ [::] c cs _ cv_init s4); first by [].
apply: cv_candidate_raise.
apply: (@cv_rmse_list_raise c [::] (0, 0) _ s4 [::] s4); first by [].
by apply: cv_fold_raise; apply: ALS_empty; apply: nonzero0.
Qed.

End SearchTheory.

Section RandTotal.
Variable rng : Type.

(** A loop whose body returns and keeps an invariant returns, with the
    invariant. *)
Lemma foldR_total (A B : Type) (f : B -> A -> rand rng B)
    (I : B -> seq A -> Prop) acc l s :
  (forall acc x l' s, I acc (x :: l') ->
     exists acc' s', f acc x s = Ok (acc', s') /\ I acc' l') ->
  I acc l -> exists res s', foldR f acc l s = Ok (res, s') /\ I res [::].
Proof.
move=> Hstep; elim: l acc s => [|x l IH] acc s HI; first by exists acc, s.
have [acc' [s1 [Hf HI']]] := Hstep acc x l s HI.
have [res [s2 [Hres HIres]]] := IH acc' s1 HI'.
by exists res, s2; split=> //; rewrite foldR_cons (rand_bind_step _ Hf).
Qed.

End RandTotal.

Section FractionTheory.
Variable R : archiRealFieldType.

Lemma py_int_fifth (n : nat) :
  (5 <= n)%N ->
  exists2 m, py_int (n%:R * 5%:R^-1 : R) = Posz m & (0 < m < n)%N.
Proof.
move=> Hn; set x : R := _ * _.
have H5 : (0 : R) < 5%:R by rewrite ltr0n.
have Hx1 : 1 <= x by rewrite /x ler_pdivlMr // mul1r ler_nat.
have Hx0 : 0 <= x by apply: le_trans Hx1.
have Hn0 : (0 : R) < n%:R by rewrite ltr0n (leq_trans _ Hn).
have Hxn : x < n%:R.
  by rewrite /x ltr_pdivrMr // ltr_pMr // (_ : 1 = 1%:R) // ltr_nat.
rewrite /py_int Hx0.
have Hf1 : 1 <= Num.floor x by rewrite floor_ge_int.
case Ef: (Num.floor x) Hf1 => [m|m] // Hm; exists m => //.
rewrite -[(0 < m)%N]/(1 <= Posz m) Hm /=.
have := floor_le x; rewrite Ef => Hle.
by rewrite -(ltr_nat R); apply: le_lt_trans Hxn; move: Hle; rewrite -pmulrn.
Qed.

End FractionTheory.

Section FoldsTheory.
Variable R : archiRealFieldType.
Variable rng : Type.
Variable randint : forall n : nat, rng -> 'I_n.+1 * rng.
Variables num_rows num_cols : nat.
Notation ratings := 'M[R]_(num_rows, num_cols).
Variable train : ratings.

(** The loop over the movies in [split_for_cv]. *)
Let inner (p : R) :=
  foldR (fun (tt : ratings * ratings) movie =>
           let: (train_tr, test_tr) := tt in
           let row := column_nonzero train movie in
           selects <~ np_random_choice randint row
                        (py_int ((size row)%:R * p)) ;;
           let residual := [seq i <- row | i \notin selects] in
           rret (assign_col train_tr train residual movie,
                 assign_col test_tr train selects movie)).

Lemma has_entry_nonzero (A : ratings) i j : A i j != 0 -> nonzero A != [::].
Proof.
by move=> HA; apply/negP => /nonzero_nilP /(_ i j) /eqP; apply/negP.
Qed.

Variable j : 'I_num_cols.
Hypothesis Hj : (5 <= size (column_nonzero train j))%N.

Lemma column_in_nonzero_columns : j \in nonzero_columns train.
Proof.
have : (0 < size (column_nonzero train j))%N by apply: leq_trans Hj.
rewrite /column_nonzero size_filter -has_count => /hasP[i _ Hi].
rewrite /nonzero_columns mem_undup; apply/mapP; exists (i, j) => //.
by rewrite mem_nonzero.
Qed.

Lemma split_inner_parts tt0 l s tr te s' :
  inner 5%:R^-1 tt0 l s = Ok ((tr, te), s') ->
  j \in l \/ ((exists i, tt0.1 i j != 0) /\ (exists i, tt0.2 i j != 0)) ->
  (exists i, tr i j != 0) /\ (exists i, te i j != 0).
Proof.
move=> Hloop H0.
pose I (tt : ratings * ratings) (rem : seq 'I_num_cols) :=
  j \in rem \/ ((exists i, tt.1 i j != 0) /\ (exists i, tt.2 i j != 0)).
suff : I (tr, te) [::] by case.
apply: (foldR_inv (I := I) _ _ Hloop); last exact: H0.
move=> [tr0 te0] movie rest s1 acc' s2 HI Hb.
have [selects [s3 [Hsel [<- _]]]] := rand_bind_ok Hb.
case: (eqVneq movie j) => [Hm|Hm]; last first.
  have Hjm : (j == movie) = false by rewrite eq_sym; apply/negbTE.
  case: HI => [|[[i1 H1] [i2 H2]]].
    by rewrite inE Hjm /=; left.
  by right; split; [exists i1|exists i2]; rewrite mxE Hjm.
right; move: Hsel; rewrite Hm; set row := column_nonzero train j.
have [m -> /andP[Hm0 Hmn]] := py_int_fifth R Hj => Hsel.
have Hsz := np_random_choice_size Hsel.
have Hsub := np_random_choice_mem Hsel.
have Hrow : forall i, i \in row -> train i j != 0.
  by move=> i; rewrite mem_filter => /andP[].
split.
  have : has (predC (mem selects)) row.
    rewrite has_predC; apply/negP => /allP Hall.
    have := uniq_leq_size (filter_uniq _ (enum_uniq _)) Hall.
    by rewrite Hsz leqNgt Hmn.
  case/hasP => i Hi /= Hni; exists i.
  by rewrite mxE eqxx mem_filter Hni Hi /= Hrow.
case: selects Hsz Hsub {Hsel} => [|i0 sel] Hsz Hsub; first by rewrite -Hsz in Hm0.
exists i0; rewrite mxE eqxx mem_head /=.
by apply: Hrow; apply: Hsub; rewrite mem_head.
Qed.

Lemma split_for_cv_parts k s trl tel s' :
  split_for_cv randint train 5%:R^-1 k s = Ok ((trl, tel), s') ->
  size trl = size tel /\
  all (fun fold : ratings * ratings =>
         (nonzero fold.1 != [::]) && (nonzero fold.2 != [::])) (zip trl tel).
Proof.
rewrite /split_for_cv => Hloop.
pose I (lists : seq ratings * seq ratings) (l : seq nat) :=
  size lists.1 = size lists.2 /\
  all (fun fold : ratings * ratings =>
         (nonzero fold.1 != [::]) && (nonzero fold.2 != [::]))
      (zip lists.1 lists.2).
suff : I (trl, tel) [::] by [].
apply: (foldR_inv (I := I) _ _ Hloop); last by [].
move=> [l1 l2] x l s1 acc' s2 [/= Hsz Hall] Hb.
have [[tr te] [s3 [Hin [<- _]]]] := rand_bind_ok Hb.
have [[i1 H1] [i2 H2]] :=
  split_inner_parts Hin (or_introl column_in_nonzero_columns).
split; rewrite /= ?size_rcons ?Hsz // zip_rcons // all_rcons Hall andbT /=.
by rewrite (has_entry_nonzero H1) (has_entry_nonzero H2).
Qed.

End FoldsTheory.

Section ZipTheory2.
Lemma mem_zip_l (S T : eqType) (s : seq S) (t : seq T) p :
  p \in zip s t -> p.1 \in s.
Proof.
elim: s t => [|x s IH] [|y t] //=.
by rewrite !inE => /orP[/eqP -> /=|/IH ->]; rewrite ?eqxx ?orbT.
Qed.
End ZipTheory2.

Section MeanTheory.
Variable R : realFieldType.

Lemma np_mean_lt (R' : archiRealFieldType) (l : seq R') (B : R') :
  l != [::] -> all (fun e => e < B) l -> np_mean l < B.
Proof.
move=> Hl Hall; rewrite /np_mean.
have Hn : (0 : R') < (size l)%:R by rewrite ltr0n lt0n size_eq0.
rewrite ltr_pdivrMr // mulrC.
elim: l Hl Hall {Hn} => [|x [|y l] IH] // _ /=.
  by rewrite big_seq1 mul1r andbT.
case/andP=> Hx Hall; rewrite big_cons -natr1 mulrDl mul1r addrC.
by apply: ltrD => //; apply: IH.
Qed.

End MeanTheory.

Section SearchOk.
Variable R : archiRealFieldType.
Variable np_sqrt : R -> R.
Variable rng : Type.
Variable randint : forall n : nat, rng -> 'I_n.+1 * rng.
Variable np_random_rand : forall m n : nat, rng -> 'M[R]_(m, n) * rng.
Variables num_rows num_cols : nat.
Notation ratings := 'M[R]_(num_rows, num_cols).
Implicit Types (trl tel : seq ratings) (best : cv_state R) (c : candidate R).

Notation candidate_step := (cv_candidate np_sqrt np_random_rand).
Notation loop := (cv_loop np_sqrt np_random_rand).
Notation search := (cv_ALS_random_search np_sqrt randint np_random_rand).
Notation fold_step := (cv_fold np_sqrt np_random_rand).
Notation rmse_list := (cv_rmse_list np_sqrt np_random_rand).
Notation fold_ok := (@fold_ok R num_rows num_cols).

Hypothesis sqrt_bound : forall x, np_sqrt x < 100%:R.

Lemma sampled_movies_range s cs s4 c :
  sampled randint s cs s4 -> c \in cs -> c.1.2 \in movies_range.
Proof.
case=> lms [lus [nfs [ws [s1 [s2 [s3 [H1 H2 H3 H4 ->]]]]]]] /mem_zip_l/mem_zip_r.
exact: np_random_choice_mem H1 _.
Qed.

Lemma cv_fold_ok c fold s :
  usable c -> fold_ok fold ->
  exists e s', fold_step c fold s = Ok (e, s') /\ e < 100%:R.
Proof.
case: c => [[[nf w] lm] lu] [/= Hm Hu]; case: fold => tr te /andP[/= Htr Hte].
rewrite /cv_fold.
have := ALS_ok np_sqrt np_random_rand nf w 50 s Hm Hu Htr.
case E: (ALS _ _ _ _ _ _ _ _ _) => [[[uf mf] s']|] // _.
exists (np_sqrt ((\sum_(p <- nonzero te)
                   (te p.1 p.2 - \sum_f mf f p.2 * uf f p.1) ^+ 2)
                / (size (nonzero te))%:R)), s'; split=> //.
by rewrite (rand_bind_step _ E) /rlift compute_error_sum.
Qed.

Lemma cv_rmse_list_ok c folds s :
  usable c -> all fold_ok folds ->
  exists l s', [/\ rmse_list c folds s = Ok (l, s'), size l = size folds
                 & all (fun e => e < 100%:R) l].
Proof.
move=> Hc Hfolds.
pose I (acc : seq R) (rem : seq (ratings * ratings)) :=
  [/\ all fold_ok rem, (size acc + size rem = size folds)%N
    & all (fun e => e < 100%:R) acc].
have [l [s' [Hl [_ Hsz Hall]]]] :
  exists res s', rmse_list c folds s = Ok (res, s') /\ I res [::].
  apply: (foldR_total (I := I)); last by split.
  move=> acc fold rem s1 [/= /andP[Hf Hrem] Hsz Hacc].
  have [e [s2 [He Hlt]]] := cv_fold_ok s1 Hc Hf.
  exists (rcons acc e), s2; split; first by rewrite (rand_bind_step _ He).
  by split=> //; rewrite ?size_rcons ?addSnnS // all_rcons Hlt.
by exists l, s'; split=> //; rewrite -Hsz addn0.
Qed.

Lemma cv_candidate_ok trl tel best c s :
  usable c -> all fold_ok (zip trl tel) -> zip trl tel != [::] ->
  exists best' s',
    [/\ candidate_step trl tel best c s = Ok (best', s'),
        bset_lambda_user best -> bset_lambda_user best'
      & best_rmse best = 100%:R -> bset_lambda_user best'].
Proof.
move=> Hc Hfolds Hne.
have [l [s' [Hl Hsz Hall]]] := cv_rmse_list_ok s Hc Hfolds.
have Hmean : np_mean l < 100%:R.
  by apply: np_mean_lt => //; rewrite -size_eq0 Hsz size_eq0.
case: c Hc Hl => [[[nf w] lm] lu] Hc Hl.
rewrite /cv_candidate (rand_bind_step _ Hl).
case: ifP => Hlt; first by eexists; eexists; split; first by [].
eexists; eexists; split; first by [].
  by [].
by move=> Hb; rewrite Hb Hmean in Hlt.
Qed.

Lemma cv_loop_ok trl tel best (cs : seq (candidate R)) s :
  (forall c, c \in cs -> usable c) ->
  all fold_ok (zip trl tel) -> zip trl tel != [::] ->
  bset_lambda_user best \/ (best_rmse best = 100%:R /\ cs != [::]) ->
  exists best' s',
    loop trl tel best cs s = Ok (best', s') /\ bset_lambda_user best'.
Proof.
move=> Hcs Hfolds Hne H0.
pose I (b : cv_state R) (rem : seq (candidate R)) :=
  (forall c, c \in rem -> usable c) /\
  (bset_lambda_user b \/ (best_rmse b = 100%:R /\ rem != [::])).
have [best' [s' [Hl [_ Hb]]]] :
  exists res s', loop trl tel best cs s = Ok (res, s') /\ I res [::].
  apply: (foldR_total (I := I)); last by split.
  move=> b c rem s1 [Hrem Hb].
  have Hc : usable c by apply: Hrem; rewrite mem_head.
  have [b' [s2 [Hstep H1 H2]]] := cv_candidate_ok b s1 Hc Hfolds Hne.
  exists b', s2; split=> //; split.
    by move=> c' Hc'; apply: Hrem; rewrite inE Hc' orbT.
  by left; case: Hb => [/H1|[/H2]].
by exists best', s'; split=> //; case: Hb => [|[]].
Qed.

Lemma search_ok (train : ratings) (j : 'I_num_cols) s :
  (5 <= size (column_nonzero train j))%N ->
  exists res s', search train s = Ok (res, s').
Proof.
move=> Hj; have [cs [s4 Hs]] := sampled_exists R randint s.
rewrite (search_sampled _ _ _ Hs).
have Hsplit_ok : is_ok (split_for_cv randint train 5%:R^-1 5 s4).
  rewrite /split_for_cv; apply: foldR_ok => -[l1 l2] k s1 _.
  rewrite /rand_bind.
  set inner := foldR _ _ _ _.
  have : is_ok inner.
    apply: foldR_ok => -[tr te] movie s2 _; rewrite /rand_bind.
    have Hp : (0 : R) <= 5%:R^-1 by rewrite invr_ge0 ler0n.
    have := choice_fraction_ok randint (column_nonzero train movie) s2 Hp.
    by case: (np_random_choice _ _ _ _) => [[sel s3]|].
  by case: inner => [[[tr te] s2]|].
case Esplit: (split_for_cv _ _ _ _ _) Hsplit_ok => [[[trl tel] s5]|] // _.
have [Hsz Hfolds] := split_for_cv_parts Hj Esplit.
have [Htrl Htel] := split_for_cv_size Esplit.
have Hne : zip trl tel != [::].
  by rewrite -size_eq0 size_zip Htrl Htel.
have Hcs : forall c, c \in cs -> usable c.
  move=> c Hc; split.
    exact: movies_range_gt0 (sampled_movies_range Hs Hc).
  exact: user_range_gt0 (sampled_user_range Hs Hc).
have Hcs0 : cs != [::] by rewrite -size_eq0 (sampled_size Hs).
have [best [s6 [Hloop Hb]]] :=
  cv_loop_ok s5 Hcs Hfolds Hne (or_intror (conj (erefl : best_rmse cv_init = 100%:R) Hcs0)).
rewrite (rand_bind_step _ Esplit) /= (rand_bind_step _ Hloop) /cv_return.
by case: (bset_lambda_user best) Hb => // bset _; eexists; eexists.
Qed.

End SearchOk.

Section Claims.
Variable R : realFieldType.
Variable np_sqrt : R -> R.
Variables num_users num_movies num_features : nat.
Variable train : 'M[R]_(num_users, num_movies).

(** C1. One movie-factor update sets the column of every movie with an
    observed rating to the solution [z] of the regularised normal equation
    [(U_m U_m^T + n_m * lambda_movie * I) z = U_m r_m], where [U_m] gathers
    the factor columns of the users who rated the movie, [r_m] their
    ratings and [n_m] their number; the user-factor update is symmetric
    with [lambda_user]. Both updates return when their regulariser is
    positive. *)
Theorem als_update_normal_equation
    (user_features : 'M[R]_(num_features, num_users))
    (movie_features : 'M[R]_(num_features, num_movies))
    (lambda_movie lambda_user : R) :
  [/\ forall movie_features',
        update_movie_feature train user_features lambda_movie
          (getnnz_axis0 train) (nz_col_rowindices train)
        = Ok movie_features' ->
        forall movie, (exists u, train u movie != 0) ->
        let us := raters train movie in
        normal_equation (take_cols user_features us)
          (\col_j train (tnth (in_tuple us) j) movie)
          ((size us)%:R * lambda_movie) (col movie movie_features'),
      forall user_features',
        update_user_feature train movie_features lambda_user
          (getnnz_axis1 train) (nz_row_colindices train)
        = Ok user_features' ->
        forall user, (exists j, train user j != 0) ->
        let ms := rated_by train user in
        normal_equation (take_cols movie_features ms)
          (\col_j train user (tnth (in_tuple ms) j))
          ((size ms)%:R * lambda_user) (col user user_features'),
      0 < lambda_movie ->
        is_ok (update_movie_feature train user_features lambda_movie
                 (getnnz_axis0 train) (nz_col_rowindices train))
    & 0 < lambda_user ->
        is_ok (update_user_feature train movie_features lambda_user
                 (getnnz_axis1 train) (nz_row_colindices train))].
Proof.
split.
- exact: movie_update_col.
- exact: user_update_col.
- exact: movie_update_ok.
- exact: user_update_ok.
Qed.

Lemma ALS_body_movie lambda_movie lambda_user
    (st st' : als_state R num_users num_movies num_features) :
  ALS_body np_sqrt train lambda_movie lambda_user st = Ok st' ->
  update_movie_feature train (user_features st) lambda_movie
    (getnnz_axis0 train) (nz_col_rowindices train) = Ok (movie_features st').
Proof.
rewrite /ALS_body /=.
case: (update_movie_feature _ _ _ _ _) => [mf'|] //=.
case: (update_user_feature _ _ _ _ _) => [uf'|] //=.
by case: (compute_error _ _ _ _ _) => [e|] //= [<-].
Qed.

(** C2, as the code has it. After the movie-factor update of a pass of
    the loop of [ALS], the factor column of every movie without an observed
    rating is zero, whatever it was before: the update builds the matrix
    from [np.zeros] and fills the columns of the rated movies only. *)
Theorem als_unrated_movie_column_zero lambda_movie lambda_user
    (st st' : als_state R num_users num_movies num_features) :
  ALS_body np_sqrt train lambda_movie lambda_user st = Ok st' ->
  forall movie, ~ (exists u, train u movie != 0) ->
  col movie (movie_features st') = 0.
Proof. by move/ALS_body_movie/movie_update_unrated. Qed.

End Claims.

Lemma ex_train_nonzero : nonzero ex_train != [::].
Proof.
apply/negP => /nonzero_nilP /(_ ord0 ord0).
by rewrite mxE eqxx => /eqP; rewrite pnatr_eq0.
Qed.

Lemma ex_unrated_none : ~ (exists u, ex_train u ex_unrated != 0).
Proof. by case=> u; rewrite mxE /= ?eqxx. Qed.

Lemma als_unrated_movie_column_zero_witness :
  exists st', ALS_body ex_sqrt ex_train 1 1 ex_state = Ok st' /\
              col ex_unrated (movie_features st') = 0.
Proof.
have := ALS_body_ok ex_sqrt ex_state (ltr01 : 0 < 1 :> rat) ltr01 ex_train_nonzero.
case E: (ALS_body _ _ _ _ _) => [st'|] // _; exists st'; split=> //.
exact: (als_unrated_movie_column_zero E ex_unrated_none).
Defined.

(** C2 as stated fails: a movie without ratings whose factor column is
    all ones before the pass does not keep that column. *)
Lemma als_unrated_movie_column_not_kept :
  exists st', [/\ ALS_body ex_sqrt ex_train 1 1 ex_state = Ok st',
                  ~ (exists u, ex_train u ex_unrated != 0)
                & col ex_unrated (movie_features st')
                  != col ex_unrated (movie_features ex_state)].
Proof.
have := ALS_body_ok ex_sqrt ex_state (ltr01 : 0 < 1 :> rat) ltr01 ex_train_nonzero.
case E: (ALS_body _ _ _ _ _) => [st'|] // _; exists st'; split=> //.
  exact: ex_unrated_none.
rewrite (movie_update_unrated (ALS_body_movie E) ex_unrated_none).
apply/negP => /eqP /colP /(_ ord0); rewrite !mxE => /eqP.
by rewrite eq_sym oner_eq0.
Qed.

(** C1 at a concrete input: one user, the first of two movies rated. *)
Lemma als_update_normal_equation_witness :
  exists mf',
    update_movie_feature ex_train (const_mx 1 : 'M[rat]_(1, 1)) 1
      (getnnz_axis0 ex_train) (nz_col_rowindices ex_train) = Ok mf' /\
    let us := raters ex_train ord0 in
    normal_equation (take_cols (const_mx 1 : 'M[rat]_(1, 1)) us)
      (\col_j ex_train (tnth (in_tuple us) j) ord0)
      ((size us)%:R * 1) (col ord0 mf').
Proof.
have [H1 _ H3 _] :=
  als_update_normal_equation ex_train (const_mx 1 : 'M[rat]_(1, 1))
    (const_mx 1 : 'M[rat]_(1, 2)) 1 1.
have := H3 ltr01.
case E: (update_movie_feature _ _ _ _ _) => [mf'|] // _; exists mf'; split=> //.
apply: H1 E _ _; exists ord0.
by rewrite mxE eqxx pnatr_eq0.
Defined.

Section Claims2.
Variable R : realFieldType.
Variable np_sqrt : R -> R.
Variable rng : Type.
Variable np_random_rand : forall m n : nat, rng -> 'M[R]_(m, n) * rng.
Variables num_users num_movies num_features : nat.
Variable train : 'M[R]_(num_users, num_movies).

(** C7. [compute_error] raises [ZeroDivisionError] on the empty list of
    pairs; on a non-empty list it returns the square root of the mean,
    over the supplied (row, col) pairs, of the squared difference between
    [data[row, col]] and the dot product of the movie and user factor
    columns. *)
Theorem compute_error_rmse (data : 'M[R]_(num_users, num_movies))
    (movie_features : 'M[R]_(num_features, num_movies))
    (user_features : 'M[R]_(num_features, num_users)) :
  compute_error np_sqrt data movie_features user_features [::]
  = Raise ZeroDivisionError /\
  forall p nz,
    compute_error np_sqrt data movie_features user_features (p :: nz)
    = Ok (np_sqrt ((\sum_(q <- p :: nz)
                      (data q.1 q.2
                       - \sum_f movie_features f q.2 * user_features f q.1) ^+ 2)
                   / (size (p :: nz))%:R)).
Proof. by split=> // p nz; rewrite compute_error_sum. Qed.

(** C3, as the code has it. [ALS] always terminates: a run that returns
    gives the factors reached after [r <= iterations] passes of the loop,
    no pass before the last has a change of the RMSE below [1e-5], and
    [r < iterations] only when the last pass has one; a run that raises
    raises [LinAlgError] from a singular solve, or [ZeroDivisionError] when
    [train] has no observed rating; a run returns whenever both
    regularisers are positive and [train] has an observed rating. *)
Theorem als_terminates (lambda_movie lambda_user max_weight : R)
    (iterations : nat) (s : rng) :
  let st0 := (ALS_init num_users num_movies num_features np_random_rand
                max_weight s).1 in
  let rounds := ALS_rounds np_sqrt train lambda_movie lambda_user in
  let run := ALS np_sqrt num_features train np_random_rand lambda_movie
               lambda_user max_weight iterations s in
  [/\ forall uf mf s', run = Ok ((uf, mf), s') ->
        exists r st,
          [/\ (r <= iterations)%N, rounds r st0 = Ok st,
              uf = user_features st & mf = movie_features st] /\
          (forall j stj, (0 < j < r)%N -> rounds j st0 = Ok stj ->
                         ~~ (change stj < stop_criterion)) /\
          ((r < iterations)%N ->
           (0 < r)%N /\ change st < stop_criterion),
      forall e, run = Raise e ->
        e = LinAlgError \/
        e = ZeroDivisionError /\ forall u m, train u m = 0
    & 0 < lambda_movie -> 0 < lambda_user ->
      (exists u m, train u m != 0) -> is_ok run].
Proof.
move=> st0 rounds run; rewrite /run /rounds /st0 {run rounds st0}; split.
- move=> uf mf s'; rewrite /ALS.
  case: (ALS_init num_users num_movies num_features np_random_rand
           max_weight s) => st0' s0 /=.
  case E: (ALS_while _ _ _ _ _ _) => [st|] //= [<- <- _].
  have [r [st' [[Hr Hst' Hu Hm He] [Hj Hlt]]]] := ALS_while_rounds E.
  exists r, st'; split=> //; split=> // /Hlt[H0 Hc]; split=> //.
  by move: Hc; rewrite /change He.
- move=> e He; case: (ALS_raise He) => [->|[-> Hnz]]; [by left|right; split=> //].
  by apply/nonzero_nilP; rewrite Hnz.
- move=> Hm Hu [u [m Hum]]; apply: ALS_ok => //.
  by apply/negP => /nonzero_nilP /(_ u m) /eqP; apply/negP.
Qed.

End Claims2.

(** C3 as stated fails: on a training matrix without ratings [ALS] raises
    [ZeroDivisionError] in its first pass instead of returning factors. *)
Lemma als_raises_on_empty_train :
  ALS ex_sqrt 1 (0 : 'M[rat]_(1, 1)) ex_rand 1 1 1 50 tt
  = Raise ZeroDivisionError.
Proof. by apply: ALS_empty; apply: nonzero0. Qed.

(** C3 at a concrete input: the run returns after at most 50 passes. *)
Lemma als_terminates_witness :
  exists uf mf r st,
    [/\ ALS ex_sqrt 1 ex_train ex_rand 1 1 1 50 tt = Ok ((uf, mf), tt),
        (r <= 50)%N,
        ALS_rounds ex_sqrt ex_train 1 1 r
          (ALS_init 1 2 1 ex_rand 1 tt).1 = Ok st
      & uf = user_features st /\ mf = movie_features st].
Proof.
have [H1 _ H3] := als_terminates ex_sqrt ex_rand 1 ex_train 1 1 1 50 tt.
have Hex : exists u m, ex_train u m != 0.
  by exists ord0, ord0; rewrite mxE eqxx pnatr_eq0.
have := H3 ltr01 ltr01 Hex.
case E: (ALS _ _ _ _ _ _ _ _ _) => [[[uf mf] []]|] // _.
have [r [st [[Hr Hst Hu Hm] _]]] := H1 _ _ _ E.
by exists uf, mf, r, st.
Defined.

Section Claims3.
Variable R : archiRealFieldType.
Variable rng : Type.
Variable randint : forall n : nat, rng -> 'I_n.+1 * rng.
Variables num_rows0 num_cols0 : nat.
Variable ratings : 'M[R]_(num_rows0, num_cols0).
Variable num_users_per_movie : 'I_num_cols0 -> nat.
Variable num_movies_per_user : 'I_num_rows0 -> nat.
Variable min_num_ratings : nat.

(** C4. [split_data] returns for every non-negative [p_test]; whenever it
    returns, no (row, col) entry is observed in both [train] and [test],
    and [train.nnz + test.nnz <= ratings.nnz]. *)
Theorem split_data_disjoint (p_test : R) (s : rng) :
  let run := split_data randint ratings num_users_per_movie
               num_movies_per_user min_num_ratings p_test s in
  (0 <= p_test -> is_ok run) /\
  forall valid train test s', run = Ok ((valid, train, test), s') ->
    (forall p, ~~ ((p \in nonzero train) && (p \in nonzero test))) /\
    (nnz train + nnz test <= nnz ratings)%N.
Proof.
move=> run; split; first exact: split_data_ok.
move=> valid train test s' Hrun; have [_ Hinv] := split_data_inv Hrun; split.
  by move=> [i j]; rewrite !mem_nonzero /=; case: Hinv => _ /(_ i j)[].
apply: leq_trans (split_inv_nnz Hinv) _.
exact: valid_ratings_nnz.
Qed.

End Claims3.

(** C4 at a concrete input: two users, two movies, [p_test = 1/2]. *)
Lemma split_data_disjoint_witness :
  exists valid train test s',
    [/\ split_data ex_randint ex_ratings (fun=> 2%N) (fun=> 2%N) 0 2%:R^-1 tt
        = Ok ((valid, train, test), s'),
        forall p, ~~ ((p \in nonzero train) && (p \in nonzero test))
      & (nnz train + nnz test <= nnz ex_ratings)%N].
Proof.
have [H1 H2] :=
  split_data_disjoint ex_randint ex_ratings (fun=> 2%N) (fun=> 2%N) 0
    2%:R^-1 tt.
have Hp : (0 : rat) <= 2%:R^-1 by rewrite invr_ge0 ler0n.
move: (H1 Hp) H2.
case: (split_data _ _ _ _ _ _ _) => [[[[valid train] test] s']|] // _ H2.
have [Hd Hn] := H2 _ _ _ _ erefl.
by exists valid, train, test, s'.
Defined.

Section Claims4.
Variable R : realFieldType.

(** C9, as the code has it. [preprocess_data] raises on no record at all;
    otherwise it returns exactly when every record has
    [row >= 1 - max_row] and [col >= 1 - max_col], the largest indices
    giving the shape: an index below that bound is refused, a non-positive
    index above it counts from the end and is accepted. *)
Theorem preprocess_data_range :
  preprocess_data (R := R) [::] = Raise ValueError /\
  forall (line0 : record R) data,
    let max_row := foldl Order.max line0.1.1 [seq l.1.1 | l <- data] in
    let max_col := foldl Order.max line0.1.2 [seq l.1.2 | l <- data] in
    is_ok (preprocess_data (line0 :: data)) =
    all (fun l : record R =>
           (1 - max_row <= l.1.1) && (1 - max_col <= l.1.2))
        (line0 :: data) /\
    forall A, preprocess_data (line0 :: data) = Ok A ->
              Posz (shape A).1 = max_row /\ Posz (shape A).2 = max_col.
Proof.
split=> // line0 data max_row max_col; split.
  exact: preprocess_data_ok.
exact: preprocess_data_shape.
Qed.

Variable n : nat.
Variable model : Type.
Variables ground_truth_t truth_t : Type.
Variable pd_merge_inner : DataFrame R n -> ground_truth_t -> truth_t.
Variable compute_rmse : DataFrame R n -> truth_t -> R.
Variable OptimizeResult : Type.
Variable sco_minimize : minimize_call R -> OptimizeResult.


End Claims4.

(** C9 as stated fails: a record with row index 0 does not make
    [preprocess_data] fail; its rating is stored in the last row. *)
Lemma preprocess_data_accepts_zero_index :
  has (fun l : record rat => (l.1.1 <= 0) || (l.1.2 <= 0)) ex_records /\
  exists A, [/\ preprocess_data ex_records = Ok A, shape A = (2, 2)%N
             & lil_get A 1 0 = 5%:R].
Proof.
split; first by [].
rewrite /preprocess_data /ex_records /=.
by eexists; split; first by [].
Qed.


Section RandTheory3.
Variable rng : Type.

End RandTheory3.

Section Claims5.
Variable R : archiRealFieldType.
Variable np_sqrt : R -> R.
Variable rng : Type.
Variable randint : forall n : nat, rng -> 'I_n.+1 * rng.
Variable np_random_rand : forall m n : nat, rng -> 'M[R]_(m, n) * rng.
Variables num_rows num_cols : nat.
Notation ratings := 'M[R]_(num_rows, num_cols).
Variable train : ratings.

Notation candidate_step := (cv_candidate np_sqrt np_random_rand).
Notation loop := (cv_loop np_sqrt np_random_rand).
Notation search := (cv_ALS_random_search np_sqrt randint np_random_rand).
Notation fold_step := (cv_fold np_sqrt np_random_rand).
Notation rmse_list := (cv_rmse_list np_sqrt np_random_rand).




End Claims5.

Lemma ex_sqrt_bound x : ex_sqrt x < 100%:R.
Proof.
rewrite /ex_sqrt; apply: (@le_lt_trans _ _ 1); first by rewrite ge_min lexx orbT.
by rewrite ltr1n.
Qed.

Lemma ex_train5_column : (5 <= size (column_nonzero ex_train5 ord0))%N.
Proof.
rewrite /column_nonzero (@eq_filter _ _ predT) ?filter_predT ?size_enum_ord //.
by move=> i; rewrite mxE oner_neq0.
Qed.







(** * Further properties of the code *)

Section CountsTheory.
Variable R : realFieldType.
Variables m n : nat.
Implicit Types A ratings : 'M[R]_(m, n).

Lemma sum_bool_count (T : Type) (P : pred T) (s : seq T) :
  (\sum_(x <- s) P x = count P s)%N.
Proof.
elim: s => [|x s IH] /=; first by rewrite big_nil.
by rewrite big_cons IH.
Qed.

Lemma count_allpairs (S T : Type) (P : pred (S * T)) (s : seq S) (t : seq T) :
  (count P (allpairs pair s t) = \sum_(i <- s) count (fun j => P (i, j)) t)%N.
Proof.
elim: s => [|x s IH] /=; first by rewrite big_nil.
by rewrite count_cat count_map big_cons IH.
Qed.

Lemma nnz_rows A : (nnz A = \sum_i getnnz_axis1 A i)%N.
Proof. by rewrite nnz_count count_allpairs big_enum. Qed.

Lemma nnz_cols A : (nnz A = \sum_j getnnz_axis0 A j)%N.
Proof.
rewrite nnz_rows /getnnz_axis1 /getnnz_axis0.
under eq_bigr do rewrite -sum_bool_count big_enum.
under [RHS]eq_bigr do rewrite -sum_bool_count big_enum.
exact: exchange_big.
Qed.

(** X1. The two arrays of [get_number_per] are the per-movie and per-user
    counts that [getnnz] gives; each of them adds up to the number of
    stored ratings, and no count exceeds the length of its axis. *)
Theorem get_number_per_counts ratings :
  let num_users_per_movie := (get_number_per ratings).1 in
  let num_movies_per_user := (get_number_per ratings).2 in
  [/\ forall j, num_users_per_movie j = getnnz_axis0 ratings j
              /\ (num_users_per_movie j <= m)%N,
      forall i, num_movies_per_user i = getnnz_axis1 ratings i
              /\ (num_movies_per_user i <= n)%N,
      (\sum_j num_users_per_movie j = nnz ratings)%N
    & (\sum_i num_movies_per_user i = nnz ratings)%N].
Proof.
have H0 j : (get_number_per ratings).1 j = getnnz_axis0 ratings j.
  by rewrite /= /getnnz_axis0 -sum_bool_count big_enum.
have H1 i : (get_number_per ratings).2 i = getnnz_axis1 ratings i.
  by rewrite /= /getnnz_axis1 -sum_bool_count big_enum.
move=> c0 c1; split.
- move=> j; rewrite /c0 H0; split=> //.
  by rewrite /getnnz_axis0 (leq_trans (count_size _ _)) // size_enum_ord.
- move=> i; rewrite /c1 H1; split=> //.
  by rewrite /getnnz_axis1 (leq_trans (count_size _ _)) // size_enum_ord.
- by rewrite nnz_cols; apply: eq_bigr => j _; rewrite /c0 H0.
- by rewrite nnz_rows; apply: eq_bigr => i _; rewrite /c1 H1.
Qed.

End CountsTheory.

Section GroupByTheory2.
Variables (T : eqType) (k : nat) (key : T -> 'I_k).

Lemma group_by_sorted (data : seq T) :
  sorted ord_lt [seq g.1 | g <- group_by key data].
Proof. by apply: groupby_sorted; apply: sort_sorted; apply: key_le_total. Qed.

Lemma group_by_mem (data : seq T) k0 :
  has (fun x => key x == k0) data ->
  (k0, [seq x <- data | key x == k0]) \in group_by key data.
Proof.
rewrite -group_by_keys => /mapP[[k1 g] Hin /= Hk].
by rewrite Hk -(group_by_lookup Hin).
Qed.

(** X2. [group_by] returns one group for each key that occurs in the data,
    in increasing order of the keys; the group of a key holds the items
    with that key, all of them and in the order of the data, so that no
    group is empty and the groups together are a rearrangement of the
    data. *)
Theorem group_by_groups (data : seq T) :
  [/\ sorted ord_lt [seq g.1 | g <- group_by key data],
      forall k0 g, ((k0, g) \in group_by key data) =
                   (g != [::]) && (g == [seq x <- data | key x == k0])
    & perm_eq (flatten [seq g.2 | g <- group_by key data]) data].
Proof.
split; first exact: group_by_sorted.
- move=> k0 g; apply/idP/andP => [Hin|[Hne /eqP Hg]].
    have Hg := group_by_lookup Hin; split; last by rewrite Hg.
    have : k0 \in [seq g.1 | g <- group_by key data].
      by apply/mapP; exists (k0, g).
    by rewrite group_by_keys has_filter -Hg.
  by rewrite Hg; apply: group_by_mem; rewrite has_filter -Hg.
- by rewrite /group_by groupby_flatten perm_sort.
Qed.

End GroupByTheory2.

Section IndexGroups.
Variable R : realFieldType.
Variables m n : nat.
Implicit Types A : 'M[R]_(m, n).

(** X3. [build_index_groups] returns the coordinates of the non-zero
    entries, each once; then one group for each row that has a non-zero
    entry, rows increasing, with the columns of the row's non-zero entries
    in increasing order; then the same for the columns. A row or a column
    without non-zero entry has no group. *)
Theorem build_index_groups_groups A :
  let nz_train := (build_index_groups A).1.1 in
  let nz_row_colindices := (build_index_groups A).1.2 in
  let nz_col_rowindices := (build_index_groups A).2 in
  [/\ uniq nz_train /\ (forall p, (p \in nz_train) = (A p.1 p.2 != 0)),
      sorted ord_lt [seq g.1 | g <- nz_row_colindices] /\
      (forall i cols, ((i, cols) \in nz_row_colindices) =
         (cols != [::]) && (cols == [seq j <- enum 'I_n | A i j != 0]))
    & sorted ord_lt [seq g.1 | g <- nz_col_rowindices] /\
      (forall j rows, ((j, rows) \in nz_col_rowindices) =
         (rows != [::]) && (rows == [seq i <- enum 'I_m | A i j != 0]))].
Proof.
move=> nzt nzr nzc; split.
- by split; [exact: nonzero_uniq|move=> p; exact: mem_nonzero].
- split.
    by rewrite /nzr /= /nz_row_colindices -map_comp; apply: group_by_sorted.
  move=> i cols; apply/idP/andP => [Hin|[Hne /eqP Hc]].
    have [/= -> Hhas] := nz_row_colindicesP Hin; split=> //.
    by rewrite -has_filter.
  rewrite Hc; apply: nz_row_colindices_mem.
  by rewrite has_filter -Hc.
- split.
    by rewrite /nzc /= /nz_col_rowindices -map_comp; apply: group_by_sorted.
  move=> j rows; apply/idP/andP => [Hin|[Hne /eqP Hc]].
    have [/= -> Hhas] := nz_col_rowindicesP Hin; split=> //.
    by rewrite -has_filter.
  rewrite Hc; apply: nz_col_rowindices_mem.
  by rewrite has_filter -Hc.
Qed.

End IndexGroups.

Section ExactTheory.
Variable R : realFieldType.
Variables nr nc : nat.
Implicit Types A tr te : 'M[R]_(nr, nc).

Lemma split_exact0 A quota :
  (forall j, (forall i, A i j = 0) -> quota j = 0%N) ->
  split_exact A quota (0, 0) (nonzero_columns A).
Proof.
move=> Hq; split; first exact: undup_uniq.
move=> j; case: ifP => Hj; first by move=> i; rewrite /= !mxE.
have HA i : A i j = 0.
  apply/eqP; rewrite -[_ == _]negbK; apply/negP => Hij.
  move/negP: Hj; apply; rewrite /nonzero_columns mem_undup.
  by apply/mapP; exists (i, j) => //; rewrite mem_nonzero.
have H0 : getnnz_axis0 (0 : 'M[R]_(nr, nc)) j = 0%N.
  rewrite /getnnz_axis0 (@eq_count _ _ pred0) ?count_pred0 //.
  by move=> i /=; rewrite mxE eqxx.
split=> [i||]; rewrite /= ?H0 ?(Hq j HA) //.
by rewrite !mxE HA; left.
Qed.

Lemma count_mem_enum (T : finType) (s : seq T) :
  (count (mem s) (enum T) <= size s)%N.
Proof.
rewrite -size_filter; apply: uniq_leq_size.
  by apply: filter_uniq; apply: enum_uniq.
by move=> x; rewrite mem_filter => /andP[].
Qed.

Lemma split_exact_step A quota tr te movie rest selects te' :
  split_exact A quota (tr, te) (movie :: rest) ->
  {subset selects <= column_nonzero A movie} ->
  te' = assign_col te A selects movie /\ size selects = quota movie \/
  [/\ te' = te, selects = [::] & quota movie = 0%N] ->
  split_exact A quota
    (assign_col tr A [seq i <- column_nonzero A movie | i \notin selects] movie,
     te') rest.
Proof.
case=> /= /andP[Hm Hu] H Hsub Hte; split=> // j.
have := H j; rewrite inE.
case: (eqVneq j movie) => [Hj _|Hj] /=; last first.
  have Htr i : assign_col tr A [seq i <- column_nonzero A movie | i \notin selects]
                 movie i j = tr i j.
    by rewrite mxE (negbTE Hj).
  have Hte' i : te' i j = te i j.
    by case: Hte => [[-> _]|[-> _ _]] //; rewrite mxE (negbTE Hj).
  have Hn : getnnz_axis0 te' j = getnnz_axis0 te j.
    by apply: eq_count => i /=; rewrite Hte'.
  case: ifP => _ => [H0 i|[H1 H2 H3]]; first by rewrite Htr Hte'.
  by split=> [i||]; rewrite ?Hn // Htr Hte'.
have H0 i : tr i movie = 0 /\ te i movie = 0.
  by have := H movie; rewrite mem_head => /(_ i).
rewrite Hj (negbTE Hm).
have Hrow i : (i \in column_nonzero A movie) = (A i movie != 0).
  by rewrite mem_filter mem_enum andbT.
have Htr i : assign_col tr A [seq i <- column_nonzero A movie | i \notin selects]
               movie i movie
             = if (i \notin selects) && (A i movie != 0) then A i movie else 0.
  by rewrite mxE eqxx /= mem_filter Hrow; case: ifP => // _; case: (H0 i).
case: Hte => [[-> Hsz]|[-> Hs Hq]]; last first.
  have Hn : getnnz_axis0 te movie = 0%N.
    rewrite /getnnz_axis0 (@eq_count _ _ pred0) ?count_pred0 //.
    by move=> i /=; case: (H0 i) => _ ->; rewrite eqxx.
  split=> [i||]; rewrite /= ?Hn ?Hq // Htr Hs /=.
  case: (H0 i) => _ ->; left; split=> //.
  by case: ifP => // /negbFE /eqP ->.
have Hte' i : assign_col te A selects movie i movie
              = if i \in selects then A i movie else 0.
  by rewrite mxE eqxx /=; case: ifP => // _; case: (H0 i).
have Hsel i : i \in selects -> A i movie != 0 by move/Hsub; rewrite Hrow.
have Hnz i : (assign_col te A selects movie i movie != 0) = (i \in selects).
  by rewrite Hte'; case: ifP => [/Hsel|_] //; rewrite eqxx.
have Hn : getnnz_axis0 (assign_col te A selects movie) movie
          = count (mem selects) (enum 'I_nr).
  by apply: eq_count => i /=; rewrite Hnz.
split=> [i||]; rewrite /= ?Hn.
- rewrite Htr Hte'; case Hi: (i \in selects) => /=; first by right.
  by left; split=> //; case: ifP => // /negbFE /eqP ->.
- by rewrite -Hsz; apply: count_mem_enum.
- rewrite -Hsz -has_count; case: selects {Hsub Hsz Htr Hte' Hsel Hnz Hn} => [|i0 sel] // _.
  by apply/hasP; exists i0; rewrite ?mem_enum //= mem_head.
Qed.

Lemma split_exact_done A quota tr te :
  split_exact A quota (tr, te) [::] ->
  [/\ forall i j, tr i j = A i j /\ te i j = 0 \/ tr i j = 0 /\ te i j = A i j,
      forall j, (getnnz_axis0 te j <= quota j)%N /\
                ((0 < quota j)%N -> (0 < getnnz_axis0 te j)%N)
    & (nnz tr + nnz te = nnz A)%N].
Proof.
case=> _ H.
have Hp i j : tr i j = A i j /\ te i j = 0 \/ tr i j = 0 /\ te i j = A i j.
  by case: (H j) => /(_ i).
split=> //; first by move=> j; case: (H j).
rewrite !nnz_count.
set P := fun p => tr _ _ != 0; set Q := fun p => te _ _ != 0.
have HI : predI P Q =1 pred0.
  move=> [i j] /=; rewrite /P /Q /=.
  by case: (Hp i j) => -[-> ->]; rewrite eqxx ?andbF.
rewrite -(count_predUI P Q) (eq_count HI) count_pred0 addn0.
apply: eq_count => -[i j] /=; rewrite /P /Q /=.
by case: (Hp i j) => -[-> ->]; rewrite eqxx ?orbF.
Qed.

Lemma getnnz_axis0_0 (j : 'I_nc) : getnnz_axis0 (0 : 'M[R]_(nr, nc)) j = 0%N.
Proof.
rewrite /getnnz_axis0 (@eq_count _ _ pred0) ?count_pred0 //.
by move=> i /=; rewrite mxE eqxx.
Qed.

Lemma getnnz_axis0_eq0 te (j : 'I_nc) :
  getnnz_axis0 te j = 0%N -> forall i, te i j = 0.
Proof.
move=> H i; apply/eqP; rewrite -[_ == _]negbK; apply/negP => Hi.
suff : (0 < getnnz_axis0 te j)%N by rewrite H.
by rewrite -has_count; apply/hasP; exists i; rewrite ?mem_enum.
Qed.

End ExactTheory.

Section SplitDataExact.
Variable R : archiRealFieldType.
Variable rng : Type.
Variable randint : forall n : nat, rng -> 'I_n.+1 * rng.

Lemma py_int_le0 (x : R) : x <= 0 -> py_int x <= 0.
Proof.
rewrite /py_int; case: ifP => Hx Hx0; last by rewrite ceil_le0.
have -> : x = 0 by apply/eqP; rewrite eq_le Hx Hx0.
by rewrite floor0.
Qed.

Lemma py_int_lt1 (x : R) : 0 <= x -> x < 1 -> py_int x = 0.
Proof.
move=> H0 H1; rewrite /py_int H0; apply: floor_def.
by rewrite H0 add0r.
Qed.

Lemma test_quota0 (nr nc : nat) (A : 'M[R]_(nr, nc)) p j :
  (forall i, A i j = 0) -> test_quota A p j = 0%N.
Proof.
move=> HA; rewrite /test_quota.
have -> : column_nonzero A j = [::].
  apply/eqP; rewrite -[_ == _]negbK -has_filter; apply/hasPn => i _.
  by rewrite HA eqxx.
by rewrite /= mul0r /py_int lexx floor0.
Qed.

(** A draw of [int(len(row) * p)] elements that returns. *)
Lemma choice_fraction_size (T : eqType) (row : seq T) (p : R) s selects s' :
  np_random_choice randint row (py_int ((size row)%:R * p)) s = Ok (selects, s') ->
  [/\ {subset selects <= row},
      size selects = absz (py_int ((size row)%:R * p))
    & p <= 0 -> selects = [::]].
Proof.
move=> Hsel; have Hsub := np_random_choice_mem Hsel.
case E: (py_int _) Hsel => [k|k] Hsel; last by [].
have Hsz := np_random_choice_size Hsel.
split=> // Hp; apply: size0nil; rewrite Hsz.
have : py_int ((size row)%:R * p) <= 0.
  by apply: py_int_le0; rewrite mulr_ge0_le0 // ler0n.
by rewrite E; case: k {E Hsel Hsz}.
Qed.

Section Data.
Variables num_rows0 num_cols0 : nat.
Variable ratings : 'M[R]_(num_rows0, num_cols0).
Variable num_users_per_movie : 'I_num_cols0 -> nat.
Variable num_movies_per_user : 'I_num_rows0 -> nat.
Variable min_num_ratings : nat.

Notation vu := (valid_users num_movies_per_user min_num_ratings).
Notation vm := (valid_movies num_users_per_movie min_num_ratings).
Notation V := (valid_ratings ratings num_users_per_movie num_movies_per_user
                 min_num_ratings).
Notation split p :=
  (split_data randint ratings num_users_per_movie num_movies_per_user
     min_num_ratings p).

Lemma split_data_exact p s valid train test s' :
  split p s = Ok ((valid, train, test), s') ->
  valid = V /\
  split_exact V (fun j => if 0 < p then test_quota V p j else 0%N)
    (train, test) [::].
Proof.
rewrite /split_data => Hb; have [[tr te] [s1 [Hloop]]] := rand_bind_ok Hb.
case=> <- <- <- _ {Hb}; split=> //.
apply: foldR_inv Hloop; last first.
  by apply: split_exact0 => j Hj; case: ifP => // _; apply: test_quota0.
move=> [tr0 te0] movie rest s2 acc' s3 Hinv Hb.
have [selects [s4 [Hsel]]] := rand_bind_ok Hb.
have [Hsub Hsz Hnil] := choice_fraction_size Hsel.
case=> <- _; apply: (split_exact_step Hinv Hsub).
case: ifP => Hp; first by left.
by right; split=> //; apply: Hnil; rewrite leNgt Hp.
Qed.

End Data.

Variables num_rows num_cols : nat.
Notation ratings := 'M[R]_(num_rows, num_cols).

Lemma split_for_cv_exact (train : ratings) p k s trl tel s' :
  split_for_cv randint train p k s = Ok ((trl, tel), s') ->
  [/\ size trl = k, size tel = k
    & forall fold, fold \in zip trl tel ->
        split_exact train (test_quota train p) fold [::]].
Proof.
move=> Hloop; have [H1 H2] := split_for_cv_size Hloop; split=> //.
move: Hloop; rewrite /split_for_cv => Hloop.
pose I (lists : seq ratings * seq ratings) (l : seq nat) :=
  size lists.1 = size lists.2 /\
  forall fold, fold \in zip lists.1 lists.2 ->
    split_exact train (test_quota train p) fold [::].
suff [] : I (trl, tel) [::] by [].
apply: (foldR_inv (I := I) _ _ Hloop); last by [].
move=> [l1 l2] x l s1 acc' s2 [/= Hsz Hall] Hb.
have [[tr te] [s3 [Hin [<- _]]]] := rand_bind_ok Hb.
split; rewrite /= ?size_rcons ?Hsz // zip_rcons // => fold.
rewrite mem_rcons inE => /orP[/eqP ->|]; last exact: Hall.
apply: foldR_inv Hin; last first.
  by apply: split_exact0 => j; apply: test_quota0.
move=> [tr0 te0] movie rest s4 acc'' s5 Hinv {}Hb.
have [selects [s6 [Hsel]]] := rand_bind_ok Hb.
have [Hsub Hsz' _] := choice_fraction_size Hsel.
by case=> <- _; apply: (split_exact_step Hinv Hsub); left.
Qed.

End SplitDataExact.

Section PartitionTheory.
Variable R : realFieldType.
Variables nr nc : nat.
Implicit Types A tr te : 'M[R]_(nr, nc).

Lemma partition_col_count A tr te j :
  (forall i, tr i j = A i j /\ te i j = 0 \/ tr i j = 0 /\ te i j = A i j) ->
  (getnnz_axis0 tr j + getnnz_axis0 te j = getnnz_axis0 A j)%N.
Proof.
move=> Hp; rewrite /getnnz_axis0.
set P := fun i => tr _ _ != 0; set Q := fun i => te _ _ != 0.
have HI : predI P Q =1 pred0.
  by move=> i /=; rewrite /P /Q; case: (Hp i) => -[-> ->]; rewrite eqxx ?andbF.
rewrite -(count_predUI P Q) (eq_count HI) count_pred0 addn0.
apply: eq_count => i /=; rewrite /P /Q.
by case: (Hp i) => -[-> ->]; rewrite eqxx ?orbF.
Qed.

End PartitionTheory.

Section QuotaTheory.
Variable R : archiRealFieldType.
Variables nr nc : nat.
Implicit Types A : 'M[R]_(nr, nc).

Lemma test_quota_le A (p : R) j :
  0 <= p -> (test_quota A p j)%:R <= (getnnz_axis0 A j)%:R * p.
Proof.
move=> Hp; rewrite /test_quota /column_nonzero size_filter -/(getnnz_axis0 A j).
set x := _ * p; have Hx : 0 <= x by rewrite mulr_ge0 ?ler0n.
rewrite /py_int Hx.
have := floor_le x; have := Hx; rewrite -floor_ge0.
by case: (Num.floor x) => // k _; rewrite -pmulrn.
Qed.

Lemma test_quota_lt1 A (p : R) j :
  0 <= p -> (getnnz_axis0 A j)%:R * p < 1 -> test_quota A p j = 0%N.
Proof.
move=> Hp; rewrite /test_quota /column_nonzero size_filter -/(getnnz_axis0 A j).
by move=> H1; rewrite py_int_lt1 // mulr_ge0 ?ler0n.
Qed.

End QuotaTheory.

Section SplitDataResults.
Variable R : archiRealFieldType.
Variable rng : Type.
Variable randint : forall n : nat, rng -> 'I_n.+1 * rng.
Variables num_rows0 num_cols0 : nat.
Variable ratings : 'M[R]_(num_rows0, num_cols0).
Variable num_users_per_movie : 'I_num_cols0 -> nat.
Variable num_movies_per_user : 'I_num_rows0 -> nat.
Variable min_num_ratings : nat.

(** [V] is the matrix of the users and movies that are kept. *)
Notation V := (valid_ratings ratings num_users_per_movie num_movies_per_user
                 min_num_ratings).

Lemma split_data_parts (p_test : R) (s : rng) valid train test s' :
  split_data randint ratings num_users_per_movie num_movies_per_user
    min_num_ratings p_test s = Ok ((valid, train, test), s') ->
  [/\ valid = V,
      forall i j, train i j = V i j /\ test i j = 0 \/
                  train i j = 0 /\ test i j = V i j,
      (nnz train + nnz test = nnz V)%N
    & p_test <= 0 -> train = V /\ test = 0].
Proof.
move=> Hrun; have [-> Hex] := split_data_exact Hrun.
have [Hp Hq Hn] := split_exact_done Hex; split=> // Hle.
have H0 i j : test i j = 0.
  apply: getnnz_axis0_eq0; apply/eqP; rewrite -leqn0.
  by have [] := Hq j; rewrite ltNge Hle.
split; apply/matrixP => i j; last by rewrite mxE H0.
by case: (Hp i j) => -[Ht He] //; rewrite Ht -He H0.
Qed.

(** X4. Every run of [split_data] that returns puts each rating of
    [valid_ratings] in exactly one of [train] and [test], with its value,
    and nothing else in either: no rating is lost or duplicated by the
    draws, which are with replacement. When [p_test] is not positive,
    [train] is [valid_ratings] and [test] is empty. *)
Theorem split_data_partition (p_test : R) (s : rng) valid train test s' :
  split_data randint ratings num_users_per_movie num_movies_per_user
    min_num_ratings p_test s = Ok ((valid, train, test), s') ->
  [/\ valid = V,
      forall i j, train i j = V i j /\ test i j = 0 \/
                  train i j = 0 /\ test i j = V i j,
      (nnz train + nnz test = nnz V)%N
    & p_test <= 0 -> train = V /\ test = 0].
Proof. exact: split_data_parts. Qed.

(** X5. When [split_data] returns with a positive [p_test], the test part
    of a movie holds at most [int(n * p_test)] of the movie's [n] ratings,
    the number of draws, so at most the fraction [p_test] of them, and at
    least one when that number is positive; the other ratings of the movie
    are in [train]. When every movie has fewer than [1 / p_test] ratings,
    [test] is empty. *)
Theorem split_data_test_size (p_test : R) (s : rng) valid train test s' :
  split_data randint ratings num_users_per_movie num_movies_per_user
    min_num_ratings p_test s = Ok ((valid, train, test), s') -> 0 < p_test ->
  (forall j,
     [/\ (getnnz_axis0 train j + getnnz_axis0 test j = getnnz_axis0 V j)%N,
         (getnnz_axis0 test j <= test_quota V p_test j)%N,
         (0 < test_quota V p_test j)%N -> (0 < getnnz_axis0 test j)%N
       & (test_quota V p_test j)%:R <= (getnnz_axis0 V j)%:R * p_test]) /\
  ((forall j, (getnnz_axis0 V j)%:R * p_test < 1) -> test = 0).
Proof.
move=> Hrun Hp0; have [_ Hex] := split_data_exact Hrun; rewrite Hp0 in Hex.
have [Hp Hq _] := split_exact_done Hex.
have Hq1 j : (getnnz_axis0 test j <= test_quota V p_test j)%N by case: (Hq j).
split=> [j|Hlt].
  split=> //; first by apply: partition_col_count => i; apply: Hp.
    by case: (Hq j).
  by apply: test_quota_le; apply: ltW.
apply/matrixP => i j; rewrite mxE.
apply: getnnz_axis0_eq0; apply/eqP; rewrite -leqn0.
by rewrite -(test_quota_lt1 (ltW Hp0) (Hlt j)).
Qed.

End SplitDataResults.

Section KeepAll.
Variable R : archiRealFieldType.
Variable rng : Type.
Variable randint : forall n : nat, rng -> 'I_n.+1 * rng.
Variables num_rows0 num_cols0 : nat.
Variable ratings : 'M[R]_(num_rows0, num_cols0).

Lemma filter_min0 (n : nat) (f : 'I_n -> nat) :
  [seq i <- enum 'I_n | (0 <= f i)%N] = enum 'I_n.
Proof. by rewrite (@eq_filter _ _ predT) ?filter_predT. Qed.

Lemma tnth_filter_min0 (n : nat) (f : 'I_n -> nat)
    (i : 'I_(size [seq i <- enum 'I_n | (0 <= f i)%N])) :
  val (tnth (in_tuple [seq i <- enum 'I_n | (0 <= f i)%N]) i) = i.
Proof.
have Hi : (i < n)%N.
  by have := ltn_ord i; rewrite {2}filter_min0 size_enum_ord.
rewrite (tnth_nth (Ordinal Hi)) /=.
move: (nat_of_ord i) Hi => k Hk; rewrite filter_min0.
exact: nth_enum_ord.
Qed.

(** X6. With [min_num_ratings = 0] and [p_test = 0], the arguments that
    [predict_ALS] passes with the counts of [get_number_per], [split_data]
    returns, drops no user and no movie, and puts every rating in [train]:
    [train] has the shape and the entries of [ratings], and [test] is
    empty. *)
Theorem split_data_keeps_all (s : rng) :
  let num_users_per_movie := (get_number_per ratings).1 in
  let num_movies_per_user := (get_number_per ratings).2 in
  let vu := valid_users num_movies_per_user 0 in
  let vm := valid_movies num_users_per_movie 0 in
  exists train test s',
    [/\ split_data randint ratings num_users_per_movie num_movies_per_user
          0 0 s
        = Ok ((valid_ratings ratings num_users_per_movie num_movies_per_user 0,
               train, test), s'),
        size vu = num_rows0 /\ size vm = num_cols0,
        forall i j,
          [/\ val (tnth (in_tuple vu) i) = i, val (tnth (in_tuple vm) j) = j
            & train i j = ratings (tnth (in_tuple vu) i) (tnth (in_tuple vm) j)]
      & test = 0].
Proof.
move=> c0 c1 vu vm.
have := split_data_ok randint ratings c0 c1 0 s (lexx 0).
case E: (split_data _ _ _ _ _ _ _) => [[[[valid train] test] s']|] // _.
have [Hv _ _ /(_ (lexx 0)) [Htr Hte]] := split_data_parts E.
exists train, test, s'; split=> //; first by rewrite -Hv.
  by rewrite /vu /vm /valid_users /valid_movies !filter_min0 !size_enum_ord.
move=> i j; split; [exact: tnth_filter_min0|exact: tnth_filter_min0|].
by rewrite Htr mxE.
Qed.

End KeepAll.

Section FoldsResults.
Variable R : archiRealFieldType.
Variable rng : Type.
Variable randint : forall n : nat, rng -> 'I_n.+1 * rng.
Variables num_rows num_cols : nat.
Notation ratings := 'M[R]_(num_rows, num_cols).

Lemma split_for_cv_ok (train : ratings) (p : R) k s :
  0 <= p -> is_ok (split_for_cv randint train p k s).
Proof.
move=> Hp; rewrite /split_for_cv; apply: foldR_ok => -[l1 l2] f s1 _.
rewrite /rand_bind; set inner := foldR _ _ _ _.
have : is_ok inner.
  apply: foldR_ok => -[tr te] movie s2 _; rewrite /rand_bind.
  have := choice_fraction_ok randint (column_nonzero train movie) s2 Hp.
  by case: (np_random_choice _ _ _ _) => [[sel s3]|].
by case: inner => [[[tr te] s2]|].
Qed.

(** X7. When [split_for_cv] returns, it returns [k_fold] pairs; each pair
    splits [train] on its own: every rating of [train] is in exactly one
    of [train_tr] and [test_tr], with its value, and for each movie
    [test_tr] holds at most [int(n * p_test)] of the movie's [n] ratings,
    at least one when that number is positive. *)
Theorem split_for_cv_folds (train : ratings) (p_test : R) (k_fold : nat)
    (s : rng) train_tr_list test_tr_list s' :
  split_for_cv randint train p_test k_fold s
  = Ok ((train_tr_list, test_tr_list), s') ->
  [/\ size train_tr_list = k_fold, size test_tr_list = k_fold
    & forall k, (k < k_fold)%N ->
      let train_tr := nth 0 train_tr_list k in
      let test_tr := nth 0 test_tr_list k in
      [/\ forall i j, train_tr i j = train i j /\ test_tr i j = 0 \/
                      train_tr i j = 0 /\ test_tr i j = train i j,
          (nnz train_tr + nnz test_tr = nnz train)%N
        & forall j,
            (getnnz_axis0 test_tr j <= test_quota train p_test j)%N /\
            ((0 < test_quota train p_test j)%N ->
             (0 < getnnz_axis0 test_tr j)%N)]].
Proof.
move=> Hrun; have [H1 H2 Hall] := split_for_cv_exact Hrun.
split=> // k Hk tr te.
have Hin : (tr, te) \in zip train_tr_list test_tr_list.
  have Hkz : (k < size (zip train_tr_list test_tr_list))%N.
    by rewrite size_zip H1 H2 minnn.
  have := mem_nth (0, 0) Hkz.
  by rewrite nth_zip ?H1 ?H2.
by have [Hp Hq Hn] := split_exact_done (Hall _ Hin).
Qed.

End FoldsResults.

(** X4 at a concrete input: two users, two movies, [p_test = 1/2]. *)
Lemma split_data_partition_witness :
  exists valid train test s',
    split_data ex_randint ex_ratings (fun=> 2%N) (fun=> 2%N) 0 2%:R^-1 tt
    = Ok ((valid, train, test), s') /\
    (nnz train + nnz test = nnz valid)%N.
Proof.
have Hp : (0 : rat) <= 2%:R^-1 by rewrite invr_ge0 ler0n.
have := split_data_ok ex_randint ex_ratings (fun=> 2%N) (fun=> 2%N) 0 tt Hp.
case E: (split_data _ _ _ _ _ _ _) => [[[[valid train] test] s']|] // _.
have [Hv _ Hn _] := split_data_partition E.
by exists valid, train, test, s'; split=> //; rewrite Hv.
Defined.

(** X5 at the same input. *)
Lemma split_data_test_size_witness :
  exists valid train test s',
    split_data ex_randint ex_ratings (fun=> 2%N) (fun=> 2%N) 0 2%:R^-1 tt
    = Ok ((valid, train, test), s') /\
    forall j, (getnnz_axis0 train j + getnnz_axis0 test j
               = getnnz_axis0 valid j)%N.
Proof.
have Hp : (0 : rat) < 2%:R^-1 by rewrite invr_gt0 ltr0n.
have := split_data_ok ex_randint ex_ratings (fun=> 2%N) (fun=> 2%N) 0 tt (ltW Hp).
case E: (split_data _ _ _ _ _ _ _) => [[[[valid train] test] s']|] // _.
have [H _] := split_data_test_size E Hp.
have [Hv _] := split_data_exact E.
exists valid, train, test, s'; split=> // j.
by rewrite Hv; case: (H j).
Defined.

(** X7 at a concrete input: five users who rated one movie, five folds. *)
Lemma split_for_cv_folds_witness :
  exists trl tel s',
    split_for_cv ex_randint ex_train5 5%:R^-1 5 tt = Ok ((trl, tel), s') /\
    (nnz (nth (0%R : 'M[rat]_(5, 1)) trl 0%N)
     + nnz (nth (0%R : 'M[rat]_(5, 1)) tel 0%N) = nnz ex_train5)%N.
Proof.
have Hp : (0 : rat) <= 5%:R^-1 by rewrite invr_ge0 ler0n.
have := split_for_cv_ok ex_randint ex_train5 5 tt Hp.
case E: (split_for_cv _ _ _ _ _) => [[[trl tel] s']|] // _.
have [_ _ H] := split_for_cv_folds E.
have [_ Hn _] := H 0%N isT.
by exists trl, tel, s'.
Defined.

Section RidgeTheory.
Variable R : realFieldType.
Variables F k : nat.
Implicit Types (U : 'M[R]_(F, k)) (r : 'cV[R]_k) (z d : 'cV[R]_F).

Lemma sqnorm_col_ge0 n (v : 'cV[R]_n) : 0 <= (v^T *m v) ord0 ord0.
Proof. by have := sqnorm_ge0 v^T; rewrite trmxK. Qed.

Lemma sqnorm_col_eq0 n (v : 'cV[R]_n) : (v^T *m v) ord0 ord0 = 0 -> v = 0.
Proof.
move=> H; have := @sqnorm_eq0 _ _ v^T; rewrite trmxK => /(_ H) Hv.
by rewrite -[v]trmxK Hv trmx0.
Qed.

(** The loss around a solution of the normal equation. *)
Lemma ridge_loss_shift U r reg z d :
  (U *m U^T + reg *: 1%:M) *m z = U *m r ->
  ridge_loss U r reg (z + d) =
  ridge_loss U r reg z
  + (((U^T *m d)^T *m (U^T *m d)) ord0 ord0 + reg * (d^T *m d) ord0 ord0).
Proof.
move=> Hz; pose e := r - U^T *m z.
have He : U *m e = reg *: z.
  rewrite /e mulmxBr -Hz mulmxDl mulmxA -scalemxAl mul1mx.
  by rewrite addrC addKr.
have HeT : e^T *m U^T = reg *: z^T.
  by rewrite -trmx_mul He linearZ.
rewrite /ridge_loss [U^T *m (z + d)]mulmxDr opprD addrA -/e.
clearbody e.
rewrite [(e - _)^T]linearB /= mulmxBl !mulmxBr.
rewrite [(z + d)^T]linearD /= mulmxDl !mulmxDr.
rewrite [(U^T *m d)^T]trmx_mul trmxK.
rewrite [e^T *m (U^T *m d)]mulmxA HeT -[d^T *m U *m e]mulmxA He.
rewrite -scalemxAl -scalemxAr.
move: (e^T *m e) (z^T *m z) (z^T *m d) (d^T *m z) (d^T *m U *m (U^T *m d))
  (d^T *m d) => a b c c' g h.
by rewrite !mxE; ring.
Qed.

Lemma ridge_optimal U r reg z :
  0 <= reg -> normal_equation U r reg z ->
  forall z', ridge_loss U r reg z <= ridge_loss U r reg z' /\
             (ridge_loss U r reg z' = ridge_loss U r reg z -> z' = z).
Proof.
move=> Hreg [Hz Huniq] z'; pose d := z' - z.
have -> : z' = z + d by rewrite /d addrC subrK.
rewrite (ridge_loss_shift _ Hz).
have H1 := sqnorm_col_ge0 (U^T *m d); have H2 := sqnorm_col_ge0 d.
have H3 : 0 <= reg * (d^T *m d) ord0 ord0 by rewrite mulr_ge0.
split; first by rewrite lerDl addr_ge0.
move/eqP; rewrite -subr_eq0 addrC addKr paddr_eq0 // => /andP[/eqP Hd1 /eqP Hd2].
apply: Huniq; rewrite mulmxDr Hz -[RHS]addr0; congr (_ + _).
have HUd : U^T *m d = 0 by apply: sqnorm_col_eq0.
rewrite mulmxDl -mulmxA HUd mulmx0 add0r -scalemxAl mul1mx.
move/eqP: Hd2; rewrite mulf_eq0 => /orP[/eqP ->|/eqP Hd0]; first by rewrite scale0r.
by rewrite (sqnorm_col_eq0 Hd0) scaler0.
Qed.

End RidgeTheory.

Section UpdateOptimal.
Variable R : realFieldType.
Variables num_users num_movies num_features : nat.
Variable train : 'M[R]_(num_users, num_movies).

(** X8. With a regulariser that is not negative, a movie-factor update
    that returns sets the column of every rated movie to the one vector
    that minimises the squared error on the movie's ratings plus
    [n * lambda_movie] times its squared norm, [n] being the number of the
    movie's ratings; the user-factor update does the same for every user
    with a rating, with [lambda_user]. *)
Theorem als_update_minimises
    (user_features : 'M[R]_(num_features, num_users))
    (movie_features : 'M[R]_(num_features, num_movies))
    (lambda_movie lambda_user : R) :
  (0 <= lambda_movie ->
   forall movie_features',
     update_movie_feature train user_features lambda_movie
       (getnnz_axis0 train) (nz_col_rowindices train) = Ok movie_features' ->
     forall movie, (exists u, train u movie != 0) ->
     let us := raters train movie in
     let loss :=
       ridge_loss (take_cols user_features us)
         (\col_j train (tnth (in_tuple us) j) movie)
         ((size us)%:R * lambda_movie) in
     forall z, loss (col movie movie_features') <= loss z /\
               (loss z = loss (col movie movie_features') ->
                z = col movie movie_features')) /\
  (0 <= lambda_user ->
   forall user_features',
     update_user_feature train movie_features lambda_user
       (getnnz_axis1 train) (nz_row_colindices train) = Ok user_features' ->
     forall user, (exists j, train user j != 0) ->
     let ms := rated_by train user in
     let loss :=
       ridge_loss (take_cols movie_features ms)
         (\col_j train user (tnth (in_tuple ms) j))
         ((size ms)%:R * lambda_user) in
     forall z, loss (col user user_features') <= loss z /\
               (loss z = loss (col user user_features') ->
                z = col user user_features')).
Proof.
split=> Hlam f' Hup x Hx s loss z; apply: ridge_optimal.
- by rewrite mulr_ge0 ?ler0n.
- exact: movie_update_col Hup _ Hx.
- by rewrite mulr_ge0 ?ler0n.
- exact: user_update_col Hup _ Hx.
Qed.

End UpdateOptimal.

Section LastPass.
Variable R : realFieldType.
Variable np_sqrt : R -> R.
Variables num_users num_movies num_features : nat.
Variable train : 'M[R]_(num_users, num_movies).
Variables lambda_movie lambda_user : R.

Notation state := (als_state R num_users num_movies num_features).
Notation body := (ALS_body np_sqrt train lambda_movie lambda_user).
Notation while := (ALS_while np_sqrt train lambda_movie lambda_user).

Lemma ALS_body_user (st st' : state) :
  body st = Ok st' ->
  update_user_feature train (movie_features st') lambda_user
    (getnnz_axis1 train) (nz_row_colindices train) = Ok (user_features st').
Proof.
rewrite /ALS_body /=.
case: (update_movie_feature _ _ _ _ _) => [mf'|] //=.
case E: (update_user_feature _ _ _ _ _) => [uf'|] //=.
by case: (compute_error _ _ _ _ _) => [e|] //= [<-].
Qed.

(** The factors that a run with at least one pass returns are those that
    its last pass through the loop body computes. *)
Lemma ALS_while_last n (st st' : state) :
  while n.+1 st = Ok st' ->
  exists st1 st2,
    [/\ body st1 = Ok st2, user_features st' = user_features st2
      & movie_features st' = movie_features st2].
Proof.
elim: n st => [|n IH] st.
  rewrite /=; case Eb: (body st) => [st1|] //=.
  by case: ifP => _ [<-]; exists st, st1.
rewrite [while _ st]/=; case Eb: (body st) => [st1|] //=.
case: ifP => _; first by case=> <-; exists st, st1.
exact: IH.
Qed.

(** The loop body reads the user factors and the error history of the
    state, not its movie factors. *)
Lemma ALS_body_movie_unused (mf mf0 : 'M[R]_(num_features, num_movies))
    (uf : 'M[R]_(num_features, num_users)) el i r r0 :
  body (AlsState mf uf el i r) = body (AlsState mf0 uf el i r0).
Proof. by []. Qed.

End LastPass.

Section AlsResults.
Variable R : realFieldType.
Variable np_sqrt : R -> R.
Variable rng : Type.
Variable np_random_rand : forall m n : nat, rng -> 'M[R]_(m, n) * rng.
Variables num_users num_movies num_features : nat.
Variable train : 'M[R]_(num_users, num_movies).

(** X9. The factors that [ALS] returns after at least one pass have a
    zero column for every user without a rating in [train] and for every
    movie without one, so that [user_features.T @ movie_features] predicts
    0 for each of their pairs, whatever the other factors are. *)
Theorem als_cold_start (lambda_movie lambda_user max_weight : R)
    (iterations : nat) (s : rng) uf mf s' :
  ALS np_sqrt num_features train np_random_rand lambda_movie lambda_user
    max_weight iterations s = Ok ((uf, mf), s') ->
  (0 < iterations)%N ->
  (forall user, (forall j, train user j = 0) ->
     col user uf = 0 /\ forall movie, (uf^T *m mf) user movie = 0) /\
  (forall movie, (forall u, train u movie = 0) ->
     col movie mf = 0 /\ forall user, (uf^T *m mf) user movie = 0).
Proof.
case: iterations => [|n] // Hrun _; move: Hrun; rewrite /ALS.
case: (ALS_init _ _ _ _ _ _) => st0 s0.
case E: (ALS_while _ _ _ _ _ _) => [st|] //= [<- <- _].
have [st1 [st2 [Hb -> ->]]] := ALS_while_last E.
split=> [user Hu|movie Hm].
  have Hc : col user (user_features st2) = 0.
    apply: (user_update_unrated (ALS_body_user Hb)) => -[j].
    by rewrite Hu eqxx.
  split=> // movie; rewrite mxE big1 // => f _.
  by move/colP: Hc => /(_ f); rewrite !mxE => ->; rewrite mul0r.
have Hc : col movie (movie_features st2) = 0.
  apply: (movie_update_unrated (ALS_body_movie Hb)) => -[u].
  by rewrite Hm eqxx.
split=> // user; rewrite mxE big1 // => f _.
by move/colP: Hc => /(_ f); rewrite !mxE => ->; rewrite mulr0.
Qed.

(** X10. A run of [ALS] with at least one pass does not read the initial
    movie factors that [init_MF] draws: the first pass overwrites them from
    the initial user factors, and the run returns what it returns from any
    other initial movie factors. *)
Theorem als_initial_movie_features_unused
    (lambda_movie lambda_user max_weight : R) (iterations : nat) (s : rng)
    (movie_features0 : 'M[R]_(num_features, num_movies)) :
  let st0 := (ALS_init num_users num_movies num_features np_random_rand
                max_weight s).1 in
  let s' := (ALS_init num_users num_movies num_features np_random_rand
               max_weight s).2 in
  ALS np_sqrt num_features train np_random_rand lambda_movie lambda_user
    max_weight iterations.+1 s =
  (st <- ALS_while np_sqrt train lambda_movie lambda_user iterations.+1
           (AlsState movie_features0 (user_features st0) [:: 0; 0] 0 0) ;;
   Ok ((user_features st, movie_features st), s')).
Proof.
rewrite /ALS /ALS_init; case: (init_MF _ _ _ _ _ _) => [[mf0 uf0] s0] /=.
by rewrite (ALS_body_movie_unused _ _ _ _ mf0 movie_features0 uf0 [:: 0; 0] 0 0 0).
Qed.

End AlsResults.

(** X9 at a concrete input: one user, the first of two movies rated. *)
Lemma als_cold_start_witness :
  exists uf mf,
    ALS ex_sqrt 1 ex_train ex_rand 1 1 1 50 tt = Ok ((uf, mf), tt) /\
    col ex_unrated mf = 0.
Proof.
have Hnz : nonzero ex_train != [::] by exact: ex_train_nonzero.
have := ALS_ok ex_sqrt ex_rand 1 1 50 tt (ltr01 : 0 < 1 :> rat) ltr01 Hnz.
case E: (ALS _ _ _ _ _ _ _ _ _) => [[[uf mf] []]|] // _.
have [_ H] := als_cold_start E isT.
have Hz : forall u, ex_train u ex_unrated = 0 by move=> u; rewrite mxE.
have [Hc _] := H _ Hz.
by exists uf, mf.
Defined.

(** X8 at a concrete input: one user, the first of two movies rated. *)
Lemma als_update_minimises_witness :
  exists mf',
    update_movie_feature ex_train (const_mx 1 : 'M[rat]_(1, 1)) 1
      (getnnz_axis0 ex_train) (nz_col_rowindices ex_train) = Ok mf' /\
    let us := raters ex_train ord0 in
    forall z,
      ridge_loss (take_cols (const_mx 1 : 'M[rat]_(1, 1)) us)
        (\col_j ex_train (tnth (in_tuple us) j) ord0)
        ((size us)%:R * 1) (col ord0 mf')
      <= ridge_loss (take_cols (const_mx 1 : 'M[rat]_(1, 1)) us)
           (\col_j ex_train (tnth (in_tuple us) j) ord0)
           ((size us)%:R * 1) z.
Proof.
have := movie_update_ok ex_train (const_mx 1 : 'M[rat]_(1, 1)) (ltr01 : 0 < 1 :> rat).
case E: (update_movie_feature _ _ _ _ _) => [mf'|] // _; exists mf'; split=> //.
have [H _] :=
  als_update_minimises ex_train (const_mx 1 : 'M[rat]_(1, 1))
    (const_mx 1 : 'M[rat]_(1, 2)) 1 1.
have Hex : exists u, ex_train u ord0 != 0.
  by exists ord0; rewrite mxE eqxx pnatr_eq0.
by move=> us z; have [] := H ler01 mf' E ord0 Hex z.
Defined.

Section RangeTheory2.
Variable R : archiRealFieldType.

Lemma linspace_bounds (start stop x : R) num :
  start <= stop -> x \in linspace start stop num -> start <= x <= stop.
Proof.
move=> Hle /linspace_mem[i Hi ->].
have Hd : 0 <= stop - start by rewrite subr_ge0.
case: num Hi => [|n] //; rewrite ltnS /= => Hi.
case: n Hi => [|n] Hi.
  move: Hi; rewrite leqn0 => /eqP ->.
  by rewrite mul0r addr0 lexx.
have Hn : (0 : R) < n.+1%:R by rewrite ltr0n.
have Hq : 0 <= (stop - start) / n.+1%:R by rewrite divr_ge0 // ltW.
have Hqd : n.+1%:R * ((stop - start) / n.+1%:R) = stop - start.
  by rewrite mulrC divfK // gt_eqF.
move: Hq Hqd; set q := _ / _ => Hq Hqd.
rewrite lerDl mulr_ge0 ?ler0n //= -lerBrDl -Hqd.
by rewrite ler_wpM2r // ler_nat.
Qed.

End RangeTheory2.

Section FeatureRange.
Variable R : archiRealFieldType.

Lemma features_num_range_bounds (nf : nat) :
  nf \in features_num_range R -> (1 <= nf <= 60)%N.
Proof.
case/mapP => x /linspace_mem[i Hi ->] ->.
have -> : (60%:R - 1) / (60.-1)%:R = 1 :> R.
  have -> : 60%:R - 1 = 59%:R :> R by rewrite [in LHS](natrD _ 59 1) addrK.
  by rewrite divff // pnatr_eq0.
rewrite mulr1 -[1 + _](natrD _ 1 i) add1n /py_int ler0n.
by rewrite -[i.+1%:R]/(i.+1%:~R) intrKfloor /= ltnS.
Qed.

End FeatureRange.

Section ResultRanges.
Variable R : archiRealFieldType.
Variable np_sqrt : R -> R.
Variable rng : Type.
Variable randint : forall n : nat, rng -> 'I_n.+1 * rng.
Variable np_random_rand : forall m n : nat, rng -> 'M[R]_(m, n) * rng.
Variables num_rows num_cols : nat.
Notation ratings := 'M[R]_(num_rows, num_cols).
Implicit Types (trl tel : seq ratings) (best : cv_state R) (c : candidate R).

Notation loop := (cv_loop np_sqrt np_random_rand).
Notation search := (cv_ALS_random_search np_sqrt randint np_random_rand).

Lemma sampled_weight_range s cs s4 c :
  sampled randint s cs s4 -> c \in cs -> c.1.1.2 \in weight_range.
Proof.
case=> lms [lus [nfs [ws [s1 [s2 [s3 [H1 H2 H3 H4 ->]]]]]]].
move/mem_zip_l/mem_zip_l/mem_zip_r.
exact: np_random_choice_mem H4 _.
Qed.

Lemma sampled_features_range s cs s4 c :
  sampled randint s cs s4 -> c \in cs -> c.1.1.1 \in features_num_range R.
Proof.
case=> lms [lus [nfs [ws [s1 [s2 [s3 [H1 H2 H3 H4 ->]]]]]]].
move/mem_zip_l/mem_zip_l/mem_zip_l.
exact: np_random_choice_mem H3 _.
Qed.

(** The parameters that a search returns are those of a sampled
    candidate. *)
Lemma search_candidate (train : ratings) s cs s4 nf w lm lu s' :
  sampled randint s cs s4 ->
  search train s = Ok ((nf, w, lm, lu), s') ->
  exists2 c, c \in cs &
    [/\ nf = Posz c.1.1.1, w = c.1.1.2, lm = c.1.2 & lu = c.2].
Proof.
move=> Hs; rewrite (search_sampled _ _ _ Hs) => Hb.
have [[trl tel] [s5 [Hsplit {}Hb]]] := rand_bind_ok Hb.
have [best [s6 [Hloop]]] := rand_bind_ok Hb.
have [_ [_]] := cv_loop_inv (cv_inv_init cs) Hloop.
rewrite /cv_return; case: (bset_lambda_user best) => [bset|] //.
case=> _ [c Hc [H1 H2 H3 H4]] [<- <- <- <- _].
by exists c.
Qed.

Lemma hundredth_le1 : 100%:R^-1 <= 1 :> R.
Proof. by rewrite invf_le1 ?ltr0n // ler1n. Qed.

(** X11. The parameters that [cv_ALS_random_search] returns lie in the
    ranges from which the candidates are drawn: [num_features] between 1
    and 60, [weight] between 1 and 3, [lambda_movie] and [lambda_user]
    between 0.01 and 1. *)
Theorem cv_search_result_in_range (train : ratings) s nf w lm lu s' :
  cv_ALS_random_search np_sqrt randint np_random_rand train s
  = Ok ((nf, w, lm, lu), s') ->
  [/\ 1 <= nf <= 60, 1 <= w <= 3%:R, 100%:R^-1 <= lm <= 1
    & 100%:R^-1 <= lu <= 1].
Proof.
have [cs [s4 Hs]] := sampled_exists R randint s.
case/(search_candidate Hs) => c Hc [-> -> -> ->]; split.
- exact: features_num_range_bounds (sampled_features_range Hs Hc).
- apply: linspace_bounds (sampled_weight_range Hs Hc).
  by rewrite (ler_nat R 1 3).
- exact: linspace_bounds hundredth_le1 (sampled_movies_range Hs Hc).
- exact: linspace_bounds hundredth_le1 (sampled_user_range Hs Hc).
Qed.

End ResultRanges.

(** X11 at a concrete input: five users who rated one movie. *)
Lemma cv_search_result_in_range_witness :
  exists nf w lm lu s',
    cv_ALS_random_search ex_sqrt ex_randint ex_rand ex_train5 tt
    = Ok ((nf, w, lm, lu), s') /\ 1 <= nf <= 60.
Proof.
have [[[[nf w] lm] lu] [s' E]] :=
  search_ok ex_randint ex_rand ex_sqrt_bound tt ex_train5_column.
have [H _ _ _] := cv_search_result_in_range E.
by exists nf, w, lm, lu, s'.
Defined.

Section ScoresTheory.
Variable R : archiRealFieldType.
Variable np_sqrt : R -> R.
Variable rng : Type.
Variable randint : forall n : nat, rng -> 'I_n.+1 * rng.
Variable np_random_rand : forall m n : nat, rng -> 'M[R]_(m, n) * rng.
Variables num_rows num_cols : nat.
Notation ratings := 'M[R]_(num_rows, num_cols).
Implicit Types (trl tel : seq ratings) (best : cv_state R) (c : candidate R).

Notation candidate_step := (cv_candidate np_sqrt np_random_rand).
Notation loop := (cv_loop np_sqrt np_random_rand).
Notation search := (cv_ALS_random_search np_sqrt randint np_random_rand).
Notation rmse_list := (cv_rmse_list np_sqrt np_random_rand).
Notation scores_of := (cv_scores np_sqrt np_random_rand).

(** What the loop over the candidates has kept after the candidates [cs],
    whose values of [test_rmse] are [scores]. *)
Let kept (cs : seq (candidate R)) (scores : seq R) best : Prop :=
  match bset_lambda_user best with
  | None => best = cv_init /\ all (fun x => 100%:R <= x) scores
  | Some lu =>
      exists i,
        [/\ (i < size cs)%N, nth 0 scores i < 100%:R,
            forall j, (j < size cs)%N -> nth 0 scores i <= nth 0 scores j,
            forall j, (j < i)%N -> nth 0 scores i < nth 0 scores j
          & forall c0, best = improved cv_init (nth c0 cs i) (nth 0 scores i)]
  end.

Lemma cv_candidate_score trl tel best c s best' s' :
  candidate_step trl tel best c s = Ok (best', s') ->
  exists2 l, rmse_list c (zip trl tel) s = Ok (l, s') &
    best' = if np_mean l < best_rmse best then improved best c (np_mean l)
            else best.
Proof.
rewrite /cv_candidate; case: c => [[[nf w] lm] lu] Hb.
have [l [s1 [Hl]]] := rand_bind_ok Hb.
by rewrite /rret; case: ifP => E [<- <-]; exists l => //; rewrite E.
Qed.

Lemma cv_loop_scores trl tel cs s best s' :
  loop trl tel cv_init cs s = Ok (best, s') ->
  exists scores,
    [/\ scores_of trl tel cs s = Ok (scores, s'), size scores = size cs
      & kept cs scores best].
Proof.
elim/last_ind: cs best s' => [|cs c IH] best s'.
  by case=> <- <-; exists [::]; split.
rewrite /cv_loop -cats1 foldR_cat => Hb.
have [best0 [s0 [/IH [scores [Hsc Hsz Hk]] /=]]] := rand_bind_ok Hb.
rewrite /rand_bind; case Ec: (candidate_step _ _ _ _ _) => [[b1 s1]|] // [Hb1 Hs1].
have [l Hl Hbest] := cv_candidate_score Ec.
rewrite Hb1 Hs1 in Hl Hbest.
exists (rcons scores (np_mean l)); split.
- rewrite /cv_scores foldR_cat (rand_bind_step _ Hsc) /=.
  by rewrite /rand_bind Hl.
- by rewrite size_rcons size_cat Hsz addn1.
set x := np_mean l in Hbest *.
have Hnth j : (j < size cs)%N -> nth 0 (rcons scores x) j = nth 0 scores j.
  by move=> Hj; rewrite nth_rcons Hsz Hj.
have Hlast : nth 0 (rcons scores x) (size cs) = x.
  by rewrite nth_rcons Hsz ltnn eqxx.
have Hnew (b : cv_state R) :
    best_lambda_user b = -1 -> x < 100%:R ->
    (forall j, (j < size cs)%N -> x < nth 0 scores j) ->
    kept (cs ++ [:: c]) (rcons scores x) (improved b c x).
  move=> Hlu Hx Hall; rewrite /kept /=; exists (size cs); split.
  - by rewrite size_cat /= addn1.
  - by rewrite Hlast.
  - move=> j; rewrite size_cat /= addn1 ltnS leq_eqVlt Hlast.
    by case/orP => [/eqP ->|Hj]; rewrite ?Hlast // Hnth // ltW // Hall.
  - by move=> j Hj; rewrite Hlast Hnth // Hall.
  - by move=> c0; rewrite Hlast nth_cat ltnn subnn /= /improved Hlu.
move: Hk Hbest; rewrite /kept.
case Eb: (bset_lambda_user best0) => [lu|].
  case=> i [Hi Hlt Hmin Hfirst Hbest0] Hbest.
  have Hr : best_rmse best0 = nth 0 scores i by rewrite (Hbest0 c).
  have Hlu : best_lambda_user best0 = -1 by rewrite (Hbest0 c).
  move: Hbest; rewrite Hr; case: ifP => Hx ->.
    apply: Hnew => //; first exact: lt_trans Hx Hlt.
    by move=> j Hj; apply: lt_le_trans Hx (Hmin j Hj).
  rewrite Eb; exists i; split.
  - by rewrite size_cat /= addn1 ltnS ltnW.
  - by rewrite Hnth.
  - move=> j; rewrite size_cat /= addn1 ltnS leq_eqVlt Hnth //.
    case/orP => [/eqP ->|Hj]; last by rewrite Hnth // Hmin.
    by rewrite Hlast leNgt Hx.
  - by move=> j Hj; rewrite !Hnth ?Hfirst // (ltn_trans Hj).
  - by move=> c0; rewrite Hnth // nth_cat Hi.
case=> Hb0 Hall; rewrite Hb0 /=; case: ifP => Hx ->.
  apply: Hnew => // j Hj; apply: lt_le_trans Hx _.
  by move/allP: Hall; apply; apply: mem_nth; rewrite Hsz.
by rewrite /=; split=> //; rewrite all_rcons Hall leNgt Hx.
Qed.

(** X12. The loop over the candidates of [cv_ALS_random_search] keeps the
    first candidate with the smallest mean validation RMSE, provided that
    this RMSE is below the initial best of 100: a search that returns
    gives the parameters of the candidate at an index [i] whose value of
    [test_rmse] is below 100, not above that of any candidate and strictly
    below that of every candidate before it. *)
Theorem cv_search_keeps_first_best (train : ratings) s nf w lm lu s' :
  cv_ALS_random_search np_sqrt randint np_random_rand train s
  = Ok ((nf, w, lm, lu), s') ->
  exists cs s4 trl tel s5 scores i,
    [/\ sampled randint s cs s4,
        split_for_cv randint train 5%:R^-1 5 s4 = Ok ((trl, tel), s5),
        cv_scores np_sqrt np_random_rand trl tel cs s5 = Ok (scores, s') /\
        size scores = 60%N,
        (i < 60)%N /\
        (forall c0, (nf, w, lm, lu) =
           (Posz (nth c0 cs i).1.1.1, (nth c0 cs i).1.1.2, (nth c0 cs i).1.2,
            (nth c0 cs i).2))
      & [/\ nth 0 scores i < 100%:R,
            forall j, (j < 60)%N -> nth 0 scores i <= nth 0 scores j
          & forall j, (j < i)%N -> nth 0 scores i < nth 0 scores j]].
Proof.
have [cs [s4 Hs]] := sampled_exists R randint s.
have Hsz := sampled_size Hs.
rewrite (search_sampled _ _ _ Hs) => Hb.
have [[trl tel] [s5 [Hsplit {}Hb]]] := rand_bind_ok Hb.
have [best [s6 [Hloop]]] := rand_bind_ok Hb.
have [scores [Hsc Hsize]] := cv_loop_scores Hloop.
rewrite /kept /cv_return; case Eb: (bset_lambda_user best) => [bset|] //.
case=> i [Hi Hlt Hmin Hfirst Hbest] [H1 H2 H3 H4 Hs'].
rewrite Hsz in Hi Hmin Hsize.
exists cs, s4, trl, tel, s5, scores, i; split=> //.
- by rewrite -Hs'.
- split=> // c0; rewrite -H1 -H2 -H3 -H4.
  by move: Eb; rewrite (Hbest c0) /= => -[<-].
Qed.

End ScoresTheory.

(** X12 at a concrete input: five users who rated one movie. *)
Lemma cv_search_keeps_first_best_witness :
  exists nf w lm lu s' (scores : seq rat) i,
    cv_ALS_random_search ex_sqrt ex_randint ex_rand ex_train5 tt
    = Ok ((nf, w, lm, lu), s') /\
    (i < 60)%N /\ nth 0 scores i < 100%:R.
Proof.
have [[[[nf w] lm] lu] [s' E]] :=
  search_ok ex_randint ex_rand ex_sqrt_bound tt ex_train5_column.
have [cs [s4 [trl [tel [s5 [scores [i [_ _ _ [Hi _] [Hlt _ _]]]]]]]]] :=
  cv_search_keeps_first_best E.
by exists nf, w, lm, lu, s', scores, i.
Defined.

Section EntriesTheory.
Variable R : realFieldType.
Implicit Types (data : seq (record R)) (A : lil_matrix R).

Lemma py_index_position len i k :
  py_index len i = Ok k -> k = py_position len i.
Proof. by rewrite /py_index /py_position; case: ifP => // _ [<-]. Qed.

Lemma py_position_pos len (i : int) :
  1 <= i -> Posz (py_position len (i - 1)) = i - 1.
Proof.
move=> Hi; rewrite /py_position.
have H0 : 0 <= i - 1 by rewrite subr_ge0.
by rewrite ltNge H0 /= gez0_abs.
Qed.

Lemma lil_setitem_get A i j x A' :
  lil_setitem A i j x = Ok A' ->
  forall r c,
    lil_get A' r c =
    if (py_position (shape A).1 i == r) && (py_position (shape A).2 j == c)
    then x else lil_get A r c.
Proof.
rewrite /lil_setitem.
case Ei: (py_index _ i) => [i'|] //=; case Ej: (py_index _ j) => [j'|] //=.
case=> <- r c /=.
by rewrite (py_index_position Ei) (py_index_position Ej) ![r == _]eq_sym ![c == _]eq_sym.
Qed.

Lemma last_rating (x y : record R) (s : seq (record R)) :
  x.2 = y.2 -> (last x s).2 = (last y s).2.
Proof. by case: s. Qed.

Lemma foldM_setitem_get A data A' :
  foldM (fun ratings (line : record R) =>
           let: (row, col, rating) := line in
           lil_setitem ratings (row - 1) (col - 1) rating) A data = Ok A' ->
  forall r c,
    lil_get A' r c =
    (last (0, 0, lil_get A r c)
       [seq l <- data | (py_position (shape A).1 (l.1.1 - 1) == r)
                        && (py_position (shape A).2 (l.1.2 - 1) == c)]).2.
Proof.
elim: data A => [|[[row col] rating] data IH] A /=; first by case=> <-.
case E: (lil_setitem _ _ _ _) => [A1|] //= /IH H r c.
rewrite H (lil_setitem_shape E) (lil_setitem_get E).
by case: ifP => _ //=; apply: last_rating.
Qed.

Lemma preprocess_data_get data A :
  preprocess_data data = Ok A ->
  forall r c,
    lil_get A r c =
    (last (0, 0, 0)
       [seq l <- data | (py_position (shape A).1 (l.1.1 - 1) == r)
                        && (py_position (shape A).2 (l.1.2 - 1) == c)]).2.
Proof.
rewrite /preprocess_data; case: (statistics data) => [[[[a m] b] n]|] //=.
case: m => [m|] //; case: n => [n|] //=.
move=> H; have Hs := foldM_setitem_shape H.
by move=> r c; rewrite (foldM_setitem_get H) Hs.
Qed.

(** X13. The matrix that [preprocess_data] returns holds, at each
    position, the rating of the last record that addresses the position,
    and 0 where no record does: a later record overwrites an earlier one
    with the same indices. A record with positive indices addresses the
    position [(row - 1, col - 1)]. *)
Theorem preprocess_data_entries data A :
  preprocess_data data = Ok A ->
  (forall r c,
     lil_get A r c =
     (last (0, 0, 0)
        [seq l <- data | (py_position (shape A).1 (l.1.1 - 1) == r)
                         && (py_position (shape A).2 (l.1.2 - 1) == c)]).2) /\
  (forall l : record R, 1 <= l.1.1 -> 1 <= l.1.2 ->
     Posz (py_position (shape A).1 (l.1.1 - 1)) = l.1.1 - 1 /\
     Posz (py_position (shape A).2 (l.1.2 - 1)) = l.1.2 - 1).
Proof.
move=> H; split; first exact: preprocess_data_get.
by move=> l H1 H2; split; apply: py_position_pos.
Qed.

End EntriesTheory.

(** X13 at a concrete input: two lines, the second with row index 0. *)
Lemma preprocess_data_entries_witness :
  exists A, preprocess_data ex_records = Ok A /\
            lil_get A 1 1 = 3%:R /\ lil_get A 0 1 = 0.
Proof.
have : is_ok (preprocess_data ex_records) by rewrite preprocess_data_ok.
case E: (preprocess_data ex_records) => [A|] // _.
have [H _] := preprocess_data_entries E.
have [Hr Hc] := preprocess_data_shape E.
have Hs1 : (shape A).1 = 2%N by case: Hr.
have Hs2 : (shape A).2 = 2%N by case: Hc.
by exists A; split=> //; rewrite !H Hs1 Hs2.
Defined.

Section AlsAlgoTheory.
Variable R : realFieldType.
Implicit Types (A : lil_matrix R) (d : seq (record R)).

Variable train_df : seq (record R).

(** The body of the loop of [als_algo] over the rows. *)
Let step (train : lil_matrix R) (p : int * int) : result (lil_matrix R) :=
  let: (row, col) := p in
  let values :=
    [seq l.2 | l <- train_df & (l.1.1 == row) && (l.1.2 == col)] in
  rating <- (if values is v :: _ then Ok v else Raise IndexError) ;;
  lil_setitem train (row - 1) (col - 1) rating.

Let ids d : seq (int * int) := zip [seq l.1.1 | l <- d] [seq l.1.2 | l <- d].

Let first_rating (row col : int) : R :=
  (head (0, 0, 0) [seq l <- train_df | (l.1.1 == row) && (l.1.2 == col)]).2.

Lemma als_step_row A (l : record R) :
  l \in train_df ->
  step A (l.1.1, l.1.2)
  = lil_setitem A (l.1.1 - 1) (l.1.2 - 1) (first_rating l.1.1 l.1.2).
Proof.
move=> Hl; rewrite /step /first_rating.
have : l \in [seq l' <- train_df | (l'.1.1 == l.1.1) && (l'.1.2 == l.1.2)].
  by rewrite mem_filter !eqxx.
by case: [seq _ <- _ | _].
Qed.

Lemma als_loop_cons A (l : record R) d :
  l \in train_df ->
  foldM step A (ids (l :: d))
  = (A1 <- lil_setitem A (l.1.1 - 1) (l.1.2 - 1) (first_rating l.1.1 l.1.2) ;;
     foldM step A1 (ids d)).
Proof. by move=> Hl; rewrite -als_step_row. Qed.

Lemma als_loop_ok A d :
  {subset d <= train_df} ->
  is_ok (foldM step A (ids d))
  = all (fun l : record R => index_ok (shape A).1 (l.1.1 - 1)
                             && index_ok (shape A).2 (l.1.2 - 1)) d.
Proof.
elim: d A => [|l d IH] A Hsub //.
rewrite (als_loop_cons _ _ (Hsub _ (mem_head _ _))).
rewrite [all _ _]/= -(lil_setitem_ok A _ _ (first_rating l.1.1 l.1.2)).
case E: (lil_setitem _ _ _ _) => [A1|] //=.
rewrite -(lil_setitem_shape E); apply: IH => x Hx.
by apply: Hsub; rewrite inE Hx orbT.
Qed.

Lemma als_loop_raise A d e :
  {subset d <= train_df} -> foldM step A (ids d) = Raise e -> e = IndexError.
Proof.
elim: d A => [|l d IH] A Hsub //.
rewrite (als_loop_cons _ _ (Hsub _ (mem_head _ _))).
case E: (lil_setitem _ _ _ _) => [A1|e1] /=.
  by apply: IH => x Hx; apply: Hsub; rewrite inE Hx orbT.
case=> <-; move: E; rewrite /lil_setitem /py_index.
by do 2![case: ifP => _ //=; last by case].
Qed.

Lemma als_loop_shape A d A' :
  {subset d <= train_df} -> foldM step A (ids d) = Ok A' -> shape A' = shape A.
Proof.
elim: d A => [|l d IH] A Hsub; first by case=> <-.
rewrite (als_loop_cons _ _ (Hsub _ (mem_head _ _))).
case E: (lil_setitem _ _ _ _) => [A1|e1] //= H.
rewrite -(lil_setitem_shape E); apply: IH H => x Hx.
by apply: Hsub; rewrite inE Hx orbT.
Qed.

Lemma als_loop_get A d A' :
  {subset d <= train_df} ->
  (forall l : record R, l \in d -> 1 <= l.1.1 /\ 1 <= l.1.2) ->
  foldM step A (ids d) = Ok A' ->
  forall r c : nat,
    lil_get A' r c =
    if has (fun l : record R => (l.1.1 == Posz r + 1) && (l.1.2 == Posz c + 1)) d
    then first_rating (Posz r + 1) (Posz c + 1) else lil_get A r c.
Proof.
elim: d A => [|l d IH] A Hsub Hpos; first by case=> <-.
rewrite (als_loop_cons _ _ (Hsub _ (mem_head _ _))).
case E: (lil_setitem _ _ _ _) => [A1|e1] //= H r c.
have Hsub' : {subset d <= train_df}.
  by move=> x Hx; apply: Hsub; rewrite inE Hx orbT.
have Hpos' : forall l : record R, l \in d -> 1 <= l.1.1 /\ 1 <= l.1.2.
  by move=> x Hx; apply: Hpos; rewrite inE Hx orbT.
rewrite (IH _ Hsub' Hpos' H) (lil_setitem_get E).
have [H1 H2] := Hpos l (mem_head _ _).
have Hr : (py_position (shape A).1 (l.1.1 - 1) == r) = (l.1.1 == Posz r + 1).
  by rewrite -eqz_nat py_position_pos // subr_eq.
have Hc : (py_position (shape A).2 (l.1.2 - 1) == c) = (l.1.2 == Posz c + 1).
  by rewrite -eqz_nat py_position_pos // subr_eq.
rewrite Hr Hc /=; case: (has _ d); first by rewrite orbT.
by rewrite orbF; case: ifP => // /andP[/eqP -> /eqP ->].
Qed.

End AlsAlgoTheory.

Section AlsAlgoResults.
Variable R : realFieldType.

Lemma index_ok_pos (len : nat) (i : int) :
  1 <= i -> index_ok len (i - 1) = (i <= Posz len).
Proof.
move=> Hi; rewrite /index_ok.
have -> : - Posz len <= i - 1.
  by have : (0 : int) <= Posz len by []; move: (Posz len) => k Hk; lra.
by rewrite /= ltrBlDr ltzD1.
Qed.

(** X14. [als_algo] sizes its training matrix by the numbers of distinct
    users and movies of [train_df] and stores the rating of a row at
    [(User - 1, Movie - 1)]: the matrix gets built exactly when every id
    is accepted as an index, which for positive ids means that no user id
    exceeds the number of distinct users and no movie id the number of
    distinct movies; otherwise [IndexError] is raised. With positive ids,
    the entry of a (user, movie) pair is the rating of the first row of
    the pair, whatever later rows of the pair say. *)
Theorem als_algo_train_ids (train_df : seq (record R)) :
  let num_rows := size (undup [seq l.1.1 | l <- train_df]) in
  let num_cols := size (undup [seq l.1.2 | l <- train_df]) in
  let positive :=
    forall l : record R, l \in train_df -> 1 <= l.1.1 /\ 1 <= l.1.2 in
  [/\ is_ok (als_algo_train train_df) =
      all (fun l : record R => index_ok num_rows (l.1.1 - 1)
                               && index_ok num_cols (l.1.2 - 1)) train_df,
      forall e, als_algo_train train_df = Raise e -> e = IndexError,
      positive ->
      is_ok (als_algo_train train_df) =
      all (fun l : record R => (l.1.1 <= Posz num_rows)
                               && (l.1.2 <= Posz num_cols)) train_df
    & forall A, als_algo_train train_df = Ok A ->
      shape A = (num_rows, num_cols) /\
      (positive ->
       forall r c : nat,
         lil_get A r c =
         (head (0, 0, 0)
            [seq l <- train_df | (l.1.1 == Posz r + 1)
                                 && (l.1.2 == Posz c + 1)]).2)].
Proof.
move=> num_rows num_cols positive.
have Hsub : {subset train_df <= train_df} by [].
pose A0 := LilMatrix (num_rows, num_cols) (fun _ _ => 0 : R).
have Hok : is_ok (als_algo_train train_df) =
           all (fun l : record R => index_ok num_rows (l.1.1 - 1)
                                    && index_ok num_cols (l.1.2 - 1)) train_df.
  exact: (als_loop_ok A0 Hsub).
split=> //.
- by move=> e; apply: (als_loop_raise (A := A0) Hsub).
- move=> Hpos; rewrite Hok; apply: eq_in_all => l /Hpos[H1 H2].
  by rewrite !index_ok_pos.
- move=> A HA; split; first exact: (als_loop_shape (A := A0) Hsub HA).
  move=> Hpos r c; rewrite (als_loop_get (A := A0) Hsub Hpos HA) /=.
  case: ifP => //; rewrite has_filter => /negbFE /eqP -> //.
Qed.

End AlsAlgoResults.

(** X14 at a concrete input: two users, one movie, the first user twice. *)
Lemma als_algo_train_ids_witness :
  exists A, [/\ als_algo_train ex_train_df = Ok A, shape A = (2, 1)%N
              & lil_get A 0 0 = 3%:R].
Proof.
have [H1 _ _ H4] := als_algo_train_ids ex_train_df.
have : is_ok (als_algo_train ex_train_df) by rewrite H1.
case E: (als_algo_train ex_train_df) => [A|] // _.
have [Hs Hg] := H4 _ E.
have Hpos : forall l : record rat, l \in ex_train_df -> 1 <= l.1.1 /\ 1 <= l.1.2.
  by move=> l; rewrite !inE => /or3P[] /eqP ->.
by exists A; split=> //; rewrite (Hg Hpos).
Defined.

Section SplitTheory.
Implicit Types (sep ch : ascii) (s a b : string).

Lemma str_append_assoc a b s :
  ((a ++ b) ++ s)%string = (a ++ (b ++ s))%string.
Proof. by elim: a => [|c a IH] //=; rewrite IH. Qed.

Lemma str_has_append ch a b :
  str_has ch (a ++ b)%string = str_has ch a || str_has ch b.
Proof. by elim: a => [|c a IH] //=; rewrite IH orbA. Qed.

Lemma str_split_cons sep s : exists h t, str_split sep s = h :: t.
Proof.
elim: s => [|c s [h [t IH]]] /=; first by exists EmptyString, [::].
case: ifP => _; first by eexists; eexists.
by rewrite IH; eexists; eexists.
Qed.

Lemma str_split_none sep s :
  ~~ str_has sep s -> str_split sep s = [:: s].
Proof.
elim: s => [|c s IH] //=; rewrite negb_or => /andP[/negbTE -> /IH ->].
by [].
Qed.

Lemma str_split_append sep a b :
  ~~ str_has sep a ->
  str_split sep (a ++ String sep b)%string = a :: str_split sep b.
Proof.
elim: a => [|c a IH] /=; first by rewrite Ascii.eqb_refl.
by rewrite negb_or => /andP[/negbTE -> /IH ->].
Qed.

Lemma str_splitP sep s :
  ~~ str_has sep s /\ str_split sep s = [:: s] \/
  exists a b, [/\ s = (a ++ String sep b)%string, ~~ str_has sep a
                & str_split sep s = a :: str_split sep b].
Proof.
elim: s => [|c s IH] /=; first by left.
case E: (Ascii.eqb c sep) => /=.
  move/Ascii.eqb_spec: E => ->.
  by right; exists EmptyString, s.
case: IH => [[Hn ->]|[a [b [Hs Ha Hsp]]]]; first by left.
right; exists (String c a), b; split.
- by rewrite Hs.
- by rewrite /= E.
- by rewrite Hsp.
Qed.

(** A string splits in two pieces at its one separator. *)
Lemma str_split_two sep s a b :
  str_split sep s = [:: a; b] <->
  [/\ s = (a ++ String sep b)%string, ~~ str_has sep a & ~~ str_has sep b].
Proof.
split=> [|[-> Ha Hb]]; last by rewrite str_split_append // str_split_none.
case: (str_splitP sep s) => [[_ ->] //|[a' [b' [-> Ha' ->]]]].
case=> <-; case: (str_splitP sep b') => [[Hb' -> [<-]] //|].
case=> a2 [b2 [_ _ ->]]; have [h [t ->]] := str_split_cons sep b2.
by [].
Qed.

End SplitTheory.

Section MapTheory.
Variables (A B : Type) (f : A -> result B).

Lemma mapM_size s ys : mapM f s = Ok ys -> size ys = size s.
Proof.
elim: s ys => [|x s IH] ys /=; first by case=> <-.
case: (f x) => //= y; case E: (mapM f s) => [ys'|] //= [<-] /=.
by rewrite (IH _ E).
Qed.

Lemma mapM_raise (T : eqType) (g : T -> result B) (s : seq T) x e0 :
  (forall y e, g y = Raise e -> e = e0) ->
  x \in s -> ~~ is_ok (g x) -> mapM g s = Raise e0.
Proof.
move=> He; elim: s => [|y s IH] //=; rewrite inE.
case Ey: (g y) => [v|e] /=; last by rewrite (He _ _ Ey).
case/orP => [/eqP ->|Hx Hg]; first by rewrite Ey.
by rewrite IH.
Qed.

End MapTheory.

Section LoadTheory.
Variable R : realFieldType.
Variable py_int_of_str : string -> option int.
Variable py_float_of_str : string -> option R.

Notation deal_line := (deal_line py_int_of_str py_float_of_str).
Notation load_data := (load_data py_int_of_str py_float_of_str).

Lemma py_parse_raise (A : Type) (parse : string -> option A) s e :
  py_parse parse s = Raise e -> e = ValueError.
Proof. by rewrite /py_parse; case: (parse s) => // -[]. Qed.

Lemma deal_line_raise line e : deal_line line = Raise e -> e = ValueError.
Proof.
rewrite /deal_line.
case: (str_split _ line) => [|pos [|rating [|x l]]]; try by case.
case: (str_split _ pos) => [|row [|col [|x l]]]; try by case.
rewrite /py_parse.
case: (py_int_of_str _) => [r|] /=; last by case.
case: (py_int_of_str _) => [c|] /=; last by case.
by case: (py_float_of_str _) => [x|] //= -[].
Qed.

Lemma deal_line_ok line row col rating :
  deal_line line = Ok (row, col, rating) <->
  exists a b d,
    [/\ line = (a ++ String "_" (b ++ String "," d))%string,
        [&& ~~ str_has "," a, ~~ str_has "," b, ~~ str_has "," d,
            ~~ str_has "_" a & ~~ str_has "_" b],
        py_int_of_str (str_remove "r" a) = Some row,
        py_int_of_str (str_remove "c" b) = Some col
      & py_float_of_str d = Some rating].
Proof.
split.
  rewrite /deal_line.
  case E1: (str_split _ line) => [|pos [|d [|x l]]] //.
  case E2: (str_split _ pos) => [|a [|b [|x l]]] //.
  have [Hl Hpos Hd] := (str_split_two _ _ _ _).1 E1.
  have [Hp Ha Hb] := (str_split_two _ _ _ _).1 E2.
  rewrite /py_parse.
  case Er: (py_int_of_str _) => [r|] //=.
  case Ec: (py_int_of_str _) => [c|] //=.
  case Ex: (py_float_of_str _) => [x|] //= [<- <- <-].
  exists a, b, d; split=> //; first by rewrite Hl Hp str_append_assoc.
  move: Hpos; rewrite Hp str_has_append /= !negb_or => /andP[-> ->].
  by rewrite Hd Ha Hb.
case=> a [b [d [-> /and5P[Ha1 Hb1 Hd Ha2 Hb2] Hr Hc Hx]]].
rewrite /deal_line.
have -> : (a ++ String "_" (b ++ String "," d))%string
          = ((a ++ String "_" b) ++ String "," d)%string.
  by rewrite str_append_assoc.
have Hp : ~~ str_has "," (a ++ String "_" b)%string.
  by rewrite str_has_append /= !negb_or Ha1 Hb1.
rewrite (str_split_append _ Hp) (str_split_none Hd).
rewrite (str_split_append _ Ha2) (str_split_none Hb2).
by rewrite /py_parse Hr Hc Hx.
Qed.

(** X15. [deal_line] accepts exactly the lines of the form
    [a_b,d] with one comma and, before it, one underscore: it returns
    [int] of [a] without its letters r, [int] of [b] without its letters c
    and [float] of [d]; on any other line, and when one of the three does
    not denote a number, it raises [ValueError]. *)
Theorem deal_line_format (line : string) :
  (forall e, deal_line line = Raise e -> e = ValueError) /\
  (forall row col rating,
     deal_line line = Ok (row, col, rating) <->
     exists a b d,
       [/\ line = (a ++ String "_" (b ++ String "," d))%string,
           [&& ~~ str_has "," a, ~~ str_has "," b, ~~ str_has "," d,
               ~~ str_has "_" a & ~~ str_has "_" b],
           py_int_of_str (str_remove "r" a) = Some row,
           py_int_of_str (str_remove "c" b) = Some col
         & py_float_of_str d = Some rating]).
Proof.
split; first by move=> e; apply: deal_line_raise.
by move=> row col rating; apply: deal_line_ok.
Qed.

(** X16. [load_data] never parses the first line of the file; it raises
    [ValueError] when no line follows the first, and when some later line
    is rejected by [deal_line], whatever the other lines are; otherwise it
    is [preprocess_data] on the parsed lines, one record for each line
    after the first. *)
Theorem load_data_lines (header : string) (lines : seq string) :
  [/\ load_data [::] = Raise ValueError,
      load_data [:: header] = Raise ValueError,
      (exists2 line, line \in lines & ~~ is_ok (deal_line line)) ->
      load_data (header :: lines) = Raise ValueError
    & forall data, mapM deal_line lines = Ok data ->
      size data = size lines /\
      load_data (header :: lines) = preprocess_data data].
Proof.
split=> //.
- case=> line Hin Hbad; rewrite /load_data /preprocess_text /=.
  by rewrite (mapM_raise deal_line_raise Hin Hbad).
- move=> data Hd; split; first exact: mapM_size Hd.
  by rewrite /load_data /preprocess_text /= Hd.
Qed.

End LoadTheory.

Section StackErrors.
Variable R : realFieldType.
Variable n : nat.
Variable model : Type.
Implicit Types (df predictions : DataFrame R n) (models : catalogue model).

Lemma df_get_ok df name :
  is_ok (df_get df name) = (name \in [seq c.1 | c <- df]).
Proof.
elim: df => [|[k c] df IH] //=.
by rewrite inE eq_sym; case: eqP.
Qed.

Lemma df_get_raise df name e : df_get df name = Raise e -> e = KeyError.
Proof.
elim: df => [|[k c] df IH] /=; first by case.
by case: ifP.
Qed.

Lemma df_select_is_ok df names :
  is_ok (df_select df names) = all (fun nm => nm \in [seq c.1 | c <- df]) names.
Proof.
elim: names => [|nm names IH] //=; rewrite -df_get_ok -IH.
case: (df_get df nm) => //= c.
by case: (df_select df names).
Qed.

Lemma df_select_raise df names e :
  df_select df names = Raise e -> e = KeyError.
Proof.
elim: names => [|nm names IH] //=.
case E: (df_get df nm) => [c|e1] /=; last by case=> <-; apply: df_get_raise E.
by case: (df_select df names) IH => //= e1 IH [<-]; apply: IH.
Qed.

(** The loop of [stack] over the models of the catalogue, flattened. *)
Let step weights predictions (st : 'cV[R]_n * nat) (m : string * model) :=
  let: (stacked, idx) := st in
  let name := m.1 in
  weight <- py_getitem weights idx ;;
  c <- df_get predictions name ;;
  Ok (stacked + weight *: c, idx.+1).

Lemma stack_loop_ok weights predictions (ms : seq (string * model)) stacked idx :
  (idx <= size weights)%N ->
  is_ok (foldM (step weights predictions) (stacked, idx) ms)
  = (idx + size ms <= size weights)%N
    && all (fun m => m.1 \in [seq c.1 | c <- predictions]) ms.
Proof.
elim: ms stacked idx => [|m ms IH] stacked idx Hidx /=.
  by rewrite addn0 Hidx.
rewrite /py_getitem addnS; case: ltnP => Hlt /=; last first.
  by rewrite ltnNge (leq_trans Hlt) // leq_addr.
rewrite -df_get_ok; case: (df_get predictions m.1) => [c|e] /=.
  by rewrite IH // addSn.
by rewrite andbF.
Qed.

Lemma stack_loop_raise weights predictions (ms : seq (string * model)) st e :
  foldM (step weights predictions) st ms = Raise e ->
  (e = IndexError /\
   ~~ (st.2 + size ms <= size weights)%N) \/
  (e = KeyError /\
   ~~ all (fun m => m.1 \in [seq c.1 | c <- predictions]) ms).
Proof.
elim: ms st => [|m ms IH] [stacked idx] //=.
rewrite /py_getitem addnS; case: ltnP => Hlt /=; last first.
  case=> <-; left; split=> //.
  by rewrite -ltnNge ltnS (leq_trans Hlt) // leq_addr.
rewrite -df_get_ok; case E: (df_get predictions m.1) => [c|e1] /=; last first.
  by case=> <-; right; rewrite (df_get_raise E).
by move/IH; rewrite /= addSn.
Qed.

Lemma stackE weights predictions models :
  stack weights predictions models =
  (st <- foldM (step weights predictions) (0, 0%N)
           (flatten [seq fam.2 | fam <- models]) ;;
   pred <- df_select predictions [:: "User"; "Movie"]%string ;;
   Ok (df_set pred "Rating"%string st.1)).
Proof.
rewrite /stack.
by rewrite (foldM_flatten _ (fun fam : string * seq (string * model) => fam.2)).
Qed.

Lemma stack_is_ok weights predictions models :
  is_ok (stack weights predictions models) =
  [&& (size (catalogue_names models) <= size weights)%N,
      all (fun nm => nm \in [seq c.1 | c <- predictions])
          (catalogue_names models),
      "User"%string \in [seq c.1 | c <- predictions]
    & "Movie"%string \in [seq c.1 | c <- predictions]].
Proof.
have Hloop := @stack_loop_ok weights predictions
                (flatten [seq fam.2 | fam <- models]) 0 0%N (leq0n _).
have Hnames :
    all (fun nm => nm \in [seq c.1 | c <- predictions]) (catalogue_names models)
    = all (fun m : string * model => m.1 \in [seq c.1 | c <- predictions])
          (flatten [seq fam.2 | fam <- models]).
  by rewrite catalogue_namesE all_map.
have Hsz : size (catalogue_names models)
           = size (flatten [seq fam.2 | fam <- models]).
  by rewrite catalogue_namesE size_map.
rewrite stackE Hnames Hsz andbA -[size (flatten _)]add0n -Hloop.
have -> : ("User"%string \in [seq c.1 | c <- predictions])
          && ("Movie"%string \in [seq c.1 | c <- predictions])
          = is_ok (df_select predictions [:: "User"; "Movie"]%string).
  by rewrite df_select_is_ok /= andbT.
set sel := df_select predictions _.
by case: (foldM _ _ _) => [st|e] //; rewrite /rbind; case: sel.
Qed.

Lemma stack_raise weights predictions models e :
  stack weights predictions models = Raise e ->
  (e = IndexError /\ ~~ (size (catalogue_names models) <= size weights)%N) \/
  (e = KeyError /\
   ~~ [&& all (fun nm => nm \in [seq c.1 | c <- predictions])
              (catalogue_names models),
          "User"%string \in [seq c.1 | c <- predictions]
        & "Movie"%string \in [seq c.1 | c <- predictions]]).
Proof.
have Hnames :
    all (fun nm => nm \in [seq c.1 | c <- predictions]) (catalogue_names models)
    = all (fun m : string * model => m.1 \in [seq c.1 | c <- predictions])
          (flatten [seq fam.2 | fam <- models]).
  by rewrite catalogue_namesE all_map.
have Hsz : size (catalogue_names models)
           = size (flatten [seq fam.2 | fam <- models]).
  by rewrite catalogue_namesE size_map.
rewrite stackE Hnames Hsz.
have Hsel := df_select_is_ok predictions [:: "User"; "Movie"]%string.
move: Hsel; rewrite [all _ _]/= andbT; set sel := df_select predictions _.
case E: (foldM _ _ _) => [st|e1]; rewrite /rbind.
  case E2: sel => [pred|e2] //= Hsel [<-]; right.
  split; first exact: df_select_raise E2.
  by rewrite -Hsel andbF.
move=> _; case=> <-; case: (stack_loop_raise E) => [[-> H]|[-> H]]; [left|right] => //.
by split=> //; rewrite negb_and H.
Qed.

(** X17. [stack] returns exactly when there is a weight for every model
    name of the catalogue and [predictions] has a column for each of these
    names and the columns [User] and [Movie]. Otherwise it raises
    [IndexError], and then the weights are fewer than the model names, or
    [KeyError], and then one of the columns is missing. *)
Theorem stack_returns (weights : seq R) predictions models :
  let names := catalogue_names models in
  let columns := [seq c.1 | c <- predictions] in
  is_ok (stack weights predictions models) =
  [&& (size names <= size weights)%N, all (fun nm => nm \in columns) names,
      "User"%string \in columns & "Movie"%string \in columns] /\
  forall e, stack weights predictions models = Raise e ->
    (e = IndexError /\ (size weights < size names)%N) \/
    (e = KeyError /\
     ~~ [&& all (fun nm => nm \in columns) names,
            "User"%string \in columns & "Movie"%string \in columns]).
Proof.
move=> names columns; split; first exact: stack_is_ok.
move=> e /stack_raise[[-> H]|[-> H]]; [left|right] => //.
by rewrite ltnNge.
Qed.

End StackErrors.

Section MonadTheory3.
Lemma foldM_cons (A B : Type) (f : B -> A -> result B) acc x s :
  foldM f acc (x :: s) = (acc' <- f acc x ;; foldM f acc' s).
Proof. by []. Qed.

Lemma rbind_Ok (A B : Type) (a : A) (k : A -> result B) :
  rbind (Ok a) k = k a.
Proof. by []. Qed.
End MonadTheory3.

Section DictTheory.
Variable V : Type.
Implicit Types (d : dict V) (k : string) (v : V).

Lemma dict_get_set d k v : dict_get (dict_set d k v) k = Ok v.
Proof.
elim: d => [|[k' v'] d IH] /=; first by rewrite eqxx.
by case: ifP => Hk /=; rewrite Hk.
Qed.

Lemma dict_get_set_other d k k' v :
  k' != k -> dict_get (dict_set d k v) k' = dict_get d k'.
Proof.
move=> Hk; elim: d => [|[k0 v0] d IH] /=.
  by rewrite eq_sym (negbTE Hk).
case: ifP => [/eqP ->|_] /=; first by rewrite eq_sym (negbTE Hk).
by rewrite IH.
Qed.

End DictTheory.

Section BestWeightsTheory.
Variable R : realFieldType.
Variable n : nat.
Variable model : Type.
Variable x : seq R.
Implicit Types (bd : dict (dict R)) (ms : seq (string * model))
  (fs : catalogue model).

(** The loops of [get_best_weights]. *)
Let inner (key : string) (st : dict (dict R) * nat) (m : string * model)
  : result (dict (dict R) * nat) :=
  let: (best_dict, idx) := st in
  let name := m.1 in
  w <- py_getitem x idx ;;
  family <- dict_get best_dict key ;;
  Ok (dict_set best_dict key (dict_set family name w), idx.+1).

Let outer (st : dict (dict R) * nat) (fam : string * seq (string * model))
  : result (dict (dict R) * nat) :=
  let: (best_dict, idx) := st in
  let key := fam.1 in
  let best_dict := dict_set best_dict key [::] in
  foldM (inner key) (best_dict, idx) fam.2.

Let total fs : nat := size (flatten [seq fam.2 | fam <- fs]).

Lemma best_inner key ms bd family idx :
  uniq [seq m.1 | m <- ms] -> (idx + size ms <= size x)%N ->
  dict_get bd key = Ok family ->
  exists bd' family',
    [/\ foldM (inner key) (bd, idx) ms = Ok (bd', (idx + size ms)%N),
        dict_get bd' key = Ok family',
        forall k', k' != key -> dict_get bd' k' = dict_get bd k'
      & forall name,
          dict_get family' name =
          if name \in [seq m.1 | m <- ms]
          then Ok (nth 0 x (idx + index name [seq m.1 | m <- ms]))
          else dict_get family name].
Proof.
elim: ms bd family idx => [|m ms IH] bd family idx.
  by move=> _ _ Hk; exists bd, family; split=> //=; rewrite addn0.
rewrite [uniq _]/= [size _]/= => /andP[Hm Hu]; rewrite addnS => Hsz Hk.
have Hidx : (idx < size x)%N by apply: leq_trans Hsz; rewrite ltnS leq_addr.
pose bd1 := dict_set bd key (dict_set family m.1 (nth 0 x idx)).
have Hstep : inner key (bd, idx) m = Ok (bd1, idx.+1).
  by rewrite /inner /py_getitem Hidx /= Hk.
have Hk1 : dict_get bd1 key = Ok (dict_set family m.1 (nth 0 x idx)).
  by rewrite /bd1 dict_get_set.
have Hsz1 : (idx.+1 + size ms <= size x)%N by rewrite addSn.
have [bd' [family' [Hf Hk' Hother Hnames]]] := IH bd1 _ idx.+1 Hu Hsz1 Hk1.
exists bd', family'; split=> //.
  by rewrite foldM_cons Hstep /rbind Hf addSn.
  by move=> k' Hk0; rewrite Hother // /bd1 dict_get_set_other.
move=> name; rewrite Hnames inE.
case: (eqVneq name m.1) => [->|Hne] /=.
  by rewrite (negbTE Hm) dict_get_set eqxx addn0.
rewrite eq_sym (negbTE Hne); case: ifP => _; first by rewrite addSnnS.
by rewrite dict_get_set_other.
Qed.

Lemma best_outer fs bd idx :
  uniq [seq fam.1 | fam <- fs] ->
  all (fun fam : string * seq (string * model) =>
         uniq [seq m.1 | m <- fam.2]) fs ->
  (idx + total fs <= size x)%N ->
  exists bd',
    [/\ foldM outer (bd, idx) fs = Ok (bd', (idx + total fs)%N),
        forall k', k' \notin [seq fam.1 | fam <- fs] ->
                   dict_get bd' k' = dict_get bd k'
      & weights_filed x bd' idx fs].
Proof.
elim: fs bd idx => [|[key ms] fs IH] bd idx /=.
  by move=> _ _ _; exists bd; split=> //; rewrite /total /= addn0.
case/andP=> Hkey Hu /andP[Hms Hall].
rewrite /total /= size_cat -/(total fs) addnA => Hsz.
have Hsz1 : (idx + size ms <= size x)%N.
  by apply: leq_trans Hsz; rewrite leq_addr.
have Hk0 : dict_get (dict_set bd key [::]) key = Ok ([::] : dict R).
  exact: dict_get_set.
have [bd1 [family [Hf Hk1 Hother Hnames]]] := best_inner Hms Hsz1 Hk0.
have [bd' [Hf' Hother' Hfiled]] := IH bd1 (idx + size ms)%N Hu Hall Hsz.
exists bd'; split=> //.
- by rewrite Hf.
- move=> k'; rewrite inE negb_or => /andP[Hk' Hk'fs].
  by rewrite Hother' // Hother // dict_get_set_other.
- split=> //; exists family; first by rewrite Hother'.
  move=> j Hj; rewrite Hnames mem_nth ?size_map //.
  by rewrite index_uniq ?size_map.
Qed.

(** The loops of [predict] and of [stack]. *)
Variable predictions : DataFrame R n.

Let pin (weights : dict R) (stacked : 'cV[R]_n) (m : string * model)
  : result 'cV[R]_n :=
  let name := m.1 in
  weight <- dict_get weights name ;;
  c <- df_get predictions name ;;
  Ok (stacked + weight *: c).

Let sin (st : 'cV[R]_n * nat) (m : string * model)
  : result ('cV[R]_n * nat) :=
  let: (stacked, idx) := st in
  let name := m.1 in
  weight <- py_getitem x idx ;;
  c <- df_get predictions name ;;
  Ok (stacked + weight *: c, idx.+1).

Lemma predict_inner weights ms stacked idx :
  (idx + size ms <= size x)%N ->
  (forall j, (j < size ms)%N ->
     dict_get weights (nth ""%string [seq m.1 | m <- ms] j)
     = Ok (nth 0 x (idx + j))) ->
  foldM sin (stacked, idx) ms =
  (stacked' <- foldM (pin weights) stacked ms ;;
   Ok (stacked', (idx + size ms)%N)).
Proof.
elim: ms stacked idx => [|m ms IH] stacked idx; first by rewrite /= addn0.
rewrite [size _]/= addnS => Hsz Hw.
have Hidx : (idx < size x)%N by apply: leq_trans Hsz; rewrite ltnS leq_addr.
have Hw0 : dict_get weights m.1 = Ok (nth 0 x idx).
  by have := Hw 0%N isT; rewrite /= addn0.
have Hs : sin (stacked, idx) m =
          (c <- df_get predictions m.1 ;; Ok (stacked + nth 0 x idx *: c, idx.+1)).
  by rewrite /sin /py_getitem Hidx.
have Hp : pin weights stacked m =
          (c <- df_get predictions m.1 ;; Ok (stacked + nth 0 x idx *: c)).
  by rewrite /pin Hw0.
rewrite !foldM_cons Hs Hp.
case: (df_get predictions m.1) => [c|e] //; rewrite !rbind_Ok.
rewrite IH ?addSn //.
by move=> j Hj; rewrite addSnnS -(Hw j.+1).
Qed.

Lemma predict_outer bd fs stacked idx :
  (idx + total fs <= size x)%N -> weights_filed x bd idx fs ->
  foldM (fun st (fam : string * seq (string * model)) => foldM sin st fam.2)
        (stacked, idx) fs =
  (stacked' <-
     foldM (fun stacked (fam : string * seq (string * model)) =>
              weights <- dict_get bd fam.1 ;;
              foldM (pin weights) stacked fam.2) stacked fs ;;
   Ok (stacked', (idx + total fs)%N)).
Proof.
elim: fs stacked idx => [|[key ms] fs IH] stacked idx.
  by rewrite /total /= addn0.
rewrite /total /= size_cat -/(total fs) addnA => Hsz [[weights Hk Hw] Hfiled].
have Hsz1 : (idx + size ms <= size x)%N.
  by apply: leq_trans Hsz; rewrite leq_addr.
rewrite Hk rbind_Ok (predict_inner _ Hsz1 Hw).
case: (foldM (pin weights) stacked ms) => [stacked1|e] //; rewrite !rbind_Ok.
by rewrite IH.
Qed.

End BestWeightsTheory.

Section BestWeightsResults.
Variable R : realFieldType.
Variable n : nat.
Variable model : Type.
Variables ground_truth_t truth_t : Type.
Variable pd_merge_inner : DataFrame R n -> ground_truth_t -> truth_t.
Variable compute_rmse : DataFrame R n -> truth_t -> R.

Lemma evaluate_stacking_stack (x : seq R) (models : catalogue model)
    (predictions : DataFrame R n) (ground_truth : ground_truth_t) :
  is_ok (evaluate_stacking pd_merge_inner compute_rmse x models predictions
           ground_truth) ->
  is_ok (stack x predictions models).
Proof.
rewrite /evaluate_stacking; set sel := df_select predictions _.
case: sel => [user_movie|] //; rewrite rbind_Ok.
by case: (stack x predictions models).
Qed.

Lemma best_weights_filed (x : seq R) (models : catalogue model)
    (predictions : DataFrame R n) (ground_truth : ground_truth_t)
    best_dict rmse :
  uniq [seq fam.1 | fam <- models] ->
  all (fun fam : string * seq (string * model) =>
         uniq [seq m.1 | m <- fam.2]) models ->
  get_best_weights pd_merge_inner compute_rmse x models predictions
    ground_truth = Ok (best_dict, rmse) ->
  [/\ evaluate_stacking pd_merge_inner compute_rmse x models predictions
        ground_truth = Ok rmse,
      (size (catalogue_names models) <= size x)%N
    & weights_filed x best_dict 0 models].
Proof.
move=> Hu Hall; rewrite /get_best_weights.
case Eloop: (foldM _ _ _) => [st|] //; rewrite rbind_Ok.
case Eev: (evaluate_stacking _ _ _ _ _ _) => [r|] //; rewrite rbind_Ok.
case=> Hst <-.
have Hok : is_ok (stack x predictions models).
  by apply: (@evaluate_stacking_stack x models predictions ground_truth); rewrite Eev.
have Hsz : (size (catalogue_names models) <= size x)%N.
  by move: Hok; rewrite stack_is_ok => /and4P[].
split=> //.
have Hsz0 : (0 + size (flatten [seq fam.2 | fam <- models]) <= size x)%N.
  by move: Hsz; rewrite catalogue_namesE size_map.
have [bd' [Hf _ Hfiled]] := best_outer [::] Hu Hall Hsz0.
by move: Eloop; rewrite Hf => -[E]; rewrite -Hst -E.
Qed.

Lemma predict_filed (x : seq R) (models : catalogue model) best_dict
    (predictions : DataFrame R n) :
  (size (catalogue_names models) <= size x)%N ->
  weights_filed x best_dict 0 models ->
  predict models best_dict predictions = stack x predictions models.
Proof.
move=> Hsz Hfiled; rewrite /predict /stack.
have Hsz0 : (0 + size (flatten [seq fam.2 | fam <- models]) <= size x)%N.
  by move: Hsz; rewrite catalogue_namesE size_map.
rewrite (predict_outer predictions 0 Hsz0 Hfiled).
by case: (foldM _ _ _) => [stacked|e].
Qed.

(** X18. When the model families of the catalogue have distinct names,
    and so have the models of each family, as in a Python dictionary, and
    [get_best_weights] returns, the dictionary it returns gives for every
    model of the catalogue the weight at the model's position in [res.x],
    under the family and the name of the model; the RMSE it returns is
    that of [evaluate_stacking] at [res.x]; and [predict] with this
    dictionary blends any predictions as [stack] does with [res.x], value
    or exception. *)
Theorem predict_best_weights (x : seq R) (models : catalogue model)
    (predictions : DataFrame R n) (ground_truth : ground_truth_t)
    best_dict rmse :
  uniq [seq fam.1 | fam <- models] ->
  all (fun fam : string * seq (string * model) =>
         uniq [seq m.1 | m <- fam.2]) models ->
  get_best_weights pd_merge_inner compute_rmse x models predictions
    ground_truth = Ok (best_dict, rmse) ->
  [/\ evaluate_stacking pd_merge_inner compute_rmse x models predictions
        ground_truth = Ok rmse,
      weights_filed x best_dict 0 models
    & forall predictions' : DataFrame R n,
        predict models best_dict predictions' = stack x predictions' models].
Proof.
move=> Hu Hall Hget.
have [Hev Hsz Hfiled] := best_weights_filed Hu Hall Hget.
by split=> // predictions'; apply: predict_filed.
Qed.

End BestWeightsResults.

(** X18 at a concrete input: two models, the weights 2 and -1. *)
Lemma predict_best_weights_witness :
  exists best_dict rmse,
    get_best_weights (fun (_ : DataFrame rat 1) (_ : unit) => tt)
      (fun _ _ => 0) [:: 2%:R; -1] ex_models ex_predictions tt
    = Ok (best_dict, rmse) /\
    predict ex_models best_dict ex_predictions
    = stack [:: 2%:R; -1] ex_predictions ex_models.
Proof.
have : is_ok (get_best_weights (fun (_ : DataFrame rat 1) (_ : unit) => tt)
                (fun _ _ => 0) [:: 2%:R; -1] ex_models ex_predictions tt).
  by [].
case E: (get_best_weights _ _ _ _ _ _) => [[best_dict rmse]|] // _.
have Hu : uniq [seq fam.1 | fam <- ex_models] by [].
have Ha : all (fun fam : string * seq (string * unit) =>
                 uniq [seq m.1 | m <- fam.2]) ex_models by [].
have [_ _ H] := predict_best_weights Hu Ha E.
by exists best_dict, rmse.
Defined.

Section ValidColumns.
Variable R : archiRealFieldType.
Variables num_rows0 num_cols0 : nat.
Variable ratings : 'M[R]_(num_rows0, num_cols0).
Variable num_users_per_movie : 'I_num_cols0 -> nat.
Variable num_movies_per_user : 'I_num_rows0 -> nat.

Lemma valid_column_count min_num_ratings
    (j : 'I_(size (valid_movies num_users_per_movie min_num_ratings))) :
  getnnz_axis0 (valid_ratings ratings num_users_per_movie num_movies_per_user
                  min_num_ratings) j
  = count (fun i => ratings i (tnth (in_tuple (valid_movies num_users_per_movie
                                                 min_num_ratings)) j) != 0)
          (valid_users num_movies_per_user min_num_ratings).
Proof.
set vu := valid_users _ _; set P := fun i => _.
have -> : count P vu = count P (map (tnth (in_tuple vu)) (enum 'I_(size vu))).
  by rewrite map_tnth_enum.
rewrite count_map /getnnz_axis0.
by apply: eq_count => i /=; rewrite mxE.
Qed.

(** A filter on the users cannot add ratings to a movie. *)
Lemma valid_column_le min_num_ratings
    (j : 'I_(size (valid_movies num_users_per_movie min_num_ratings))) :
  (getnnz_axis0 (valid_ratings ratings num_users_per_movie num_movies_per_user
                   min_num_ratings) j
   <= getnnz_axis0 ratings
        (tnth (in_tuple (valid_movies num_users_per_movie min_num_ratings)) j))%N.
Proof.
rewrite valid_column_count /valid_users count_filter /getnnz_axis0.
by apply: sub_count => i /= /andP[].
Qed.

(** With [min_num_ratings = 0] every movie keeps its column. *)
Lemma valid_column_all (j : 'I_num_cols0) :
  exists2 j' : 'I_(size (valid_movies num_users_per_movie 0)),
    tnth (in_tuple (valid_movies num_users_per_movie 0)) j' = j &
    getnnz_axis0 (valid_ratings ratings num_users_per_movie num_movies_per_user
                    0) j' = getnnz_axis0 ratings j.
Proof.
have Hj : j \in valid_movies num_users_per_movie 0.
  by rewrite /valid_movies filter_min0 mem_enum.
have Hi : (index j (valid_movies num_users_per_movie 0)
           < size (valid_movies num_users_per_movie 0))%N by rewrite index_mem.
exists (Ordinal Hi); first by rewrite (tnth_nth j) /= nth_index.
rewrite valid_column_count (tnth_nth j) /= nth_index //.
by rewrite /valid_users filter_min0.
Qed.

End ValidColumns.

Section EmptyTest.
Variable R : archiRealFieldType.
Variable np_sqrt : R -> R.
Variable rng : Type.
Variable randint : forall n : nat, rng -> 'I_n.+1 * rng.
Variable np_random_rand : forall m n : nat, rng -> 'M[R]_(m, n) * rng.
Variables num_rows num_cols : nat.
Notation ratings := 'M[R]_(num_rows, num_cols).

(** Training, then scoring on a test matrix without ratings. *)
Lemma train_then_empty_test (train : ratings) (k : nat) (lm lu w : R) s :
  0 < lm -> 0 < lu ->
  (fs <~ ALS np_sqrt k train np_random_rand lm lu w 50 ;;
   let: (user_features, movie_features) := fs in
   rlift (compute_error np_sqrt (0 : ratings) movie_features user_features
            (nonzero (0 : ratings)))) s
  = Raise ZeroDivisionError.
Proof.
move=> Hm Hu; rewrite /rand_bind.
case E: (ALS _ _ _ _ _ _ _ _ _) => [[[uf mf] s']|e].
  by rewrite nonzero0.
case Hnz: (nonzero train) => [|p l].
  by move: E; rewrite ALS_empty // => -[<-].
have := @ALS_ok _ np_sqrt _ np_random_rand _ _ k train lm lu w 50 s Hm Hu.
by rewrite Hnz E => /(_ isT).
Qed.

Lemma cv_fold_empty_test (c : candidate R) (tr : ratings) s :
  usable c ->
  cv_fold np_sqrt np_random_rand c (tr, (0 : ratings)) s
  = Raise ZeroDivisionError.
Proof.
case: c => [[[nf w] lm] lu] [/= Hm Hu]; rewrite /cv_fold.
exact: train_then_empty_test.
Qed.

(** No column of [train] has five ratings: the validation parts of the
    folds are empty. *)
Lemma split_for_cv_sparse (train : ratings) s trl tel s' :
  (forall j, (getnnz_axis0 train j < 5)%N) ->
  split_for_cv randint train 5%:R^-1 5 s = Ok ((trl, tel), s') ->
  size trl = 5%N /\ tel = nseq 5 0.
Proof.
move=> Hlt Hrun; have [H1 H2 Hall] := split_for_cv_exact Hrun; split=> //.
apply: (@eq_from_nth _ 0); rewrite ?size_nseq // => k; rewrite H2 => Hk.
rewrite nth_nseq Hk.
have Hin : (nth 0 trl k, nth 0 tel k) \in zip trl tel.
  have Hkz : (k < size (zip trl tel))%N by rewrite size_zip H1 H2 minnn.
  by have := mem_nth (0, 0) Hkz; rewrite nth_zip ?H1 ?H2.
have [_ Hq _] := split_exact_done (Hall _ Hin).
have H5 : (0 : R) <= 5%:R^-1 by rewrite invr_ge0 ler0n.
apply/matrixP => i j; rewrite mxE; apply: getnnz_axis0_eq0.
apply/eqP; rewrite -leqn0; have [Hle _] := Hq j.
rewrite (@test_quota_lt1 _ _ _ train _ j H5) // in Hle.
by rewrite ltr_pdivrMr ?ltr0n // mul1r ltr_nat.
Qed.

Lemma search_sparse (train : ratings) s :
  (forall j, (getnnz_axis0 train j < 5)%N) ->
  cv_ALS_random_search np_sqrt randint np_random_rand train s
  = Raise ZeroDivisionError.
Proof.
move=> Hlt; have [cs [s4 Hs]] := sampled_exists R randint s.
have H5 : (0 : R) <= 5%:R^-1 by rewrite invr_ge0 ler0n.
have := split_for_cv_ok randint train 5 s4 H5.
case Esplit: (split_for_cv _ _ _ _ _) => [[[trl tel] s5]|] // _.
have [Htrl Htel] := split_for_cv_sparse Hlt Esplit.
apply: (search_raise Hs Esplit).
have := sampled_size Hs; case: cs Hs => [|c cs] // Hs _.
have Hc : usable c.
  split; first exact: movies_range_gt0 (sampled_movies_range Hs (mem_head _ _)).
  exact: user_range_gt0 (sampled_user_range Hs (mem_head _ _)).
apply: (@cv_loop_raise _ np_sqrt _ np_random_rand _ _ _ _ cv_init [::] c cs
          s5 cv_init s5); first by [].
apply: cv_candidate_raise.
case: trl Htrl Esplit => [|tr trl] // _ _; rewrite Htel /=.
apply: (@cv_rmse_list_raise _ np_sqrt _ np_random_rand _ _ c [::] (tr, 0)
          _ s5 [::] s5); first by [].
exact: cv_fold_empty_test.
Qed.

End EmptyTest.

Section RunTheory.
Variable R : archiRealFieldType.
Variable np_sqrt : R -> R.
Variable rng : Type.
Variable randint : forall n : nat, rng -> 'I_n.+1 * rng.
Variable np_random_rand : forall m n : nat, rng -> 'M[R]_(m, n) * rng.
Variable np_random_seed : nat -> rng.
Variables num_rows0 num_cols0 : nat.
Variable ratings : 'M[R]_(num_rows0, num_cols0).

Notation run := (run_cross_validation np_sqrt randint np_random_rand
                   np_random_seed).

Lemma fifth_gt0 : (0 : R) < 5%:R^-1.
Proof. by rewrite invr_gt0 ltr0n. Qed.

Lemma count_gt0_nonzero (m n : nat) (A : 'M[R]_(m, n)) j :
  (0 < getnnz_axis0 A j)%N -> nonzero A != [::].
Proof.
rewrite /getnnz_axis0 -has_count => /hasP[i _ Hi].
exact: has_entry_nonzero Hi.
Qed.

Lemma run_sparse (intest : int) (seed : nat) :
  (forall j, (getnnz_axis0 ratings j < 5)%N) ->
  run intest seed ratings = Raise ZeroDivisionError.
Proof.
move=> Hlt; rewrite /run_cross_validation.
set counts := get_number_per ratings; set s0 := np_random_seed seed.
have := split_data_ok randint ratings counts.1 counts.2 0 s0 (ltW fifth_gt0).
case E: (split_data _ _ _ _ _ _ _) => [[[[valid train] test] s1]|] // _.
rewrite (rand_bind_step _ E).
have [_ Hex] := split_data_exact E; rewrite fifth_gt0 in Hex.
have [Hp Hq _] := split_exact_done Hex.
have HV j : (getnnz_axis0 (valid_ratings ratings counts.1 counts.2 0) j < 5)%N.
  exact: leq_ltn_trans (@valid_column_le _ _ _ ratings counts.1 counts.2 0 j) (Hlt _).
have Htest : test = 0.
  apply/matrixP => i j; rewrite mxE; apply: getnnz_axis0_eq0.
  apply/eqP; rewrite -leqn0; have [Hle _] := Hq j.
  rewrite (test_quota_lt1 (ltW fifth_gt0)) // in Hle.
  by rewrite ltr_pdivrMr ?ltr0n // mul1r ltr_nat.
have Htrain j : (getnnz_axis0 train j < 5)%N.
  apply: leq_ltn_trans (HV j).
  by rewrite -(partition_col_count (fun i => Hp i j)) leq_addr.
have H50 : (0 : R) < 50%:R^-1 by rewrite invr_gt0 ltr0n.
rewrite Htest; case: (intest == 1).
  rewrite /rand_bind /rret.
  exact: (train_then_empty_test np_sqrt np_random_rand train 20 1 s1 fifth_gt0 H50).
by apply: rand_bind_raise; apply: search_sparse.
Qed.

Lemma run_fixed_ok (seed : nat) (j : 'I_num_cols0) :
  (5 <= getnnz_axis0 ratings j)%N -> is_ok (run 1 seed ratings).
Proof.
move=> Hj; rewrite /run_cross_validation.
set counts := get_number_per ratings; set s0 := np_random_seed seed.
have := split_data_ok randint ratings counts.1 counts.2 0 s0 (ltW fifth_gt0).
case E: (split_data _ _ _ _ _ _ _) => [[[[valid train] test] s1]|] // _.
rewrite (rand_bind_step _ E).
have [_ Hex] := split_data_exact E; rewrite fifth_gt0 in Hex.
have [Hp Hq _] := split_exact_done Hex.
have [j' _ Hn] := @valid_column_all _ _ _ ratings counts.1 counts.2 j.
have [Hle Hpos] := Hq j'.
have Hsum := partition_col_count (fun i => Hp i j').
move: Hle Hpos; rewrite /test_quota /column_nonzero size_filter.
rewrite -/(getnnz_axis0 _ j') Hn.
have [m -> /andP[Hm0 Hmn]] := py_int_fifth R Hj => /= Hle /(_ Hm0) Hte.
have Htr : (0 < getnnz_axis0 train j')%N.
  rewrite -(ltn_add2r (getnnz_axis0 test j')) add0n Hsum Hn.
  exact: leq_ltn_trans Hle Hmn.
have Hnz_train := count_gt0_nonzero Htr.
have Hnz_test := count_gt0_nonzero Hte.
rewrite /rand_bind /= /rret /=.
have := @ALS_ok _ np_sqrt _ np_random_rand _ _ 20 train 5%:R^-1 50%:R^-1 1 50
          s1 fifth_gt0.
have H50 : (0 : R) < 50%:R^-1 by rewrite invr_gt0 ltr0n.
move/(_ H50 Hnz_train).
case: (ALS _ _ _ _ _ _ _ _ _) => [[[uf mf] s2]|] // _.
rewrite /rlift; have := compute_error_ok np_sqrt test mf uf (nonzero test).
by rewrite Hnz_test; case: (compute_error _ _ _ _ _).
Qed.

(** X19. [run_cross_validation] raises [ZeroDivisionError], whatever
    [intest] and the seed are, when no movie has five ratings: the 20% of
    the ratings of each movie that go to the test set are then none, and
    the RMSE of an empty test set divides by zero. With [intest = 1] it
    returns as soon as one movie has five ratings. *)
Theorem run_cross_validation_five_ratings (intest : int) (seed : nat) :
  ((forall j, (getnnz_axis0 ratings j < 5)%N) ->
   run_cross_validation np_sqrt randint np_random_rand np_random_seed
     intest seed ratings = Raise ZeroDivisionError) /\
  ((exists j, (5 <= getnnz_axis0 ratings j)%N) ->
   is_ok (run_cross_validation np_sqrt randint np_random_rand np_random_seed
            1 seed ratings)).
Proof.
split; first exact: run_sparse.
by case=> j; apply: run_fixed_ok.
Qed.

End RunTheory.

(** X19 at concrete inputs: one user who rated one of two movies; five
    users who rated one movie. *)
Lemma run_cross_validation_five_ratings_witness :
  run_cross_validation ex_sqrt ex_randint ex_rand (fun _ => tt) 0 988 ex_train
  = Raise ZeroDivisionError /\
  is_ok (run_cross_validation ex_sqrt ex_randint ex_rand (fun _ => tt) 1 988
           ex_train5).
Proof.
split.
  have [H _] := run_cross_validation_five_ratings ex_sqrt ex_randint ex_rand
                  (fun _ => tt) ex_train 0 988.
  apply: H => j; rewrite /getnnz_axis0.
  by apply: leq_ltn_trans (count_size _ _) _; rewrite size_enum_ord.
have [_ H] := run_cross_validation_five_ratings ex_sqrt ex_randint ex_rand
                (fun _ => tt) ex_train5 1 988.
apply: H; exists ord0.
by have := ex_train5_column; rewrite /column_nonzero size_filter.
Defined.

Section SumsTheory.
Variable R : realFieldType.

Lemma big_allpairs_cond (S T : Type) (P : pred (S * T)) (g : S * T -> R)
    (s : seq S) (t : seq T) :
  \sum_(p <- allpairs pair s t | P p) g p
  = \sum_(i <- s) \sum_(j <- t | P (i, j)) g (i, j).
Proof.
elim: s => [|x s IH] /=; first by rewrite !big_nil.
by rewrite big_cat big_cons IH big_map.
Qed.

Variables m n : nat.
Implicit Types A : 'M[R]_(m, n).

Lemma sum_nonzero_rows A (g : 'I_m * 'I_n -> R) :
  \sum_(p <- nonzero A) g p
  = \sum_i \sum_(j <- [seq j <- enum 'I_n | A i j != 0]) g (i, j).
Proof.
rewrite /nonzero big_filter big_allpairs_cond big_enum.
by apply: eq_bigr => i _; rewrite big_filter.
Qed.

Lemma sum_nonzero_cols A (g : 'I_m * 'I_n -> R) :
  \sum_(p <- nonzero A) g p
  = \sum_j \sum_(i <- [seq i <- enum 'I_m | A i j != 0]) g (i, j).
Proof.
rewrite /nonzero big_filter big_allpairs_cond.
under eq_bigr do rewrite big_mkcond.
rewrite exchange_big big_enum /=.
by apply: eq_bigr => j _; rewrite -big_mkcond big_filter.
Qed.

End SumsTheory.

Section LossTheory.
Variable R : realFieldType.
Variables F k : nat.

(** The loss of a column, entry by entry. *)
Lemma ridge_loss_sum (U : 'M[R]_(F, k)) (r : 'cV[R]_k) reg (z : 'cV[R]_F) :
  ridge_loss U r reg z
  = \sum_i (r i ord0 - \sum_f z f ord0 * U f i) ^+ 2
    + reg * \sum_f z f ord0 ^+ 2.
Proof.
rewrite /ridge_loss; congr (_ + _ * _); rewrite mxE.
  apply: eq_bigr => i _; rewrite !mxE -expr2; congr ((_ - _) ^+ 2).
  by apply: eq_bigr => f _; rewrite !mxE mulrC.
by apply: eq_bigr => f _; rewrite !mxE -expr2.
Qed.

End LossTheory.

Section DescentTheory.
Variable R : realFieldType.
Variables num_users num_movies num_features : nat.
Variable train : 'M[R]_(num_users, num_movies).
Implicit Types (uf : 'M[R]_(num_features, num_users))
  (mf : 'M[R]_(num_features, num_movies)).

(** The part of the objective that depends on the factor column of one
    movie, and of one user. *)
Let movie_part (lam : R) uf (z : 'cV[R]_num_features) (j : 'I_num_movies) : R :=
  \sum_(i <- raters train j) (train i j - \sum_f z f ord0 * uf f i) ^+ 2
  + ((size (raters train j))%:R * lam) * \sum_f z f ord0 ^+ 2.

Let user_part (lam : R) mf (z : 'cV[R]_num_features) (i : 'I_num_users) : R :=
  \sum_(j <- rated_by train i) (train i j - \sum_f z f ord0 * mf f j) ^+ 2
  + ((size (rated_by train i))%:R * lam) * \sum_f z f ord0 ^+ 2.

Lemma movie_partE lam uf z j :
  ridge_loss (take_cols uf (raters train j))
    (\col_k train (tnth (in_tuple (raters train j)) k) j)
    ((size (raters train j))%:R * lam) z
  = movie_part lam uf z j.
Proof.
rewrite ridge_loss_sum /movie_part; congr (_ + _).
rewrite [RHS]big_tnth; apply: eq_bigr => i _; rewrite !mxE.
by congr ((_ - _) ^+ 2); apply: eq_bigr => f _; rewrite !mxE.
Qed.

Lemma user_partE lam mf z i :
  ridge_loss (take_cols mf (rated_by train i))
    (\col_k train i (tnth (in_tuple (rated_by train i)) k))
    ((size (rated_by train i))%:R * lam) z
  = user_part lam mf z i.
Proof.
rewrite ridge_loss_sum /user_part; congr (_ + _).
rewrite [RHS]big_tnth; apply: eq_bigr => j _; rewrite !mxE.
by congr ((_ - _) ^+ 2); apply: eq_bigr => f _; rewrite !mxE.
Qed.

Lemma als_objective_movies lm lu uf mf :
  als_objective train lm lu uf mf
  = \sum_j movie_part lm uf (col j mf) j
    + lu * (\sum_i (getnnz_axis1 train i)%:R * \sum_f uf f i ^+ 2).
Proof.
rewrite /als_objective; congr (_ + _).
rewrite sum_nonzero_cols mulr_sumr -big_split /=.
apply: eq_bigr => j _; rewrite /movie_part -/(raters train j); congr (_ + _).
  apply: eq_bigr => i _; congr ((_ - _) ^+ 2).
  by apply: eq_bigr => f _; rewrite !mxE.
rewrite size_raters mulrA [lm * _]mulrC; congr (_ * _).
by apply: eq_bigr => f _; rewrite !mxE.
Qed.

Lemma als_objective_users lm lu uf mf :
  als_objective train lm lu uf mf
  = \sum_i user_part lu mf (col i uf) i
    + lm * (\sum_j (getnnz_axis0 train j)%:R * \sum_f mf f j ^+ 2).
Proof.
rewrite /als_objective addrAC; congr (_ + _).
rewrite sum_nonzero_rows mulr_sumr -big_split /=.
apply: eq_bigr => i _; rewrite /user_part -/(rated_by train i); congr (_ + _).
  apply: eq_bigr => j _; congr ((_ - _) ^+ 2).
  by apply: eq_bigr => f _; rewrite !mxE mulrC.
rewrite size_rated_by mulrA [lu * _]mulrC; congr (_ * _).
by apply: eq_bigr => f _; rewrite !mxE.
Qed.

Lemma raters_nil j : ~ (exists u, train u j != 0) -> raters train j = [::].
Proof.
move=> H; apply/eqP; rewrite -[_ == _]negbK -has_filter.
by apply/negP => /has_raterP.
Qed.

Lemma rated_by_nil i : ~ (exists j, train i j != 0) -> rated_by train i = [::].
Proof.
move=> H; apply/eqP; rewrite -[_ == _]negbK -has_filter.
by apply/negP => /has_ratedP.
Qed.

Lemma classic_rated j :
  (exists u, train u j != 0) \/ ~ (exists u, train u j != 0).
Proof.
case H: (has (fun u => train u j != 0) (enum 'I_num_users)).
  by left; apply/has_raterP.
by right => /has_raterP; rewrite H.
Qed.

Lemma classic_rates i :
  (exists j, train i j != 0) \/ ~ (exists j, train i j != 0).
Proof.
case H: (has (fun j => train i j != 0) (enum 'I_num_movies)).
  by left; apply/has_ratedP.
by right => /has_ratedP; rewrite H.
Qed.

Lemma movie_update_descent lm lu uf mf' :
  0 <= lm ->
  update_movie_feature train uf lm (getnnz_axis0 train)
    (nz_col_rowindices train) = Ok mf' ->
  forall mf, als_objective train lm lu uf mf'
             <= als_objective train lm lu uf mf.
Proof.
move=> Hlm Hup mf; rewrite !als_objective_movies lerD2r.
apply: ler_sum => j _; case: (classic_rated j) => [Hj|Hj].
  have Hne := movie_update_col Hup Hj.
  have Hreg : 0 <= (size (raters train j))%:R * lm by rewrite mulr_ge0 ?ler0n.
  have [Hle _] := ridge_optimal Hreg Hne (col j mf).
  by move: Hle; rewrite !movie_partE.
by rewrite /movie_part (raters_nil Hj) !big_nil /= !mul0r.
Qed.

Lemma user_update_descent lm lu mf uf' :
  0 <= lu ->
  update_user_feature train mf lu (getnnz_axis1 train)
    (nz_row_colindices train) = Ok uf' ->
  forall uf, als_objective train lm lu uf' mf
             <= als_objective train lm lu uf mf.
Proof.
move=> Hlu Hup uf; rewrite !als_objective_users lerD2r.
apply: ler_sum => i _; case: (classic_rates i) => [Hi|Hi].
  have Hne := user_update_col Hup Hi.
  have Hreg : 0 <= (size (rated_by train i))%:R * lu by rewrite mulr_ge0 ?ler0n.
  have [Hle _] := ridge_optimal Hreg Hne (col i uf).
  by move: Hle; rewrite !user_partE.
by rewrite /user_part (rated_by_nil Hi) !big_nil /= !mul0r.
Qed.

End DescentTheory.

Section DescentResults.
Variable R : realFieldType.
Variable np_sqrt : R -> R.
Variables num_users num_movies num_features : nat.
Variable train : 'M[R]_(num_users, num_movies).

(** X20. With regularisers that are not negative, a pass through the loop
    body of [ALS] does not increase the objective of the factorisation,
    the squared error on the observed ratings plus the weighted squared
    norms of the factor columns: the movie factors it computes are the
    best for the user factors it starts from, and the user factors it
    computes the best for these movie factors. *)
Theorem als_objective_decreases (lambda_movie lambda_user : R)
    (st st' : als_state R num_users num_movies num_features) :
  0 <= lambda_movie -> 0 <= lambda_user ->
  ALS_body np_sqrt train lambda_movie lambda_user st = Ok st' ->
  [/\ forall mf,
        als_objective train lambda_movie lambda_user
          (user_features st) (movie_features st')
        <= als_objective train lambda_movie lambda_user (user_features st) mf,
      forall uf,
        als_objective train lambda_movie lambda_user
          (user_features st') (movie_features st')
        <= als_objective train lambda_movie lambda_user uf (movie_features st')
    & als_objective train lambda_movie lambda_user
        (user_features st') (movie_features st')
      <= als_objective train lambda_movie lambda_user
           (user_features st) (movie_features st)].
Proof.
move=> Hm Hu Hb.
have H1 := movie_update_descent lambda_user Hm (ALS_body_movie Hb).
have H2 := user_update_descent lambda_movie Hu (ALS_body_user Hb).
by split=> //; apply: le_trans (H2 _) (H1 _).
Qed.

End DescentResults.

(** X20 at a concrete input: one user, the first of two movies rated. *)
Lemma als_objective_decreases_witness :
  exists st',
    ALS_body ex_sqrt ex_train 1 1 ex_state = Ok st' /\
    als_objective ex_train 1 1 (user_features st') (movie_features st')
    <= als_objective ex_train 1 1 (user_features ex_state)
         (movie_features ex_state).
Proof.
have := ALS_body_ok ex_sqrt ex_state (ltr01 : 0 < 1 :> rat) ltr01 ex_train_nonzero.
case E: (ALS_body _ _ _ _ _) => [st'|] // _; exists st'; split=> //.
by have [_ _] := als_objective_decreases ler01 ler01 E.
Defined.
